(** * A growable array on raw storage: model of [vector.h] and its properties

    The development embeds the two classes of [advanced-vector/vector.h],
    [RawMemory<T>] and [Vector<T>], as executable functions over an explicit
    world: a heap of raw blocks, a store of vector objects, a countdown that
    makes the next duplication fail, and a trace of element-lifetime events.

    Conventions of the embedding.
    - [size_t] values are naturals.  The places where the source's
      arithmetic could leave the naturals are written out: [size_ - 1] on an
      empty vector is an out-of-range index (undefined behaviour); a
      doubling [size_ * 2] that wraps needs a live block of at least 2^63
      elements, which no allocation can provide; and the byte count
      [n * sizeof(T)] of [Allocate(n)] is exact for the sizes that are
      [representable], which is a hypothesis wherever a block is allocated
      for a size that the caller chooses ([Vector(n)], and [Reserve(n)] and
      [Resize(n)] beyond the capacity).
    - [assert]s of the source are checked: a violated one is [Undef].
    - [operator new] is taken to succeed: the failures that are modelled are
      those of element duplication, and a property that says that a call
      returns speaks of the runs in which its allocations succeed.
    - An element type that fails the compile-time test
      [is_nothrow_move_constructible_v<T> || !is_copy_constructible_v<T>]
      is taken to be copy-only: [std::move] on it selects the copy
      constructor or copy assignment, which may throw.  *)

From stdpp Require Import base option list gmap fin_maps.

Set Default Proof Using "Type".

(** ** Addresses, pointers, slots and events *)

Abbreviation addr := nat (only parsing).
Abbreviation ref := nat (only parsing).

(** A [T*]: the block it points into ([None] for [nullptr]) and the element
    offset inside that block. *)
Record Ptr := mkPtr { base : option addr; off : nat }.

#[global] Instance Ptr_eq_dec : EqDecision Ptr.
Proof. solve_decision. Defined.

Definition nullptr : Ptr := mkPtr None 0.

Definition ptr_add (p : Ptr) (k : nat) : Ptr := mkPtr (base p) (off p + k).

Inductive Event :=
  | EvAlloc (a : addr) (n : nat)
  | EvFree (a : addr)
  | EvConstruct (p : Ptr)
  | EvAssign (p : Ptr)
  | EvDestroy (p : Ptr).

(** [RawMemory<T>]: [buffer_] and [capacity_]. *)
Record RawMemory := mkRaw { buffer_ : option addr; capacity_ : nat }.

(** [Vector<T>]: [data_] and [size_]. *)
Record Vector := mkVector { data_ : RawMemory; size_ : nat }.

Section Element.

Context {T : Type}.

(** [T()], the value-initialised element. *)
Variable dflt : T.
(** The state an element is left in after it was moved from. *)
Variable husk : T -> T.
(** The compile-time test
    [is_nothrow_move_constructible_v<T> || !is_copy_constructible_v<T>]. *)
Variable nothrow_move : bool.
(** [sizeof(T)], in bytes. *)
Variable sizeof_T : nat.

(** A slot of a raw block: uninitialised memory or a live element. *)
Inductive Slot := Raw | Live (x : T).

Record World := mkWorld {
  heap : gmap nat (list Slot);
  objs : gmap nat Vector;
  fuse : option nat;
  log : list Event
}.

Definition set_heap (h : gmap nat (list Slot)) (w : World) : World :=
  mkWorld h (objs w) (fuse w) (log w).
Definition set_objs (o : gmap nat Vector) (w : World) : World :=
  mkWorld (heap w) o (fuse w) (log w).
Definition set_fuse (f : option nat) (w : World) : World :=
  mkWorld (heap w) (objs w) f (log w).
Definition add_log (e : list Event) (w : World) : World :=
  mkWorld (heap w) (objs w) (fuse w) (log w ++ e).

(** ** Outcomes and the monad of member functions *)

Inductive Outcome (A : Type) :=
  | Ret (a : A) (w : World)     (* normal return *)
  | Throw (w : World)           (* an exception propagates *)
  | Undef                       (* undefined behaviour or a failed assert *)
  | Terminate.                  (* an exception left a noexcept function *)
Arguments Ret {A} a w.
Arguments Throw {A} w.
Arguments Undef {A}.
Arguments Terminate {A}.

Definition M (A : Type) : Type := World -> Outcome A.

Definition ret {A} (a : A) : M A := fun w => Ret a w.

Definition bind {A B} (m : M A) (k : A -> M B) : M B :=
  fun w =>
    match m w with
    | Ret a w' => k a w'
    | Throw w' => Throw w'
    | Undef => Undef
    | Terminate => Terminate
    end.

Definition undef {A} : M A := fun _ => Undef.

(** Stack unwinding: when [m] throws, [cleanup] runs and the exception
    continues. *)
Definition unwind {A} (m : M A) (cleanup : M unit) : M A :=
  fun w =>
    match m w with
    | Throw w' =>
        match cleanup w' with
        | Ret _ w'' => Throw w''
        | Throw _ => Terminate
        | Undef => Undef
        | Terminate => Terminate
        end
    | o => o
    end.

(** A [noexcept] function body. *)
Definition noexcept {A} (m : M A) : M A :=
  fun w =>
    match m w with
    | Throw _ => Terminate
    | o => o
    end.

Notation "x <- m ;; k" := (bind m (fun x => k))
  (at level 100, m at next level, right associativity).
Notation "m ;;; k" := (bind m (fun _ => k))
  (at level 100, right associativity).

(** ** Raw slots *)

Definition slot_at (w : World) (p : Ptr) : option Slot :=
  match base p with
  | Some a =>
      match heap w !! a with
      | Some sl => sl !! off p
      | None => None
      end
  | None => None
  end.

(** Overwrite the slot [p] points to; the pointer must be inside a block. *)
Definition poke (p : Ptr) (s : Slot) (e : list Event) : M unit :=
  fun w =>
    match base p with
    | Some a =>
        match heap w !! a with
        | Some sl =>
            if off p <? length sl
            then Ret tt (add_log e (set_heap (<[a := <[off p := s]> sl]> (heap w)) w))
            else Undef
        | None => Undef
        end
    | None => Undef
    end.

(** Read through [p]: the slot must hold a live element. *)
Definition read (p : Ptr) : M T :=
  fun w =>
    match slot_at w p with
    | Some (Live x) => Ret x w
    | _ => Undef
    end.

(** Placement new: [new (p) T(x)]. *)
Definition construct_at (p : Ptr) (x : T) : M unit :=
  poke p (Live x) [EvConstruct p].

(** [p->~T()]. *)
Definition destroy_at (p : Ptr) : M unit :=
  read p ;;; poke p Raw [EvDestroy p].

(** Store into an existing element. *)
Definition assign_at (p : Ptr) (x : T) : M unit :=
  read p ;;; poke p (Live x) [EvAssign p].

(** A duplication: fails when the countdown is exhausted. *)
Definition dup (x : T) : M T :=
  fun w =>
    match fuse w with
    | None => Ret x w
    | Some 0 => Throw w
    | Some (S k) => Ret x (set_fuse (Some k) w)
    end.

(** ** Element operations *)

(** The copy constructor applied to the element at [src]. *)
Definition T_copy_ctor (src : Ptr) : M T :=
  x <- read src ;; dup x.

(** The move constructor applied to the element at [src]. *)
Definition T_move_ctor (src : Ptr) : M T :=
  if nothrow_move
  then x <- read src ;; poke src (Live (husk x)) [] ;;; ret x
  else T_copy_ctor src.

(** Copy assignment of the element at [src] to the element at [dst]. *)
Definition T_copy_assign (dst src : Ptr) : M unit :=
  x <- read src ;; y <- dup x ;; assign_at dst y.

(** Move assignment of the element at [src] to the element at [dst]. *)
Definition T_move_assign (dst src : Ptr) : M unit :=
  if nothrow_move
  then x <- read src ;; poke src (Live (husk x)) [] ;;; assign_at dst x
  else T_copy_assign dst src.

(** Move assignment of a local temporary holding [x] to the element at [dst]. *)
Definition T_assign_temp (dst : Ptr) (x : T) : M unit :=
  y <- (if nothrow_move then ret x else dup x) ;; assign_at dst y.

(** The constructor arguments forwarded by [Emplace]: a [const T&], a [T&&],
    or other arguments from which [x] is built. *)
Inductive Args := CopyOf (x : T) | MoveOf (x : T) | Build (x : T).

Definition arg_value (a : Args) : T :=
  match a with CopyOf x | MoveOf x | Build x => x end.

(** [T(std::forward<Args>(args)...)] *)
Definition T_construct (a : Args) : M T :=
  match a with
  | CopyOf x => dup x
  | MoveOf x => if nothrow_move then ret x else dup x
  | Build x => ret x
  end.

(** ** Standard algorithms used by the source *)

(** [std::distance(first, last)] on pointers. *)
Definition distance (first last : Ptr) : M nat :=
  if bool_decide (base first = base last) && (off first <=? off last)
  then ret (off last - off first)
  else undef.

(** [--p] *)
Definition ptr_dec (p : Ptr) : M Ptr :=
  match off p with
  | 0 => undef
  | S k => ret (mkPtr (base p) k)
  end.

(** [std::destroy_n(p, n)] *)
Fixpoint destroy_n (p : Ptr) (n : nat) : M unit :=
  match n with
  | 0 => ret tt
  | S n' => destroy_at p ;;; destroy_n (ptr_add p 1) n'
  end.

(** The loop shared by [std::uninitialized_copy_n], [_move_n] and
    [_value_construct_n]: each element is built by [ctor] from the current
    source position; when [ctor] throws, the [done] elements already built
    at [d_first] are destroyed and the exception continues. *)
Fixpoint uninitialized_n (ctor : Ptr -> M T) (first : Ptr) (n : nat)
    (d_first : Ptr) (done : nat) : M unit :=
  match n with
  | 0 => ret tt
  | S n' =>
      x <- unwind (ctor first) (destroy_n d_first done) ;;
      construct_at (ptr_add d_first done) x ;;;
      uninitialized_n ctor (ptr_add first 1) n' d_first (S done)
  end.

Definition uninitialized_copy_n (first : Ptr) (n : nat) (d_first : Ptr) : M unit :=
  uninitialized_n T_copy_ctor first n d_first 0.

Definition uninitialized_move_n (first : Ptr) (n : nat) (d_first : Ptr) : M unit :=
  uninitialized_n T_move_ctor first n d_first 0.

Definition uninitialized_value_construct_n (first : Ptr) (n : nat) : M unit :=
  uninitialized_n (fun _ => ret dflt) first n first 0.

(** [std::move(first, last, d_first)]: forward element-wise move assignment. *)
Fixpoint move_fwd (first : Ptr) (n : nat) (d_first : Ptr) : M unit :=
  match n with
  | 0 => ret tt
  | S n' =>
      T_move_assign d_first first ;;;
      move_fwd (ptr_add first 1) n' (ptr_add d_first 1)
  end.

Definition std_move (first last d_first : Ptr) : M unit :=
  n <- distance first last ;; move_fwd first n d_first.

(** [std::move_backward] and [std::copy_backward]: the last element first. *)
Fixpoint assign_bwd (asg : Ptr -> Ptr -> M unit) (last : Ptr) (n : nat)
    (d_last : Ptr) : M unit :=
  match n with
  | 0 => ret tt
  | S n' =>
      l <- ptr_dec last ;;
      d <- ptr_dec d_last ;;
      asg d l ;;;
      assign_bwd asg l n' d
  end.

Definition move_backward (first last d_last : Ptr) : M unit :=
  n <- distance first last ;; assign_bwd T_move_assign last n d_last.

Definition copy_backward (first last d_last : Ptr) : M unit :=
  n <- distance first last ;; assign_bwd T_copy_assign last n d_last.

(** ** [RawMemory<T>] *)

(** [SIZE_MAX] for the 64-bit [size_t] of the source's platforms. *)
Definition SIZE_MAX : Z := (2 ^ 64 - 1)%Z.

(** The product [n * sizeof(T)] of [Allocate(n)] does not wrap in [size_t]:
    the request that reaches [operator new] is one for [n] whole elements. *)
Definition representable (n : nat) : Prop :=
  0 < sizeof_T /\ (Z.of_nat n * Z.of_nat sizeof_T <= SIZE_MAX)%Z.

(** [Allocate(n)]: [nullptr] for [n = 0], otherwise a block of [n]
    uninitialised slots at an unused address.  This is what
    [operator new(n * sizeof(T))] provides when [representable n]; for other
    [n] the source's product wraps and the block is shorter than the
    capacity recorded for it, a case the properties of [Vector(n)],
    [Reserve(n)] and [Resize(n)] leave out by hypothesis. *)
Definition Allocate (n : nat) : M (option addr) :=
  fun w =>
    if n =? 0 then Ret None w
    else
      let a := fresh (dom (heap w)) in
      Ret (Some a) (add_log [EvAlloc a n] (set_heap (<[a := replicate n Raw]> (heap w)) w)).

(** [Deallocate(buf)]: [operator delete]; a no-op on [nullptr]. *)
Definition Deallocate (buf : option addr) : M unit :=
  fun w =>
    match buf with
    | None => Ret tt w
    | Some a =>
        match heap w !! a with
        | Some _ => Ret tt (add_log [EvFree a] (set_heap (delete a (heap w)) w))
        | None => Undef
        end
    end.

(** [RawMemory(size_t capacity)] *)
Definition RawMemory_new (capacity : nat) : M RawMemory :=
  b <- Allocate capacity ;; ret (mkRaw b capacity).

(** [~RawMemory()] *)
Definition RawMemory_dtor (r : RawMemory) : M unit :=
  Deallocate (buffer_ r).

(** [operator+(offset)], with its assert. *)
Definition RawMemory_plus (r : RawMemory) (offset : nat) : M Ptr :=
  if offset <=? capacity_ r then ret (mkPtr (buffer_ r) offset) else undef.

(** [operator[](index)], with its assert; the reference is a pointer. *)
Definition RawMemory_at (r : RawMemory) (index : nat) : M Ptr :=
  if index <? capacity_ r then ret (mkPtr (buffer_ r) index) else undef.

Definition GetAddress (r : RawMemory) : Ptr := mkPtr (buffer_ r) 0.

(** ** Access to the members of a [Vector] object *)

Definition get_vec (this : ref) : M Vector :=
  fun w =>
    match objs w !! this with
    | Some v => Ret v w
    | None => Undef
    end.

Definition put_vec (this : ref) (v : Vector) : M unit :=
  fun w => Ret tt (set_objs (<[this := v]> (objs w)) w).

Definition get_data (this : ref) : M RawMemory :=
  v <- get_vec this ;; ret (data_ v).

Definition get_size (this : ref) : M nat :=
  v <- get_vec this ;; ret (size_ v).

Definition set_data (this : ref) (d : RawMemory) : M unit :=
  v <- get_vec this ;; put_vec this (mkVector d (size_ v)).

Definition set_size (this : ref) (n : nat) : M unit :=
  v <- get_vec this ;; put_vec this (mkVector (data_ v) n).

Definition set_buffer (this : ref) (b : option addr) : M unit :=
  d <- get_data this ;; set_data this (mkRaw b (capacity_ d)).

Definition set_capacity (this : ref) (c : nat) : M unit :=
  d <- get_data this ;; set_data this (mkRaw (buffer_ d) c).

(** [RawMemory::operator=(RawMemory&&)] between the [data_] members of two
    vector objects; [&data_ == &rhs.data_] exactly when the objects are the
    same. *)
Definition RawMemory_move_assign (this rhs : ref) : M unit :=
  if negb (this =? rhs) then
    r <- get_data rhs ;;
    set_buffer this (buffer_ r) ;;;
    set_capacity this (capacity_ r) ;;;
    set_buffer rhs None ;;;
    set_capacity rhs 0
  else ret tt.

(** [RawMemory::Swap] between the [data_] members of two vector objects. *)
Definition RawMemory_Swap (this other : ref) : M unit :=
  a <- get_data this ;;
  b <- get_data other ;;
  set_buffer this (buffer_ b) ;;;
  set_buffer other (buffer_ a) ;;;
  a' <- get_data this ;;
  b' <- get_data other ;;
  set_capacity this (capacity_ b') ;;;
  set_capacity other (capacity_ a').

(** [data_.Swap(new_data)] for a local [new_data]; returns the local. *)
Definition RawMemory_Swap_local (this : ref) (new_data : RawMemory) : M RawMemory :=
  d <- get_data this ;;
  set_data this new_data ;;;
  ret d.

(** ** [Vector<T>] *)

(** Storage for a new object: [this] must not hold a live object. *)
Definition new_obj (this : ref) (v : Vector) : M unit :=
  fun w =>
    match objs w !! this with
    | None => Ret tt (set_objs (<[this := v]> (objs w)) w)
    | Some _ => Undef
    end.

(** End of the lifetime of the object at [this]. *)
Definition del_obj (this : ref) : M unit :=
  fun w => Ret tt (set_objs (delete this (objs w)) w).

(** A local object of automatic storage. *)
Definition local_obj : M ref :=
  fun w => Ret (fresh (dom (objs w))) w.

Definition begin_ (this : ref) : M Ptr :=
  d <- get_data this ;; RawMemory_plus d 0.

Definition end_ (this : ref) : M Ptr :=
  v <- get_vec this ;; RawMemory_plus (data_ v) (size_ v).

Definition cbegin (this : ref) : M Ptr := begin_ this.
Definition cend (this : ref) : M Ptr := end_ this.

Definition Size (this : ref) : M nat := get_size this.

Definition Capacity (this : ref) : M nat :=
  d <- get_data this ;; ret (capacity_ d).

(** [operator[](index)], with its assert. *)
Definition Vector_at (this : ref) (index : nat) : M Ptr :=
  v <- get_vec this ;;
  if index <? size_ v then RawMemory_at (data_ v) index else undef.

(** [Vector()] *)
Definition Vector_default (this : ref) : M unit :=
  new_obj this (mkVector (mkRaw None 0) 0).

(** [Vector(size_t size)] *)
Definition Vector_sized (this : ref) (size : nat) : M unit :=
  d <- RawMemory_new size ;;
  new_obj this (mkVector d size) ;;;
  unwind (uninitialized_value_construct_n (GetAddress d) size)
         (RawMemory_dtor d ;;; del_obj this).

(** [Vector(Vector&& other)] *)
Definition Vector_move_ctor (this other : ref) : M unit :=
  noexcept (
    o <- get_vec other ;;
    new_obj this (mkVector (mkRaw (buffer_ (data_ o)) (capacity_ (data_ o))) (size_ o)) ;;;
    set_buffer other None ;;;
    set_capacity other 0 ;;;
    set_size other 0).

(** [Vector(const Vector& other)] *)
Definition Vector_copy_ctor (this other : ref) : M unit :=
  o <- get_vec other ;;
  d <- RawMemory_new (size_ o) ;;
  new_obj this (mkVector d (size_ o)) ;;;
  unwind (uninitialized_copy_n (GetAddress (data_ o)) (size_ o) (GetAddress d))
         (RawMemory_dtor d ;;; del_obj this).

(** [~Vector()] *)
Definition Vector_dtor (this : ref) : M unit :=
  v <- get_vec this ;;
  destroy_n (GetAddress (data_ v)) (size_ v) ;;;
  RawMemory_dtor (data_ v) ;;;
  del_obj this.

(** [Reserve(new_capacity)] *)
Definition Reserve (this : ref) (new_capacity : nat) : M unit :=
  v <- get_vec this ;;
  if new_capacity <=? capacity_ (data_ v) then ret tt
  else
    new_data <- RawMemory_new new_capacity ;;
    unwind
      (if nothrow_move
       then uninitialized_move_n (GetAddress (data_ v)) (size_ v) (GetAddress new_data)
       else uninitialized_copy_n (GetAddress (data_ v)) (size_ v) (GetAddress new_data))
      (RawMemory_dtor new_data) ;;;
    old <- RawMemory_Swap_local this new_data ;;
    destroy_n (GetAddress old) (size_ v) ;;;
    RawMemory_dtor old.

(** The loop [for (i = from; i < size_; i++) std::destroy_at(&data_[i])],
    with [n] iterations left. *)
Fixpoint destroy_from (d : RawMemory) (i n : nat) : M unit :=
  match n with
  | 0 => ret tt
  | S n' => p <- RawMemory_at d i ;; destroy_at p ;;; destroy_from d (S i) n'
  end.

(** [Resize(new_size)] *)
Definition Resize (this : ref) (new_size : nat) : M unit :=
  v <- get_vec this ;;
  if size_ v =? new_size then ret tt
  else if new_size <? size_ v then
    destroy_from (data_ v) new_size (size_ v - new_size) ;;;
    set_size this new_size
  else
    Reserve this new_size ;;;
    v' <- get_vec this ;;
    p <- RawMemory_at (data_ v') (size_ v') ;;
    uninitialized_value_construct_n p (new_size - size_ v') ;;;
    set_size this new_size.

(** [EmplaceWMove(num_pos, args...)] *)
Definition EmplaceWMove (this : ref) (num_pos : nat) (args : Args) : M unit :=
  v <- get_vec this ;;
  if (0 <? size_ v) && negb (num_pos =? size_ v) then
    tmp_val <- T_construct args ;;
    d <- RawMemory_plus (data_ v) (size_ v) ;;
    l <- RawMemory_at (data_ v) (size_ v - 1) ;;
    x <- T_move_ctor l ;;
    construct_at d x ;;;
    first <- RawMemory_plus (data_ v) num_pos ;;
    last <- RawMemory_plus (data_ v) (size_ v - 1) ;;
    d_last <- RawMemory_plus (data_ v) (size_ v) ;;
    move_backward first last d_last ;;;
    t <- RawMemory_at (data_ v) num_pos ;;
    T_assign_temp t tmp_val
  else
    p <- RawMemory_plus (data_ v) num_pos ;;
    x <- T_construct args ;;
    construct_at p x.

(** [EmplaceWCopy(num_pos, args...)] *)
Definition EmplaceWCopy (this : ref) (num_pos : nat) (args : Args) : M unit :=
  v <- get_vec this ;;
  if (0 <? size_ v) && negb (num_pos =? size_ v) then
    tmp_val <- T_construct args ;;
    d <- RawMemory_plus (data_ v) (size_ v) ;;
    l <- RawMemory_at (data_ v) (size_ v - 1) ;;
    x <- T_move_ctor l ;;
    construct_at d x ;;;
    first <- RawMemory_plus (data_ v) num_pos ;;
    last <- RawMemory_plus (data_ v) (size_ v - 1) ;;
    d_last <- RawMemory_plus (data_ v) (size_ v) ;;
    copy_backward first last d_last ;;;
    t <- RawMemory_at (data_ v) num_pos ;;
    T_assign_temp t tmp_val
  else
    p <- RawMemory_plus (data_ v) num_pos ;;
    x <- T_construct args ;;
    construct_at p x.

(** [Emplace(pos, args...)] *)
Definition Emplace (this : ref) (pos : Ptr) (args : Args) : M Ptr :=
  b <- cbegin this ;;
  num_pos <- distance b pos ;;
  v <- get_vec this ;;
  (if size_ v =? capacity_ (data_ v) then
     let ns := if 0 <? size_ v then size_ v * 2 else 1 in
     new_data <- RawMemory_new ns ;;
     unwind
       (if nothrow_move then
          p <- RawMemory_plus new_data num_pos ;;
          x <- T_construct args ;;
          construct_at p x ;;;
          uninitialized_move_n (GetAddress (data_ v)) num_pos (GetAddress new_data) ;;;
          e <- cend this ;;
          if negb (bool_decide (pos = e)) then
            s <- RawMemory_plus (data_ v) num_pos ;;
            d <- RawMemory_plus new_data num_pos ;;
            uninitialized_move_n s (size_ v - num_pos) (ptr_add d 1)
          else ret tt
        else
          p <- RawMemory_plus new_data num_pos ;;
          x <- T_construct args ;;
          construct_at p x ;;;
          uninitialized_copy_n (GetAddress (data_ v)) num_pos (GetAddress new_data) ;;;
          e <- cend this ;;
          if negb (bool_decide (pos = e)) then
            s <- RawMemory_plus (data_ v) num_pos ;;
            d <- RawMemory_plus new_data num_pos ;;
            uninitialized_copy_n s (size_ v - num_pos) (ptr_add d 1)
          else ret tt)
       (RawMemory_dtor new_data) ;;;
     old <- RawMemory_Swap_local this new_data ;;
     destroy_n (GetAddress old) (size_ v) ;;;
     RawMemory_dtor old
   else
     if nothrow_move
     then EmplaceWMove this num_pos args
     else EmplaceWCopy this num_pos args) ;;;
  sz <- get_size this ;;
  set_size this (sz + 1) ;;;
  d <- get_data this ;;
  RawMemory_at d num_pos.

(** [Erase(pos)] *)
Definition Erase (this : ref) (pos : Ptr) : M Ptr :=
  noexcept (
    b <- cbegin this ;;
    num_pos <- distance b pos ;;
    v <- get_vec this ;;
    p <- RawMemory_plus (data_ v) num_pos ;;
    e <- end_ this ;;
    std_move (ptr_add p 1) e p ;;;
    e' <- end_ this ;;
    l <- ptr_dec e' ;;
    destroy_at l ;;;
    set_size this (size_ v - 1) ;;;
    RawMemory_at (data_ v) num_pos).

(** [Insert(pos, const T& value)] and [Insert(pos, T&& value)] *)
Definition Insert_copy (this : ref) (pos : Ptr) (value : T) : M Ptr :=
  Emplace this pos (CopyOf value).

Definition Insert_move (this : ref) (pos : Ptr) (value : T) : M Ptr :=
  Emplace this pos (MoveOf value).

(** [EmplaceBack(args...)] *)
Definition EmplaceBack (this : ref) (args : Args) : M Ptr :=
  e <- cend this ;;
  Emplace this e args ;;;
  v <- get_vec this ;;
  RawMemory_at (data_ v) (size_ v - 1).

(** [PushBack(const T& value)] and [PushBack(T&& value)] *)
Definition PushBack_copy (this : ref) (value : T) : M unit :=
  EmplaceBack this (CopyOf value) ;;; ret tt.

Definition PushBack_move (this : ref) (value : T) : M unit :=
  EmplaceBack this (MoveOf value) ;;; ret tt.

(** [PopBack()]; on an empty vector [size_ - 1] is [SIZE_MAX], an index
    outside every block. *)
Definition PopBack (this : ref) : M unit :=
  noexcept (
    v <- get_vec this ;;
    if size_ v =? 0 then undef
    else
      p <- RawMemory_at (data_ v) (size_ v - 1) ;;
      destroy_at p ;;;
      set_size this (size_ v - 1)).

(** [Swap(other)] *)
Definition Swap (this other : ref) : M unit :=
  noexcept (
    RawMemory_Swap this other ;;;
    a <- get_size this ;;
    b <- get_size other ;;
    set_size this b ;;;
    set_size other a).

(** The loop [for (; current_elem < bound; current_elem++)
    data_[current_elem] = rhs[current_elem]], with [n] iterations left. *)
Fixpoint assign_from (d : RawMemory) (rhs : ref) (i n : nat) : M unit :=
  match n with
  | 0 => ret tt
  | S n' =>
      p <- RawMemory_at d i ;;
      q <- Vector_at rhs i ;;
      T_copy_assign p q ;;;
      assign_from d rhs (S i) n'
  end.

(** The loop [for (; current_elem < rhs.size_; current_elem++)
    new (data_ + current_elem) T(rhs[current_elem])]. *)
Fixpoint construct_from (d : RawMemory) (rhs : ref) (i n : nat) : M unit :=
  match n with
  | 0 => ret tt
  | S n' =>
      p <- RawMemory_plus d i ;;
      q <- Vector_at rhs i ;;
      x <- T_copy_ctor q ;;
      construct_at p x ;;;
      construct_from d rhs (S i) n'
  end.

(** [operator=(const Vector& rhs)] *)
Definition copy_assign (this rhs : ref) : M unit :=
  if negb (this =? rhs) then
    t <- get_vec this ;;
    r <- get_vec rhs ;;
    if capacity_ (data_ t) <? size_ r then
      rhs_copy <- local_obj ;;
      Vector_copy_ctor rhs_copy rhs ;;;
      Swap this rhs_copy ;;;
      Vector_dtor rhs_copy
    else if size_ r <=? size_ t then
      assign_from (data_ t) rhs 0 (size_ r) ;;;
      destroy_from (data_ t) (size_ r) (size_ t - size_ r) ;;;
      set_size this (size_ r)
    else
      assign_from (data_ t) rhs 0 (size_ t) ;;;
      construct_from (data_ t) rhs (size_ t) (size_ r - size_ t) ;;;
      set_size this (size_ r)
  else ret tt.

(** [operator=(Vector&& rhs)] *)
Definition move_assign (this rhs : ref) : M unit :=
  noexcept (
    RawMemory_move_assign this rhs ;;;
    sz <- get_size rhs ;;
    set_size this sz ;;;
    set_size rhs 0).

(** ** What a caller observes *)

Definition result_of {A} (m : M A) (w : World) : option A :=
  match m w with
  | Ret a _ => Some a
  | _ => None
  end.

(** [v.Size()], [v.Capacity()] and [v[i]] in the world [w]. *)
Definition size_of (w : World) (this : ref) : option nat := result_of (Size this) w.
Definition capacity_of (w : World) (this : ref) : option nat := result_of (Capacity this) w.
Definition elem_of_vec (w : World) (this : ref) (i : nat) : option T :=
  result_of (p <- Vector_at this i ;; read p) w.

(** The elements [v[0], ..., v[Size()-1]]. *)
Definition elems_of (w : World) (this : ref) : option (list T) :=
  match size_of w this with
  | Some n => mapM (elem_of_vec w this) (seq 0 n)
  | None => None
  end.

(** ** The representation invariant *)

(** The object at [this] is a vector whose elements are [xs], in a block of
    capacity [c]: the first [length xs] slots are live and hold [xs], the
    remaining slots are raw; a vector of capacity zero owns no block. *)
Definition rep (h : gmap nat (list Slot)) (v : Vector) (xs : list T) : Prop :=
  size_ v = length xs /\
  length xs <= capacity_ (data_ v) /\
  match buffer_ (data_ v) with
  | None => capacity_ (data_ v) = 0
  | Some a =>
      0 < capacity_ (data_ v) /\
      h !! a = Some ((Live <$> xs) ++ replicate (capacity_ (data_ v) - length xs) Raw)
  end.

Definition holds (w : World) (this : ref) (xs : list T) (c : nat) : Prop :=
  exists v, objs w !! this = Some v /\ capacity_ (data_ v) = c /\ rep (heap w) v xs.

(** The iterator [begin() + i] of the vector at [this]. *)
Definition iter_at (w : World) (this : ref) (i : nat) : Ptr :=
  match objs w !! this with
  | Some v => mkPtr (buffer_ (data_ v)) i
  | None => nullptr
  end.

(** Duplications that a countdown still allows, and what is left of it. *)
Definition enough (n : nat) (f : option nat) : Prop :=
  match f with
  | None => True
  | Some k => n <= k
  end.

Definition spend (n : nat) (f : option nat) : option nat :=
  (fun k => k - n) <$> f.

Definition affordable (n : nat) (f : option nat) : bool :=
  match f with
  | None => true
  | Some k => n <=? k
  end.

(** What stays behind in a slot whose element was transferred, and the
    number of duplications a transfer of [n] elements performs. *)
Definition residue (x : T) : T := if nothrow_move then husk x else x.
Definition cost (n : nat) : nat := if nothrow_move then 0 else n.

(** Replace the segment of [l] that starts at [o] by [ys]. *)
Definition splice {A} (o : nat) (ys : list A) (l : list A) : list A :=
  take o l ++ ys ++ drop (o + length ys) l.

(** The [n] slots from offset [o] on are live. *)
Definition live_seg (o n : nat) (sl : list Slot) : Prop :=
  forall i, i < n -> exists x, sl !! (o + i) = Some (Live x).

(** The events of constructing, assigning and destroying slot [k] of block
    [a]. *)
Definition ev_destroy (a : addr) (k : nat) : Event := EvDestroy (mkPtr (Some a) k).
Definition ev_construct (a : addr) (k : nat) : Event := EvConstruct (mkPtr (Some a) k).
Definition ev_assign (a : addr) (k : nat) : Event := EvAssign (mkPtr (Some a) k).

(** The heap after the block behind [b] is released. *)
Definition free_block (b : option addr) (h : gmap nat (list Slot)) : gmap nat (list Slot) :=
  match b with
  | Some a => delete a h
  | None => h
  end.

(** The block a vector object owns, and two objects owning different
    blocks. *)
Definition buffer_of (w : World) (this : ref) : option addr :=
  match objs w !! this with
  | Some v => buffer_ (data_ v)
  | None => None
  end.

Definition apart (w : World) (p q : ref) : Prop :=
  forall a, buffer_of w p = Some a -> buffer_of w q <> Some a.

(** What [RawMemory(n)] returns in a heap [h], and the heap once the new
    block holds [sl]. *)
Definition block_for (h : gmap nat (list Slot)) (n : nat) : RawMemory :=
  mkRaw (if n =? 0 then None else Some (fresh (dom h))) n.

Definition with_block (h : gmap nat (list Slot)) (n : nat) (sl : list Slot)
  : gmap nat (list Slot) :=
  if n =? 0 then h else <[fresh (dom h) := sl]> h.

(** A segment [x, ys...] after the forward shift of [Erase]: every element
    of [ys] moved one slot down, the last slot holding what its element left
    behind. *)
Fixpoint fshift (x : T) (ys : list T) : list Slot :=
  match ys with
  | [] => [Live x]
  | y :: ys' => Live y :: fshift (residue y) ys'
  end.

(** A segment [zs..., u] after the backward shift of [Emplace]: every
    element of [zs] moved one slot up, the first slot holding what its
    element left behind. *)
Definition bshift (u : T) (zs : list T) : list Slot :=
  match zs with
  | [] => [Live u]
  | z :: _ => Live (residue z) :: (Live <$> zs)
  end.

(** The population of the new block in the growth path of [Emplace]; the two
    branches of the compile-time test run it with [std::uninitialized_move_n]
    and with [std::uninitialized_copy_n] for [reloc]. *)
Definition grow_body (reloc : Ptr -> nat -> Ptr -> M unit) (this : ref) (v : Vector)
    (new_data : RawMemory) (num_pos : nat) (pos : Ptr) (args : Args) : M unit :=
  p <- RawMemory_plus new_data num_pos ;;
  x <- T_construct args ;;
  construct_at p x ;;;
  reloc (GetAddress (data_ v)) num_pos (GetAddress new_data) ;;;
  e <- cend this ;;
  if negb (bool_decide (pos = e)) then
    s <- RawMemory_plus (data_ v) num_pos ;;
    d <- RawMemory_plus new_data num_pos ;;
    reloc s (size_ v - num_pos) (ptr_add d 1)
  else ret tt.

(** What the proofs need of such a [reloc] when no duplication fails. *)
Definition relocates (reloc : Ptr -> nat -> Ptr -> M unit) : Prop :=
  (forall p q w, reloc p 0 q w = Ret tt w) /\
  (forall a b xs n s d h ob lg sla slb,
     a <> b -> h !! a = Some sla -> h !! b = Some slb ->
     length xs = n -> take n (drop s sla) = Live <$> xs -> d + n <= length slb ->
     exists lg',
       reloc (mkPtr (Some a) s) n (mkPtr (Some b) d) (mkWorld h ob None lg)
       = Ret tt (mkWorld (<[b := splice d (Live <$> xs) slb]>
                            (<[a := splice s (Live <$> (residue <$> xs)) sla]> h))
                         ob None lg')).

(** A sequence of [PushBack] calls; [true] marks a call with a [const T&]
    argument, [false] a call with a [T&&] argument. *)
Definition push_back (this : ref) (p : bool * T) : M unit :=
  if fst p then PushBack_copy this (snd p) else PushBack_move this (snd p).

Fixpoint push_all (this : ref) (ps : list (bool * T)) : M unit :=
  match ps with
  | [] => ret tt
  | p :: ps' => push_back this p ;;; push_all this ps'
  end.

(** The doubling-from-one policy: the capacity after [n] calls of [PushBack]
    on a vector that started with capacity 0. *)
Fixpoint cap_after (n : nat) : nat :=
  match n with
  | 0 => 0
  | S k => if k =? cap_after k then Nat.max 1 (2 * cap_after k) else cap_after k
  end.

(** The footprint of an operation on the vector at [this]: the other
    objects are the same, the blocks that the vector did not own are the
    same, and the block it owns afterwards is the old one or a new one. *)
Definition updates (this : ref) (w w' : World) : Prop :=
  (forall q, q <> this -> objs w' !! q = objs w !! q) /\
  (forall a sl, buffer_of w this <> Some a -> heap w !! a = Some sl ->
                heap w' !! a = Some sl) /\
  (forall a, buffer_of w' this = Some a ->
             buffer_of w this = Some a \/ heap w !! a = None).

(** The invariant of one vector: the logical size does not exceed the
    capacity, a vector of capacity zero owns no block, and of the block that
    a vector of positive capacity owns exactly the slots [0, size) are
    live. *)
Definition is_live (s : Slot) : bool :=
  match s with
  | Live _ => true
  | Raw => false
  end.

Definition is_raw (s : Slot) : bool := negb (is_live s).

Definition vec_inv (h : gmap nat (list Slot)) (v : Vector) : bool :=
  (size_ v <=? capacity_ (data_ v)) &&
  match buffer_ (data_ v) with
  | None => capacity_ (data_ v) =? 0
  | Some a =>
      (0 <? capacity_ (data_ v)) &&
      match h !! a with
      | Some sl =>
          (length sl =? capacity_ (data_ v)) &&
          forallb is_live (take (size_ v) sl) &&
          forallb is_raw (drop (size_ v) sl)
      | None => false
      end
  end.

(** The invariant of the whole world: every vector object satisfies
    [vec_inv], and no two objects own the same block. *)
Definition world_ok (w : World) : Prop :=
  (forall p v, objs w !! p = Some v -> vec_inv (heap w) v = true) /\
  (forall p q, p <> q -> apart w p q).

(** The public operations of [Vector]. *)
Inductive Op :=
  | OpDefault (this : ref)
  | OpSized (this : ref) (n : nat)
  | OpCopyCtor (this other : ref)
  | OpMoveCtor (this other : ref)
  | OpDtor (this : ref)
  | OpBegin (this : ref)
  | OpEnd (this : ref)
  | OpSize (this : ref)
  | OpCapacity (this : ref)
  | OpAt (this : ref) (i : nat)
  | OpReserve (this : ref) (n : nat)
  | OpResize (this : ref) (n : nat)
  | OpEmplace (this : ref) (pos : Ptr) (args : Args)
  | OpInsertCopy (this : ref) (pos : Ptr) (x : T)
  | OpInsertMove (this : ref) (pos : Ptr) (x : T)
  | OpEmplaceBack (this : ref) (args : Args)
  | OpPushBackCopy (this : ref) (x : T)
  | OpPushBackMove (this : ref) (x : T)
  | OpPopBack (this : ref)
  | OpErase (this : ref) (pos : Ptr)
  | OpCopyAssign (this rhs : ref)
  | OpMoveAssign (this rhs : ref)
  | OpSwap (this other : ref).

Definition run_op (op : Op) : M unit :=
  match op with
  | OpDefault this => Vector_default this
  | OpSized this n => Vector_sized this n
  | OpCopyCtor this other => Vector_copy_ctor this other
  | OpMoveCtor this other => Vector_move_ctor this other
  | OpDtor this => Vector_dtor this
  | OpBegin this => begin_ this ;;; ret tt
  | OpEnd this => end_ this ;;; ret tt
  | OpSize this => Size this ;;; ret tt
  | OpCapacity this => Capacity this ;;; ret tt
  | OpAt this i => Vector_at this i ;;; ret tt
  | OpReserve this n => Reserve this n
  | OpResize this n => Resize this n
  | OpEmplace this pos args => Emplace this pos args ;;; ret tt
  | OpInsertCopy this pos x => Insert_copy this pos x ;;; ret tt
  | OpInsertMove this pos x => Insert_move this pos x ;;; ret tt
  | OpEmplaceBack this args => EmplaceBack this args ;;; ret tt
  | OpPushBackCopy this x => PushBack_copy this x
  | OpPushBackMove this x => PushBack_move this x
  | OpPopBack this => PopBack this
  | OpErase this pos => Erase this pos ;;; ret tt
  | OpCopyAssign this rhs => copy_assign this rhs
  | OpMoveAssign this rhs => move_assign this rhs
  | OpSwap this other => Swap this other
  end.

(** [pos] is an iterator of the vector at [this] with at least [k] elements
    from it to the end: [k = 0] for a position of insertion in
    [begin(), end()], [k = 1] for a position of erasure in
    [begin(), end()). *)
Definition within (w : World) (this : ref) (pos : Ptr) (k : nat) : Prop :=
  exists v i,
    objs w !! this = Some v /\ pos = mkPtr (buffer_ (data_ v)) i /\ i + k <= size_ v.

Definition alive (w : World) (p : ref) : Prop := is_Some (objs w !! p).

(** The preconditions of the operations: constructors run on storage that
    holds no object, everything else on live objects; an index is below the
    size; positions are iterators of the vector; [PopBack] needs an element;
    move assignment is between two different objects. *)
Definition op_pre (op : Op) (w : World) : Prop :=
  match op with
  | OpDefault this | OpSized this _ => objs w !! this = None
  | OpCopyCtor this other | OpMoveCtor this other =>
      objs w !! this = None /\ alive w other
  | OpDtor this | OpBegin this | OpEnd this | OpSize this | OpCapacity this
  | OpReserve this _ | OpResize this _
  | OpEmplaceBack this _ | OpPushBackCopy this _ | OpPushBackMove this _ => alive w this
  | OpAt this i => exists v, objs w !! this = Some v /\ i < size_ v
  | OpEmplace this pos _ | OpInsertCopy this pos _ | OpInsertMove this pos _ =>
      within w this pos 0
  | OpPopBack this => exists v, objs w !! this = Some v /\ 0 < size_ v
  | OpErase this pos => within w this pos 1
  | OpCopyAssign this rhs | OpSwap this rhs => alive w this /\ alive w rhs
  | OpMoveAssign this rhs => alive w this /\ alive w rhs /\ this <> rhs
  end.

(** A size that the caller passes and for which a block is allocated is
    representable. *)
Definition size_pre (op : Op) (w : World) : Prop :=
  match op with
  | OpSized _ n => representable n
  | OpReserve this n | OpResize this n =>
      forall v, objs w !! this = Some v -> capacity_ (data_ v) < n -> representable n
  | _ => True
  end.

(** The two paths on which an element is built past the size before the
    size is updated, so that an exception in between leaves a live element
    that the vector does not count: the first branch of [EmplaceWMove] and
    [EmplaceWCopy] (a block with room, [size_ > 0 && num_pos != size_]), and
    the branch of copy assignment that constructs the additional elements of
    a longer [rhs] in the existing block. *)
Definition non_atomic (op : Op) (w : World) : bool :=
  match op with
  | OpEmplace this pos _ | OpInsertCopy this pos _ | OpInsertMove this pos _ =>
      match objs w !! this with
      | Some v =>
          negb (size_ v =? capacity_ (data_ v)) &&
          ((0 <? size_ v) && negb (off pos =? size_ v))
      | None => false
      end
  | OpCopyAssign this rhs =>
      match objs w !! this, objs w !! rhs with
      | Some t, Some r =>
          negb (this =? rhs) && negb (capacity_ (data_ t) <? size_ r) &&
          negb (size_ r <=? size_ t)
      | _, _ => false
      end
  | _ => false
  end.

(** The pattern of live and raw slots of every block. *)
Definition shape (h : gmap nat (list Slot)) : gmap nat (list bool) :=
  (fun sl : list Slot => is_live <$> sl) <$> h.

(** [w'] has the vector objects of [w] and the same pattern of live and raw
    slots; a computation that, whether it returns or throws, leaves the
    world so. *)
Definition same_shape (w w' : World) : Prop :=
  objs w' = objs w /\ shape (heap w') = shape (heap w).

Definition keeps_shape {A} (m : M A) : Prop :=
  forall w,
    match m w with
    | Ret _ w' | Throw w' => same_shape w w'
    | Undef | Terminate => True
    end.

(** [w'] has the vector objects of [w] and the same blocks except for the
    contents of the block at [a']; a computation that, whether it returns or
    throws, writes to that block only. *)
Definition same_but (a' : addr) (w w' : World) : Prop :=
  objs w' = objs w /\
  (forall a, a <> a' -> heap w' !! a = heap w !! a) /\
  (is_Some (heap w !! a') -> is_Some (heap w' !! a')).

Definition confined {A} (a' : addr) (m : M A) : Prop :=
  forall w,
    match m w with
    | Ret _ w' | Throw w' => same_but a' w w'
    | Undef | Terminate => True
    end.

(** The world with the failure countdown removed, and computations whose
    normal returns do not depend on the countdown. *)
Definition quiet (w : World) : World := mkWorld (heap w) (objs w) None (log w).

Definition sim {A} (m : M A) : Prop :=
  forall w a w', m w = Ret a w' -> m (quiet w) = Ret a (quiet w').

(** The number of duplications that the construction of the new element of
    [Emplace] performs. *)
Definition args_cost (a : Args) : nat :=
  match a with
  | CopyOf _ => 1
  | MoveOf _ => if nothrow_move then 0 else 1
  | Build _ => 0
  end.

(** A computation that the countdown has no part in: whatever the countdown
    is, the computation returns with the countdown untouched or is
    undefined. *)
Definition steady {A} (m : M A) : Prop :=
  forall w,
    match m w with
    | Ret _ w' => fuse w' = fuse w
    | Undef => True
    | Throw _ | Terminate => False
    end.

(** The operations that may duplicate an element: the copying ones for
    every element type, and those that relocate elements when the element
    type is relocated by its copy constructor. *)
Definition duplicates (op : Op) : bool :=
  match op with
  | OpCopyCtor _ _ | OpCopyAssign _ _ | OpInsertCopy _ _ _ | OpPushBackCopy _ _ => true
  | OpEmplace _ _ (CopyOf _) | OpEmplaceBack _ (CopyOf _) => true
  | OpEmplace _ _ _ | OpEmplaceBack _ _ | OpInsertMove _ _ _ | OpPushBackMove _ _
  | OpReserve _ _ | OpResize _ _ | OpErase _ _ => negb nothrow_move
  | _ => false
  end.



(** * Properties *)

(** ** Basic facts *)

Lemma bind_Ret {A B} (m : M A) (k : A -> M B) w a w' :
  m w = Ret a w' -> bind m k w = k a w'.
Proof. intros H. unfold bind. now rewrite H. Qed.

Lemma bind_Throw {A B} (m : M A) (k : A -> M B) w w' :
  m w = Throw w' -> bind m k w = Throw w'.
Proof. intros H. unfold bind. now rewrite H. Qed.

Lemma unwind_Ret {A} (m : M A) c w a w' :
  m w = Ret a w' -> unwind m c w = Ret a w'.
Proof. intros H. unfold unwind. now rewrite H. Qed.

Lemma unwind_Throw {A} (m : M A) c w w' w'' :
  m w = Throw w' -> c w' = Ret tt w'' -> unwind m c w = Throw w''.
Proof. intros H H'. unfold unwind. now rewrite H, H'. Qed.

Lemma noexcept_Ret {A} (m : M A) w a w' :
  m w = Ret a w' -> noexcept m w = Ret a w'.
Proof. intros H. unfold noexcept. now rewrite H. Qed.

Lemma enough_0 f : enough 0 f.
Proof. destruct f; simpl; lia. Qed.

Lemma spend_0 f : spend 0 f = f.
Proof. destruct f; simpl; f_equal; lia. Qed.

Lemma enough_S n f : enough (S n) f -> enough 1 f /\ enough n (spend 1 f).
Proof. destruct f; simpl; lia. Qed.

Lemma enough_add n m f : enough (n + m) f -> enough n f /\ enough m (spend n f).
Proof. destruct f; simpl; lia. Qed.

Lemma spend_spend n m f : spend m (spend n f) = spend (n + m) f.
Proof. destruct f; simpl; f_equal; lia. Qed.

Lemma enough_le n m f : n <= m -> enough m f -> enough n f.
Proof. destruct f; simpl; lia. Qed.

Lemma splice_nil {A} o (l : list A) : splice o [] l = l.
Proof. unfold splice. simpl. rewrite Nat.add_0_r. apply take_drop. Qed.

Lemma splice_cons_insert {A} o (y : A) ys l :
  o < length l -> splice (S o) ys (<[o := y]> l) = splice o (y :: ys) l.
Proof.
  intros Ho. unfold splice.
  rewrite drop_insert_lt by lia.
  destruct (lookup_lt_is_Some_2 l o Ho) as [z Hz].
  rewrite (take_S_r _ _ y) by (now rewrite list_lookup_insert_eq).
  rewrite take_insert_ge by lia.
  rewrite <- app_assoc. simpl.
  replace (o + S (length ys)) with (S (o + length ys)) by lia. reflexivity.
Qed.

Lemma length_splice {A} o (ys l : list A) :
  o + length ys <= length l -> length (splice o ys l) = length l.
Proof.
  intros H. unfold splice.
  rewrite !length_app, length_take, length_drop. lia.
Qed.

Lemma splice_same {A} o (ys l : list A) :
  take (length ys) (drop o l) = ys -> splice o ys l = l.
Proof.
  intros H. unfold splice. rewrite <- H at 1.
  rewrite <- (take_drop o l) at 4. f_equal.
  rewrite <- (take_drop (length ys) (drop o l)) at 2.
  now rewrite drop_drop.
Qed.

Lemma segment_cons {A} n o (l : list A) y ys :
  take (S n) (drop o l) = y :: ys ->
  l !! o = Some y /\ take n (drop (S o) l) = ys.
Proof.
  intros H.
  destruct (drop o l) as [|z l'] eqn:E; [discriminate|].
  simpl in H. injection H as -> <-.
  split.
  - rewrite <- (Nat.add_0_r o), <- lookup_drop, E. reflexivity.
  - replace (S o) with (o + 1) by lia.
    rewrite <- drop_drop, E. reflexivity.
Qed.

Lemma insert2_insert2 {A} (a b : nat) (h : gmap nat A) A1 B1 A2 B2 :
  a <> b ->
  <[b := B2]> (<[a := A2]> (<[b := B1]> (<[a := A1]> h))) = <[b := B2]> (<[a := A2]> h).
Proof.
  intros Hab.
  rewrite (insert_insert_ne _ a b) by assumption.
  now rewrite !insert_insert_eq.
Qed.

(** ** The primitives on an explicit world *)

Lemma read_eq a o h ob f lg sl x :
  h !! a = Some sl -> sl !! o = Some (Live x) ->
  read (mkPtr (Some a) o) (mkWorld h ob f lg) = Ret x (mkWorld h ob f lg).
Proof. intros Ha Ho. unfold read, slot_at. simpl. now rewrite Ha, Ho. Qed.

Lemma poke_eq a o s e h ob f lg sl :
  h !! a = Some sl -> o < length sl ->
  poke (mkPtr (Some a) o) s e (mkWorld h ob f lg)
  = Ret tt (mkWorld (<[a := <[o := s]> sl]> h) ob f (lg ++ e)).
Proof.
  intros Ha Ho. unfold poke. simpl. rewrite Ha.
  destruct (Nat.ltb_spec o (length sl)); [reflexivity | lia].
Qed.

Lemma construct_at_eq a o x h ob f lg sl :
  h !! a = Some sl -> o < length sl ->
  construct_at (mkPtr (Some a) o) x (mkWorld h ob f lg)
  = Ret tt (mkWorld (<[a := <[o := Live x]> sl]> h) ob f
                    (lg ++ [EvConstruct (mkPtr (Some a) o)])).
Proof. intros. unfold construct_at. now apply poke_eq. Qed.

Lemma destroy_at_eq a o x h ob f lg sl :
  h !! a = Some sl -> sl !! o = Some (Live x) ->
  destroy_at (mkPtr (Some a) o) (mkWorld h ob f lg)
  = Ret tt (mkWorld (<[a := <[o := Raw]> sl]> h) ob f
                    (lg ++ [EvDestroy (mkPtr (Some a) o)])).
Proof.
  intros Ha Ho. unfold destroy_at.
  rewrite (bind_Ret _ _ _ _ _ (read_eq _ _ _ _ _ _ _ _ Ha Ho)).
  apply poke_eq; [assumption | now apply lookup_lt_Some in Ho].
Qed.

Lemma assign_at_eq a o x y h ob f lg sl :
  h !! a = Some sl -> sl !! o = Some (Live y) ->
  assign_at (mkPtr (Some a) o) x (mkWorld h ob f lg)
  = Ret tt (mkWorld (<[a := <[o := Live x]> sl]> h) ob f
                    (lg ++ [EvAssign (mkPtr (Some a) o)])).
Proof.
  intros Ha Ho. unfold assign_at.
  rewrite (bind_Ret _ _ _ _ _ (read_eq _ _ _ _ _ _ _ _ Ha Ho)).
  apply poke_eq; [assumption | now apply lookup_lt_Some in Ho].
Qed.

Lemma dup_eq x h ob f lg :
  enough 1 f -> dup x (mkWorld h ob f lg) = Ret x (mkWorld h ob (spend 1 f) lg).
Proof.
  intros H. unfold dup, set_fuse. simpl.
  destruct f as [[|k]|]; simpl in *; try lia; try reflexivity.
  now rewrite Nat.sub_0_r.
Qed.

Lemma dup_fail x h ob lg :
  dup x (mkWorld h ob (Some 0) lg) = Throw (mkWorld h ob (Some 0) lg).
Proof. reflexivity. Qed.

Lemma get_vec_eq this v h ob f lg :
  ob !! this = Some v ->
  get_vec this (mkWorld h ob f lg) = Ret v (mkWorld h ob f lg).
Proof. intros H. unfold get_vec. simpl. now rewrite H. Qed.

Lemma put_vec_eq this v h ob f lg :
  put_vec this v (mkWorld h ob f lg) = Ret tt (mkWorld h (<[this := v]> ob) f lg).
Proof. reflexivity. Qed.

Lemma get_data_eq this v h ob f lg :
  ob !! this = Some v ->
  get_data this (mkWorld h ob f lg) = Ret (data_ v) (mkWorld h ob f lg).
Proof. intros H. unfold get_data. now rewrite (bind_Ret _ _ _ _ _ (get_vec_eq _ _ _ _ _ _ H)). Qed.

Lemma get_size_eq this v h ob f lg :
  ob !! this = Some v ->
  get_size this (mkWorld h ob f lg) = Ret (size_ v) (mkWorld h ob f lg).
Proof. intros H. unfold get_size. now rewrite (bind_Ret _ _ _ _ _ (get_vec_eq _ _ _ _ _ _ H)). Qed.

Lemma set_size_eq this v n h ob f lg :
  ob !! this = Some v ->
  set_size this n (mkWorld h ob f lg)
  = Ret tt (mkWorld h (<[this := mkVector (data_ v) n]> ob) f lg).
Proof. intros H. unfold set_size. now rewrite (bind_Ret _ _ _ _ _ (get_vec_eq _ _ _ _ _ _ H)). Qed.

Lemma set_data_eq this v d h ob f lg :
  ob !! this = Some v ->
  set_data this d (mkWorld h ob f lg)
  = Ret tt (mkWorld h (<[this := mkVector d (size_ v)]> ob) f lg).
Proof. intros H. unfold set_data. now rewrite (bind_Ret _ _ _ _ _ (get_vec_eq _ _ _ _ _ _ H)). Qed.

Lemma set_buffer_eq this v b h ob f lg :
  ob !! this = Some v ->
  set_buffer this b (mkWorld h ob f lg)
  = Ret tt (mkWorld h (<[this := mkVector (mkRaw b (capacity_ (data_ v))) (size_ v)]> ob) f lg).
Proof.
  intros H. unfold set_buffer.
  rewrite (bind_Ret _ _ _ _ _ (get_data_eq _ _ _ _ _ _ H)).
  now apply set_data_eq.
Qed.

Lemma set_capacity_eq this v c h ob f lg :
  ob !! this = Some v ->
  set_capacity this c (mkWorld h ob f lg)
  = Ret tt (mkWorld h (<[this := mkVector (mkRaw (buffer_ (data_ v)) c) (size_ v)]> ob) f lg).
Proof.
  intros H. unfold set_capacity.
  rewrite (bind_Ret _ _ _ _ _ (get_data_eq _ _ _ _ _ _ H)).
  now apply set_data_eq.
Qed.

(** One step of symbolic execution: the first computation of a sequence
    returns normally, as shown by [tac]. *)
Ltac step_by tac := erewrite bind_Ret; [ | solve [tac] ]; cbv beta.

(** ** The loops *)

Lemma live_seg_of_segment o n sl zs :
  take n (drop o sl) = Live <$> zs -> length zs = n -> live_seg o n sl.
Proof.
  intros H Hn i Hi.
  destruct (lookup_lt_is_Some_2 zs i) as [x Hx]; [lia|].
  exists x.
  rewrite <- lookup_drop, <- (lookup_take_lt _ n) by lia.
  rewrite H, list_lookup_fmap, Hx. reflexivity.
Qed.

Lemma live_seg_S o n sl :
  live_seg o (S n) sl ->
  (exists x, sl !! o = Some (Live x)) /\ live_seg (S o) n (<[o := Raw]> sl).
Proof.
  intros H. split.
  - destruct (H 0) as [x Hx]; [lia|]. exists x. now rewrite Nat.add_0_r in Hx.
  - intros i Hi. destruct (H (S i)) as [x Hx]; [lia|]. exists x.
    rewrite list_lookup_insert_ne by lia.
    now replace (S o + i) with (o + S i) by lia.
Qed.

Lemma live_seg_snoc o n sl x :
  live_seg o n sl -> o + n < length sl ->
  live_seg o (S n) (<[o + n := Live x]> sl).
Proof.
  intros H Hlen i Hi.
  destruct (decide (i = n)) as [->|Hne].
  - exists x. now rewrite list_lookup_insert_eq.
  - destruct (H i) as [y Hy]; [lia|]. exists y.
    rewrite list_lookup_insert_ne by lia. assumption.
Qed.

Lemma splice_insert_inside {A} o (ys l : list A) j y :
  o <= j < o + length ys -> splice o ys (<[j := y]> l) = splice o ys l.
Proof.
  intros Hj. unfold splice.
  rewrite take_insert_ge by lia.
  rewrite drop_insert_lt by lia. reflexivity.
Qed.

Lemma destroy_n_0 p w : destroy_n p 0 w = Ret tt w.
Proof. reflexivity. Qed.

Lemma destroy_n_eq a n : forall o h ob f lg sl,
  h !! a = Some sl -> live_seg o n sl ->
  destroy_n (mkPtr (Some a) o) n (mkWorld h ob f lg)
  = Ret tt (mkWorld (<[a := splice o (replicate n Raw) sl]> h) ob f
                    (lg ++ (ev_destroy a <$> seq o n))).
Proof.
  induction n as [|n IH]; intros o h ob f lg sl Ha Hlive.
  - simpl. rewrite splice_nil, insert_id, app_nil_r by assumption. reflexivity.
  - apply live_seg_S in Hlive as [[x Hx] Hrest].
    simpl destroy_n.
    rewrite (bind_Ret _ _ _ _ _ (destroy_at_eq _ _ _ _ _ _ _ _ Ha Hx)).
    unfold ptr_add. simpl base. simpl off. rewrite Nat.add_1_r.
    rewrite (IH (S o) _ _ _ _ (<[o := Raw]> sl)); [| apply lookup_insert_eq | assumption].
    rewrite insert_insert_eq.
    rewrite splice_cons_insert by (now apply lookup_lt_Some in Hx).
    rewrite <- app_assoc. reflexivity.
Qed.

Lemma T_copy_ctor_eq a o x h ob f lg sl :
  h !! a = Some sl -> sl !! o = Some (Live x) -> enough 1 f ->
  T_copy_ctor (mkPtr (Some a) o) (mkWorld h ob f lg)
  = Ret x (mkWorld h ob (spend 1 f) lg).
Proof.
  intros Ha Ho Hf. unfold T_copy_ctor.
  rewrite (bind_Ret _ _ _ _ _ (read_eq _ _ _ _ _ _ _ _ Ha Ho)).
  now apply dup_eq.
Qed.

Lemma T_copy_ctor_fail a o x h ob lg sl :
  h !! a = Some sl -> sl !! o = Some (Live x) ->
  T_copy_ctor (mkPtr (Some a) o) (mkWorld h ob (Some 0) lg)
  = Throw (mkWorld h ob (Some 0) lg).
Proof.
  intros Ha Ho. unfold T_copy_ctor.
  rewrite (bind_Ret _ _ _ _ _ (read_eq _ _ _ _ _ _ _ _ Ha Ho)).
  reflexivity.
Qed.

(** [std::uninitialized_copy_n] between two different blocks. *)
Lemma uninitialized_copy_eq a b (Hab : a <> b) : forall xs s d done h ob f lg sla slb,
  h !! a = Some sla -> h !! b = Some slb ->
  take (length xs) (drop s sla) = Live <$> xs ->
  d + done + length xs <= length slb ->
  enough (length xs) f ->
  uninitialized_n T_copy_ctor (mkPtr (Some a) s) (length xs) (mkPtr (Some b) d) done
    (mkWorld h ob f lg)
  = Ret tt (mkWorld (<[b := splice (d + done) (Live <$> xs) slb]> h) ob
                    (spend (length xs) f)
                    (lg ++ (ev_construct b <$> seq (d + done) (length xs)))).
Proof.
  induction xs as [|x xs IH]; intros s d done h ob f lg sla slb Ha Hb Hseg Hlen Hf.
  - simpl. rewrite splice_nil, insert_id, app_nil_r, spend_0 by assumption. reflexivity.
  - simpl length in *. rewrite fmap_cons in Hseg.
    apply segment_cons in Hseg as [Hx Hseg].
    apply enough_S in Hf as [Hf1 Hf].
    simpl uninitialized_n.
    rewrite (bind_Ret _ _ _ _ _
      (unwind_Ret _ _ _ _ _ (T_copy_ctor_eq _ _ _ _ _ _ _ _ Ha Hx Hf1))).
    unfold ptr_add at 1. simpl base. simpl off.
    step_by ltac:(apply construct_at_eq; [eassumption | lia]).
    unfold ptr_add. simpl base. simpl off. rewrite Nat.add_1_r.
    rewrite (IH (S s) d (S done) _ _ _ _ sla (<[d + done := Live x]> slb)).
    + rewrite insert_insert_eq, spend_spend.
      replace (d + S done) with (S (d + done)) by lia.
      rewrite splice_cons_insert by lia.
      rewrite <- app_assoc. reflexivity.
    + now rewrite lookup_insert_ne by congruence.
    + apply lookup_insert_eq.
    + assumption.
    + rewrite length_insert. lia.
    + assumption.
Qed.

(** [std::uninitialized_copy_n] when the countdown runs out after [k]
    duplications: the [k] elements already built are destroyed again. *)
Lemma uninitialized_copy_fail a b (Hab : a <> b) : forall xs k s d done h ob lg sla slb,
  h !! a = Some sla -> h !! b = Some slb ->
  take (length xs) (drop s sla) = Live <$> xs ->
  d + done + length xs <= length slb ->
  live_seg d done slb ->
  k < length xs ->
  exists lg',
    uninitialized_n T_copy_ctor (mkPtr (Some a) s) (length xs) (mkPtr (Some b) d) done
      (mkWorld h ob (Some k) lg)
    = Throw (mkWorld (<[b := splice d (replicate (done + k) Raw) slb]> h) ob (Some 0) lg').
Proof.
  induction xs as [|x xs IH]; intros k s d done h ob lg sla slb Ha Hb Hseg Hlen Hlive Hk.
  - simpl in Hk. lia.
  - simpl length in *. rewrite fmap_cons in Hseg.
    apply segment_cons in Hseg as [Hx Hseg].
    simpl uninitialized_n.
    destruct k as [|k].
    + eexists.
      rewrite (bind_Throw _ _ _ _
        (unwind_Throw _ _ _ _ _ (T_copy_ctor_fail _ _ _ _ _ _ _ Ha Hx)
           (destroy_n_eq _ _ _ _ _ _ _ _ Hb Hlive))).
      rewrite Nat.add_0_r. reflexivity.
    + rewrite (bind_Ret _ _ _ _ _
        (unwind_Ret _ _ _ _ _
           (T_copy_ctor_eq _ _ _ _ _ (Some (S k)) _ _ Ha Hx ltac:(simpl; lia)))).
      unfold ptr_add at 1. simpl base. simpl off.
      step_by ltac:(apply construct_at_eq; [eassumption | lia]).
      unfold ptr_add. simpl base. simpl off. rewrite Nat.add_1_r.
      simpl spend. rewrite Nat.sub_0_r.
      destruct (IH k (S s) d (S done) (<[b:=<[d + done:=Live x]> slb]> h) ob
                  (lg ++ [EvConstruct (mkPtr (Some b) (d + done))])
                  sla (<[d + done := Live x]> slb)) as [lg' Heq].
      * now rewrite lookup_insert_ne by congruence.
      * apply lookup_insert_eq.
      * assumption.
      * rewrite length_insert. lia.
      * apply live_seg_snoc; [assumption | lia].
      * lia.
      * exists lg'. rewrite Heq, insert_insert_eq.
        rewrite splice_insert_inside by (rewrite length_replicate; lia).
        now replace (S done + k) with (done + S k) by lia.
Qed.

Lemma T_move_ctor_eq (Hm : nothrow_move = true) a o x h ob f lg sl :
  h !! a = Some sl -> sl !! o = Some (Live x) ->
  T_move_ctor (mkPtr (Some a) o) (mkWorld h ob f lg)
  = Ret x (mkWorld (<[a := <[o := Live (husk x)]> sl]> h) ob f lg).
Proof.
  intros Ha Ho. unfold T_move_ctor. rewrite Hm.
  rewrite (bind_Ret _ _ _ _ _ (read_eq _ _ _ _ _ _ _ _ Ha Ho)).
  step_by ltac:(apply poke_eq; [eassumption | now apply lookup_lt_Some in Ho]).
  rewrite app_nil_r. reflexivity.
Qed.

(** [std::uninitialized_move_n] between two different blocks, for an
    element type with a nothrow move. *)
Lemma uninitialized_move_eq (Hm : nothrow_move = true) a b (Hab : a <> b) :
  forall xs s d done h ob f lg sla slb,
  h !! a = Some sla -> h !! b = Some slb ->
  take (length xs) (drop s sla) = Live <$> xs ->
  d + done + length xs <= length slb ->
  uninitialized_n T_move_ctor (mkPtr (Some a) s) (length xs) (mkPtr (Some b) d) done
    (mkWorld h ob f lg)
  = Ret tt (mkWorld (<[b := splice (d + done) (Live <$> xs) slb]>
                       (<[a := splice s (Live <$> (husk <$> xs)) sla]> h)) ob f
                    (lg ++ (ev_construct b <$> seq (d + done) (length xs)))).
Proof.
  induction xs as [|x xs IH]; intros s d done h ob f lg sla slb Ha Hb Hseg Hlen.
  - simpl. rewrite !splice_nil, app_nil_r.
    rewrite (insert_id h a) by assumption.
    rewrite insert_id by assumption. reflexivity.
  - simpl length in *. rewrite fmap_cons in Hseg.
    apply segment_cons in Hseg as [Hx Hseg].
    simpl uninitialized_n.
    rewrite (bind_Ret _ _ _ _ _
      (unwind_Ret _ _ _ _ _ (T_move_ctor_eq Hm _ _ _ _ _ _ _ _ Ha Hx))).
    unfold ptr_add at 1. simpl base. simpl off.
    assert (Hs : s < length sla) by (now apply lookup_lt_Some in Hx).
    step_by ltac:(apply (construct_at_eq b (d + done) x _ _ _ _ slb);
                  [now rewrite lookup_insert_ne by congruence | lia]).
    unfold ptr_add. simpl base. simpl off. rewrite Nat.add_1_r.
    rewrite (IH (S s) d (S done) _ _ _ _ (<[s := Live (husk x)]> sla)
               (<[d + done := Live x]> slb)).
    + rewrite insert2_insert2 by assumption.
      replace (d + S done) with (S (d + done)) by lia.
      rewrite !splice_cons_insert by lia.
      rewrite <- app_assoc. reflexivity.
    + rewrite lookup_insert_ne by congruence. apply lookup_insert_eq.
    + apply lookup_insert_eq.
    + now rewrite drop_insert_lt by lia.
    + rewrite length_insert. lia.
Qed.

(** [std::uninitialized_value_construct_n]. *)
Lemma uninitialized_value_eq b : forall n p d done h ob f lg slb,
  h !! b = Some slb ->
  d + done + n <= length slb ->
  uninitialized_n (fun _ => ret dflt) p n (mkPtr (Some b) d) done (mkWorld h ob f lg)
  = Ret tt (mkWorld (<[b := splice (d + done) (replicate n (Live dflt)) slb]> h) ob f
                    (lg ++ (ev_construct b <$> seq (d + done) n))).
Proof.
  induction n as [|n IH]; intros p d done h ob f lg slb Hb Hlen.
  - simpl. rewrite splice_nil, insert_id, app_nil_r by assumption. reflexivity.
  - simpl uninitialized_n.
    step_by ltac:(reflexivity).
    unfold ptr_add at 1. simpl base. simpl off.
    step_by ltac:(apply construct_at_eq; [eassumption | lia]).
    rewrite (IH _ d (S done) _ _ _ _ (<[d + done := Live dflt]> slb)).
    + rewrite insert_insert_eq.
      replace (d + S done) with (S (d + done)) by lia.
      rewrite splice_cons_insert by lia.
      rewrite <- app_assoc. reflexivity.
    + apply lookup_insert_eq.
    + rewrite length_insert. lia.
Qed.

(** ** Allocation and relocation *)

Ltac map_ext :=
  apply map_eq; intros ?j;
  repeat first [rewrite lookup_insert | rewrite lookup_delete];
  repeat case_decide; subst; try congruence; try reflexivity.

Lemma fresh_None {A} (h : gmap nat A) : h !! fresh (dom h) = None.
Proof. apply not_elem_of_dom, is_fresh. Qed.

Lemma fresh_ne {A} (h : gmap nat A) a x : h !! a = Some x -> a <> fresh (dom h).
Proof. intros H ->. rewrite fresh_None in H. discriminate. Qed.

Lemma RawMemory_new_eq n h ob f lg :
  n <> 0 ->
  RawMemory_new n (mkWorld h ob f lg)
  = Ret (mkRaw (Some (fresh (dom h))) n)
        (mkWorld (<[fresh (dom h) := replicate n Raw]> h) ob f
                 (lg ++ [EvAlloc (fresh (dom h)) n])).
Proof.
  intros Hn. unfold RawMemory_new, bind, Allocate.
  destruct (Nat.eqb_spec n 0); [contradiction | reflexivity].
Qed.

Lemma RawMemory_new_0 w : RawMemory_new 0 w = Ret (mkRaw None 0) w.
Proof. reflexivity. Qed.

Lemma Deallocate_eq a sl h ob f lg :
  h !! a = Some sl ->
  Deallocate (Some a) (mkWorld h ob f lg)
  = Ret tt (mkWorld (delete a h) ob f (lg ++ [EvFree a])).
Proof. intros H. unfold Deallocate. simpl. now rewrite H. Qed.

Lemma segment_splice {A} o (ys l : list A) :
  o + length ys <= length l -> take (length ys) (drop o (splice o ys l)) = ys.
Proof.
  intros H. unfold splice.
  rewrite drop_app_length' by (rewrite length_take; lia).
  now rewrite take_app_length.
Qed.

Lemma live_seg_splice o n (zs : list T) l :
  length zs = n -> o + n <= length l -> live_seg o n (splice o (Live <$> zs) l).
Proof.
  intros Hn Hl. apply (live_seg_of_segment _ _ _ zs); [|assumption].
  subst n. rewrite <- (length_fmap Live zs).
  apply segment_splice. now rewrite length_fmap.
Qed.

Lemma live_seg_prefix (xs : list T) n k :
  k <= length xs -> live_seg 0 k ((Live <$> xs) ++ replicate n Raw).
Proof.
  intros Hk i Hi.
  destruct (lookup_lt_is_Some_2 xs i) as [x Hx]; [lia|].
  exists x. simpl. rewrite lookup_app_l by (rewrite length_fmap; lia).
  now rewrite list_lookup_fmap, Hx.
Qed.

Lemma segment_prefix (xs : list T) n :
  take (length xs) (drop 0 ((Live <$> xs) ++ replicate n Raw)) = Live <$> xs.
Proof. simpl. apply take_app_length'. now rewrite length_fmap. Qed.

Lemma splice_prefix (xs : list T) c :
  length xs <= c ->
  splice 0 (Live <$> xs) (replicate c Raw) = (Live <$> xs) ++ replicate (c - length xs) Raw.
Proof.
  intros H. unfold splice. simpl.
  rewrite drop_replicate, length_fmap. reflexivity.
Qed.

Lemma residue_copy : nothrow_move = false -> forall xs : list T, residue <$> xs = xs.
Proof.
  intros Hm xs. unfold residue. rewrite Hm. apply list_fmap_id.
Qed.

Lemma residue_move : nothrow_move = true -> forall xs : list T, residue <$> xs = husk <$> xs.
Proof. intros Hm xs. unfold residue. now rewrite Hm. Qed.

(** The transfer-or-duplicate choice of [Reserve] and [Emplace], between two
    different blocks. *)
Lemma relocate_eq a b (Hab : a <> b) xs s d h ob f lg sla slb :
  h !! a = Some sla -> h !! b = Some slb ->
  take (length xs) (drop s sla) = Live <$> xs ->
  d + length xs <= length slb ->
  enough (cost (length xs)) f ->
  (if nothrow_move
   then uninitialized_move_n (mkPtr (Some a) s) (length xs) (mkPtr (Some b) d)
   else uninitialized_copy_n (mkPtr (Some a) s) (length xs) (mkPtr (Some b) d))
    (mkWorld h ob f lg)
  = Ret tt (mkWorld (<[b := splice d (Live <$> xs) slb]>
                       (<[a := splice s (Live <$> (residue <$> xs)) sla]> h)) ob
                    (spend (cost (length xs)) f)
                    (lg ++ (ev_construct b <$> seq d (length xs)))).
Proof.
  intros Ha Hb Hseg Hlen Hf. unfold cost in *.
  destruct nothrow_move eqn:Hm.
  - unfold uninitialized_move_n.
    rewrite (uninitialized_move_eq Hm a b Hab xs s d 0 h ob f lg sla slb)
      by (assumption || lia).
    rewrite residue_move, spend_0, Nat.add_0_r by assumption. reflexivity.
  - unfold uninitialized_copy_n.
    rewrite (uninitialized_copy_eq a b Hab xs s d 0 h ob f lg sla slb)
      by (assumption || lia).
    rewrite residue_copy, Nat.add_0_r by assumption.
    rewrite (splice_same s) by (now rewrite length_fmap).
    rewrite (insert_id h a) by assumption. reflexivity.
Qed.

Lemma RawMemory_Swap_local_eq this v d h ob f lg :
  ob !! this = Some v ->
  RawMemory_Swap_local this d (mkWorld h ob f lg)
  = Ret (data_ v) (mkWorld h (<[this := mkVector d (size_ v)]> ob) f lg).
Proof.
  intros Hob. unfold RawMemory_Swap_local.
  step_by ltac:(apply get_data_eq; eassumption).
  step_by ltac:(apply set_data_eq; eassumption).
  reflexivity.
Qed.

(** ** [Reserve]: the equations *)

Lemma Reserve_noop this n v h ob f lg :
  ob !! this = Some v -> n <= capacity_ (data_ v) ->
  Reserve this n (mkWorld h ob f lg) = Ret tt (mkWorld h ob f lg).
Proof.
  intros Hob Hn. unfold Reserve.
  step_by ltac:(apply get_vec_eq; eassumption).
  destruct (Nat.leb_spec n (capacity_ (data_ v))); [reflexivity | lia].
Qed.

Lemma Reserve_grow this n v xs h ob f lg :
  ob !! this = Some v -> rep h v xs -> capacity_ (data_ v) < n ->
  enough (cost (length xs)) f ->
  exists lg',
    Reserve this n (mkWorld h ob f lg)
    = Ret tt (mkWorld (<[fresh (dom h) := (Live <$> xs) ++ replicate (n - length xs) Raw]>
                         (free_block (buffer_ (data_ v)) h))
                      (<[this := mkVector (mkRaw (Some (fresh (dom h))) n) (length xs)]> ob)
                      (spend (cost (length xs)) f) lg').
Proof.
  intros Hob (Hsz & Hle & Hbuf) Hn Hf.
  pose proof (fresh_None h) as Hfresh.
  set (a' := fresh (dom h)) in *.
  unfold Reserve.
  step_by ltac:(apply get_vec_eq; eassumption).
  destruct (Nat.leb_spec n (capacity_ (data_ v))); [lia|].
  step_by ltac:(apply RawMemory_new_eq; lia).
  fold a'. unfold GetAddress. simpl buffer_. rewrite Hsz.
  destruct (buffer_ (data_ v)) as [a|] eqn:Hb.
  - destruct Hbuf as [Hc Ha].
    assert (Haa' : a <> a') by (intros ->; rewrite Hfresh in Ha; discriminate).
    step_by ltac:(apply unwind_Ret, (relocate_eq a a' Haa' xs 0 0);
                  [ rewrite lookup_insert_ne by congruence; eassumption
                  | apply lookup_insert_eq
                  | apply segment_prefix
                  | rewrite length_replicate; lia
                  | assumption ]).
    step_by ltac:(apply RawMemory_Swap_local_eq; eassumption).
    rewrite Hb. rewrite Hsz.
    step_by ltac:(apply (destroy_n_eq a (length xs) 0);
                  [ rewrite lookup_insert_ne by congruence; apply lookup_insert_eq
                  | apply live_seg_splice;
                    [ now rewrite length_fmap
                    | rewrite length_app, length_fmap; lia ] ]).
    unfold RawMemory_dtor. rewrite Hb.
    erewrite Deallocate_eq by apply lookup_insert_eq.
    eexists. f_equal. f_equal.
    rewrite splice_prefix by lia. simpl free_block.
    map_ext.
  - assert (length xs = 0) by lia.
    destruct xs; [|discriminate]. simpl length.
    step_by ltac:(destruct nothrow_move; reflexivity).
    step_by ltac:(apply RawMemory_Swap_local_eq; eassumption).
    rewrite Hb, Hsz. simpl length.
    step_by ltac:(reflexivity).
    unfold RawMemory_dtor. rewrite Hb. simpl.
    eexists. unfold cost. rewrite Nat.sub_0_r.
    destruct nothrow_move; rewrite spend_0; reflexivity.
Qed.

Lemma Reserve_fail (Hm : nothrow_move = false) this n v xs k h ob lg :
  ob !! this = Some v -> rep h v xs -> capacity_ (data_ v) < n ->
  k < length xs ->
  exists lg',
    Reserve this n (mkWorld h ob (Some k) lg) = Throw (mkWorld h ob (Some 0) lg').
Proof.
  intros Hob (Hsz & Hle & Hbuf) Hn Hk.
  pose proof (fresh_None h) as Hfresh.
  set (a' := fresh (dom h)) in *.
  unfold Reserve. rewrite Hm.
  step_by ltac:(apply get_vec_eq; eassumption).
  destruct (Nat.leb_spec n (capacity_ (data_ v))); [lia|].
  step_by ltac:(apply RawMemory_new_eq; lia).
  fold a'. unfold GetAddress. simpl buffer_. rewrite Hsz.
  destruct (buffer_ (data_ v)) as [a|] eqn:Hb.
  - destruct Hbuf as [Hc Ha].
    assert (Haa' : a <> a') by (intros ->; rewrite Hfresh in Ha; discriminate).
    destruct (uninitialized_copy_fail a a' Haa' xs k 0 0 0
                (<[a' := replicate n Raw]> h) ob (lg ++ [EvAlloc a' n])
                ((Live <$> xs) ++ replicate (capacity_ (data_ v) - length xs) Raw)
                (replicate n Raw)) as [lg1 Heq].
    + rewrite lookup_insert_ne by congruence; eassumption.
    + apply lookup_insert_eq.
    + apply segment_prefix.
    + rewrite length_replicate; lia.
    + intros i Hi; lia.
    + assumption.
    + eexists.
      erewrite bind_Throw; [reflexivity|].
      eapply unwind_Throw; [exact Heq|].
      unfold RawMemory_dtor. simpl buffer_.
      erewrite Deallocate_eq by apply lookup_insert_eq.
      rewrite insert_insert_eq, delete_insert_id by assumption.
      reflexivity.
  - assert (length xs = 0) by lia. lia.
Qed.

(** ** From the representation to what a caller observes *)

Lemma size_of_eq h ob f lg this v :
  ob !! this = Some v -> size_of (mkWorld h ob f lg) this = Some (size_ v).
Proof.
  intros Hob. unfold size_of, result_of, Size.
  now rewrite (get_size_eq _ _ _ _ _ _ Hob).
Qed.

Lemma capacity_of_eq h ob f lg this v :
  ob !! this = Some v -> capacity_of (mkWorld h ob f lg) this = Some (capacity_ (data_ v)).
Proof.
  intros Hob. unfold capacity_of, result_of, Capacity.
  erewrite bind_Ret by (apply get_data_eq; eassumption).
  reflexivity.
Qed.

Lemma elem_of_vec_eq h ob f lg this v xs i :
  ob !! this = Some v -> rep h v xs -> i < length xs ->
  elem_of_vec (mkWorld h ob f lg) this i = xs !! i.
Proof.
  intros Hob (Hsz & Hle & Hbuf) Hi.
  destruct (lookup_lt_is_Some_2 xs i Hi) as [x Hx].
  unfold elem_of_vec, result_of, Vector_at.
  erewrite bind_Ret; cycle 1.
  { erewrite bind_Ret by (apply get_vec_eq; eassumption).
    destruct (Nat.ltb_spec i (size_ v)); [|lia].
    unfold RawMemory_at.
    destruct (Nat.ltb_spec i (capacity_ (data_ v))); [|lia].
    reflexivity. }
  destruct (buffer_ (data_ v)) as [a|]; [|lia].
  destruct Hbuf as [_ Ha].
  erewrite read_eq; [now rewrite Hx | eassumption |].
  rewrite lookup_app_l by (rewrite length_fmap; lia).
  now rewrite list_lookup_fmap, Hx.
Qed.

Lemma elems_of_eq h ob f lg this v xs :
  ob !! this = Some v -> rep h v xs ->
  elems_of (mkWorld h ob f lg) this = Some xs.
Proof.
  intros Hob Hrep. unfold elems_of.
  rewrite (size_of_eq _ _ _ _ _ _ Hob).
  destruct Hrep as (Hsz & Hrest). rewrite Hsz.
  apply mapM_Some_2, Forall2_same_length_lookup_2.
  - now rewrite length_seq.
  - intros i j x Hj Hx.
    apply lookup_seq in Hj as [-> Hi]. simpl.
    rewrite (elem_of_vec_eq _ _ _ _ _ v xs); [assumption | assumption | | assumption].
    split; [assumption | exact Hrest].
Qed.

Lemma holds_size w this xs c : holds w this xs c -> size_of w this = Some (length xs).
Proof.
  destruct w as [h ob f lg]. intros (v & Hob & Hc & Hrep). simpl in *.
  rewrite (size_of_eq _ _ _ _ _ _ Hob). destruct Hrep as [-> _]. reflexivity.
Qed.

Lemma holds_capacity w this xs c : holds w this xs c -> capacity_of w this = Some c.
Proof.
  destruct w as [h ob f lg]. intros (v & Hob & Hc & Hrep). simpl in *.
  now rewrite (capacity_of_eq _ _ _ _ _ _ Hob), Hc.
Qed.

Lemma holds_elems w this xs c : holds w this xs c -> elems_of w this = Some xs.
Proof.
  destruct w as [h ob f lg]. intros (v & Hob & Hc & Hrep). simpl in *.
  now apply (elems_of_eq _ _ _ _ _ v).
Qed.

Lemma affordable_enough n f : affordable n f = true -> enough n f.
Proof. destruct f; simpl; [|trivial]. now intros H%Nat.leb_le. Qed.

Lemma affordable_false n f : affordable n f = false -> exists k, f = Some k /\ k < n.
Proof.
  destruct f as [k|]; simpl; [|discriminate].
  intros H%Nat.leb_gt. now exists k.
Qed.

Lemma capacity_of_inv w this c :
  capacity_of w this = Some c ->
  exists v, objs w !! this = Some v /\ capacity_ (data_ v) = c.
Proof.
  unfold capacity_of, result_of, Capacity, get_data, get_vec, bind, ret.
  destruct (objs w !! this) as [v|]; [|discriminate].
  intros [= <-]. now exists v.
Qed.

(** ** [Reserve]: what a caller observes *)

(** C9.  For a vector of capacity [c] and a request [n <= c], [Reserve(n)]
    returns without changing anything: the world after the call is the world
    before it, so capacity, size and every element are the same. *)
Theorem Reserve_within_capacity_is_noop (w : World) (this : ref) (c n : nat) :
  capacity_of w this = Some c -> n <= c -> Reserve this n w = Ret tt w.
Proof.
  intros (v & Hob & <-)%capacity_of_inv Hn.
  destruct w as [h ob f lg]. simpl in Hob.
  now apply (Reserve_noop _ _ v).
Qed.


(** ** Moves and swaps of whole vectors *)

Ltac lookup_tac :=
  repeat first [ rewrite lookup_insert_eq
               | rewrite lookup_insert_ne by congruence
               | rewrite lookup_delete_eq
               | rewrite lookup_delete_ne by congruence ];
  first [ eassumption | reflexivity ].

Lemma new_obj_eq this v h ob f lg :
  ob !! this = None ->
  new_obj this v (mkWorld h ob f lg) = Ret tt (mkWorld h (<[this := v]> ob) f lg).
Proof. intros H. unfold new_obj. simpl. now rewrite H. Qed.

Lemma Vector_eta (v : Vector) :
  mkVector (mkRaw (buffer_ (data_ v)) (capacity_ (data_ v))) (size_ v) = v.
Proof. now destruct v as [[? ?] ?]. Qed.

Lemma move_assign_eq this rhs vt vr h ob f lg :
  this <> rhs -> ob !! this = Some vt -> ob !! rhs = Some vr ->
  move_assign this rhs (mkWorld h ob f lg)
  = Ret tt (mkWorld h (<[rhs := mkVector (mkRaw None 0) 0]> (<[this := vr]> ob)) f lg).
Proof.
  intros Hne Ht Hr. unfold move_assign. apply noexcept_Ret.
  destruct vr as [[bufr capr] szr].
  erewrite bind_Ret; cycle 1.
  { unfold RawMemory_move_assign.
    destruct (Nat.eqb_spec this rhs); [contradiction|]. cbn [negb].
    step_by ltac:(apply get_data_eq; eassumption).
    step_by ltac:(apply set_buffer_eq; eassumption).
    step_by ltac:(apply set_capacity_eq; lookup_tac).
    step_by ltac:(apply set_buffer_eq; lookup_tac).
    apply set_capacity_eq; lookup_tac. }
  cbv beta. simpl.
  step_by ltac:(apply get_size_eq; lookup_tac).
  step_by ltac:(apply set_size_eq; lookup_tac).
  erewrite set_size_eq by lookup_tac. simpl.
  f_equal. f_equal. map_ext.
Qed.

Lemma move_assign_self this v h ob f lg :
  ob !! this = Some v ->
  move_assign this this (mkWorld h ob f lg)
  = Ret tt (mkWorld h (<[this := mkVector (data_ v) 0]> ob) f lg).
Proof.
  intros Hob. unfold move_assign. apply noexcept_Ret.
  erewrite bind_Ret; cycle 1.
  { unfold RawMemory_move_assign. rewrite Nat.eqb_refl. reflexivity. }
  cbv beta.
  step_by ltac:(apply get_size_eq; eassumption).
  step_by ltac:(apply set_size_eq; eassumption).
  erewrite set_size_eq by lookup_tac. simpl.
  now rewrite insert_insert_eq.
Qed.

Lemma Vector_move_ctor_eq this other vo h ob f lg :
  ob !! this = None -> ob !! other = Some vo ->
  Vector_move_ctor this other (mkWorld h ob f lg)
  = Ret tt (mkWorld h (<[other := mkVector (mkRaw None 0) 0]> (<[this := vo]> ob)) f lg).
Proof.
  intros Ht Ho. unfold Vector_move_ctor. apply noexcept_Ret.
  assert (this <> other) by congruence.
  step_by ltac:(apply get_vec_eq; eassumption).
  step_by ltac:(apply new_obj_eq; eassumption).
  step_by ltac:(apply set_buffer_eq; lookup_tac).
  step_by ltac:(apply set_capacity_eq; lookup_tac).
  erewrite set_size_eq by lookup_tac. simpl.
  rewrite Vector_eta.
  f_equal. f_equal. map_ext.
Qed.

Lemma Swap_eq this other vt vo h ob f lg :
  ob !! this = Some vt -> ob !! other = Some vo ->
  Swap this other (mkWorld h ob f lg)
  = Ret tt (mkWorld h (<[other := vt]> (<[this := vo]> ob)) f lg).
Proof.
  intros Ht Ho. unfold Swap. apply noexcept_Ret.
  destruct (decide (this = other)) as [->|Hne].
  - assert (vo = vt) by congruence. subst vo.
    erewrite bind_Ret; cycle 1.
    { unfold RawMemory_Swap.
      step_by ltac:(apply get_data_eq; eassumption).
      step_by ltac:(apply get_data_eq; eassumption).
      step_by ltac:(apply set_buffer_eq; eassumption).
      step_by ltac:(apply set_buffer_eq; lookup_tac).
      step_by ltac:(apply get_data_eq; lookup_tac).
      step_by ltac:(apply get_data_eq; lookup_tac).
      step_by ltac:(apply set_capacity_eq; lookup_tac).
      apply set_capacity_eq; lookup_tac. }
    cbv beta. simpl.
    step_by ltac:(apply get_size_eq; lookup_tac).
    step_by ltac:(apply get_size_eq; lookup_tac).
    step_by ltac:(apply set_size_eq; lookup_tac).
    erewrite set_size_eq by lookup_tac. simpl.
    rewrite Vector_eta.
    f_equal. f_equal. map_ext.
  - erewrite bind_Ret; cycle 1.
    { unfold RawMemory_Swap.
      step_by ltac:(apply get_data_eq; eassumption).
      step_by ltac:(apply get_data_eq; eassumption).
      step_by ltac:(apply set_buffer_eq; eassumption).
      step_by ltac:(apply set_buffer_eq; lookup_tac).
      step_by ltac:(apply get_data_eq; lookup_tac).
      step_by ltac:(apply get_data_eq; lookup_tac).
      step_by ltac:(apply set_capacity_eq; lookup_tac).
      apply set_capacity_eq; lookup_tac. }
    cbv beta. simpl.
    step_by ltac:(apply get_size_eq; lookup_tac).
    step_by ltac:(apply get_size_eq; lookup_tac).
    step_by ltac:(apply set_size_eq; lookup_tac).
    erewrite set_size_eq by lookup_tac. simpl.
    rewrite !Vector_eta.
    f_equal. f_equal. map_ext.
Qed.

Lemma holds_frame h h' ob' f' lg' this v xs :
  rep h v xs ->
  ob' !! this = Some v ->
  (forall a, buffer_ (data_ v) = Some a -> h' !! a = h !! a) ->
  holds (mkWorld h' ob' f' lg') this xs (capacity_ (data_ v)).
Proof.
  intros (Hsz & Hle & Hbuf) Hob' Hh.
  exists v. split; [assumption|]. split; [reflexivity|].
  split; [assumption|]. split; [assumption|]. simpl.
  destruct (buffer_ (data_ v)) as [a|]; [|assumption].
  rewrite (Hh a eq_refl). assumption.
Qed.

Lemma holds_empty h ob f lg this :
  ob !! this = Some (mkVector (mkRaw None 0) 0) ->
  holds (mkWorld h ob f lg) this [] 0.
Proof.
  intros Hob. eexists. split; [exact Hob|]. repeat split; simpl; lia.
Qed.

(** C7.  Transferring ownership from a vector [A] with elements [xs] and
    capacity [c] to another object [B], by move construction when [B] is a
    new object and by move assignment when [B] is an existing vector, leaves
    [A] with size 0 and gives [B] exactly the elements [xs] and the capacity
    [c]. *)
Theorem move_transfers_ownership (w : World) (A B : ref) (xs : list T) (c : nat) :
  holds w A xs c -> A <> B ->
  exists w',
    match objs w !! B with
    | None => Vector_move_ctor B A w
    | Some _ => move_assign B A w
    end = Ret tt w' /\
    size_of w' A = Some 0 /\
    holds w' A [] 0 /\
    holds w' B xs c /\
    elems_of w' B = Some xs /\
    size_of w' B = Some (length xs) /\
    capacity_of w' B = Some c.
Proof.
  intros (v & Hob & Hc & Hrep) Hne.
  destruct w as [h ob f lg]. simpl in *. subst c.
  assert (HA : holds (mkWorld h (<[A := mkVector (mkRaw None 0) 0]> (<[B := v]> ob)) f lg) A [] 0).
  { apply holds_empty. apply lookup_insert_eq. }
  assert (HB : holds (mkWorld h (<[A := mkVector (mkRaw None 0) 0]> (<[B := v]> ob)) f lg)
                     B xs (capacity_ (data_ v))).
  { apply (holds_frame h _ _ _ _ _ v xs Hrep).
    - rewrite lookup_insert_ne by congruence. apply lookup_insert_eq.
    - reflexivity. }
  eexists. split.
  - destruct (ob !! B) as [vb|] eqn:HobB.
    + apply (move_assign_eq B A vb v); [congruence | assumption | assumption].
    + apply (Vector_move_ctor_eq B A v); assumption.
  - split; [exact (holds_size _ _ _ _ HA)|].
    split; [exact HA|]. split; [exact HB|].
    split; [exact (holds_elems _ _ _ _ HB)|].
    split; [exact (holds_size _ _ _ _ HB) | exact (holds_capacity _ _ _ _ HB)].
Qed.

(** C10.  Move-assigning a vector to itself leaves it with size 0 and its
    capacity unchanged; its block is untouched, but no element can be
    reached through the vector any more. *)
Theorem self_move_assign_empties (w : World) (this : ref) (xs : list T) (c : nat) :
  holds w this xs c ->
  exists w',
    move_assign this this w = Ret tt w' /\
    size_of w' this = Some 0 /\
    capacity_of w' this = Some c /\
    elems_of w' this = Some [] /\
    (forall i, elem_of_vec w' this i = None) /\
    heap w' = heap w.
Proof.
  intros (v & Hob & Hc & Hrep).
  destruct w as [h ob f lg]. simpl in *. subst c.
  eexists. split; [apply (move_assign_self this v); assumption|].
  assert (Hob' : (<[this := mkVector (data_ v) 0]> ob) !! this = Some (mkVector (data_ v) 0))
    by apply lookup_insert_eq.
  split; [now rewrite (size_of_eq _ _ _ _ _ _ Hob')|].
  split; [now rewrite (capacity_of_eq _ _ _ _ _ _ Hob')|].
  split.
  { unfold elems_of. now rewrite (size_of_eq _ _ _ _ _ _ Hob'). }
  split; [|reflexivity].
  intros i. unfold elem_of_vec, result_of, Vector_at.
  unfold bind at 1. unfold bind at 1.
  rewrite (get_vec_eq _ _ _ _ _ _ Hob'). reflexivity.
Qed.

(** ** Copy construction, destruction and the growing copy assignment *)

Lemma rep_frame h h' v xs :
  rep h v xs ->
  (forall a, buffer_ (data_ v) = Some a -> h' !! a = h !! a) ->
  rep h' v xs.
Proof.
  intros (Hsz & Hle & Hbuf) Hh. split; [assumption|]. split; [assumption|].
  destruct (buffer_ (data_ v)) as [a|]; [|assumption].
  now rewrite (Hh a eq_refl).
Qed.

Lemma rep_fresh h v xs a : rep h v xs -> buffer_ (data_ v) = Some a -> a <> fresh (dom h).
Proof.
  intros (_ & _ & Hbuf) Hb. rewrite Hb in Hbuf. destruct Hbuf as [_ Ha].
  now apply fresh_ne in Ha.
Qed.

Lemma del_obj_eq this h ob f lg :
  del_obj this (mkWorld h ob f lg) = Ret tt (mkWorld h (delete this ob) f lg).
Proof. reflexivity. Qed.

Lemma Vector_copy_ctor_eq this other vo ys h ob f lg :
  ob !! this = None -> ob !! other = Some vo -> rep h vo ys ->
  enough (length ys) f ->
  exists lg',
    Vector_copy_ctor this other (mkWorld h ob f lg)
    = Ret tt (mkWorld (with_block h (length ys) (Live <$> ys))
                      (<[this := mkVector (block_for h (length ys)) (length ys)]> ob)
                      (spend (length ys) f) lg').
Proof.
  intros Ht Ho Hrep Hf.
  pose proof Hrep as (Hsz & Hle & Hbuf).
  unfold Vector_copy_ctor, block_for, with_block.
  step_by ltac:(apply get_vec_eq; eassumption).
  rewrite Hsz.
  destruct ys as [|y ys].
  - simpl length.
    step_by ltac:(apply RawMemory_new_0).
    step_by ltac:(apply new_obj_eq; eassumption).
    eexists. simpl. rewrite spend_0. reflexivity.
  - remember (y :: ys) as zs eqn:Hzs.
    assert (Hpos : length zs <> 0) by (subst zs; simpl; lia).
    destruct (Nat.eqb_spec (length zs) 0); [contradiction|].
    step_by ltac:(apply RawMemory_new_eq; assumption).
    step_by ltac:(apply new_obj_eq; eassumption).
    destruct (buffer_ (data_ vo)) as [a|] eqn:Hb; [|lia].
    destruct Hbuf as [Hc Ha].
    assert (Hne : a <> fresh (dom h)) by (now apply fresh_ne in Ha).
    unfold GetAddress. rewrite Hb. simpl buffer_.
    unfold uninitialized_copy_n.
    erewrite unwind_Ret; cycle 1.
    { eapply (uninitialized_copy_eq a (fresh (dom h)) Hne zs 0 0 0).
      - rewrite lookup_insert_ne by congruence. eassumption.
      - apply lookup_insert_eq.
      - apply segment_prefix.
      - rewrite length_replicate. lia.
      - assumption. }
    eexists. rewrite insert_insert_eq. simpl "+".
    rewrite splice_prefix by lia. rewrite Nat.sub_diag. simpl replicate.
    rewrite app_nil_r. reflexivity.
Qed.

Lemma Vector_copy_ctor_fail this other vo ys k h ob lg :
  ob !! this = None -> ob !! other = Some vo -> rep h vo ys ->
  k < length ys ->
  exists lg',
    Vector_copy_ctor this other (mkWorld h ob (Some k) lg)
    = Throw (mkWorld h ob (Some 0) lg').
Proof.
  intros Ht Ho Hrep Hk.
  pose proof Hrep as (Hsz & Hle & Hbuf).
  unfold Vector_copy_ctor.
  step_by ltac:(apply get_vec_eq; eassumption).
  rewrite Hsz.
  step_by ltac:(apply RawMemory_new_eq; lia).
  step_by ltac:(apply new_obj_eq; eassumption).
  destruct (buffer_ (data_ vo)) as [a|] eqn:Hb; [|lia].
  destruct Hbuf as [Hc Ha].
  assert (Hne : a <> fresh (dom h)) by (now apply fresh_ne in Ha).
  unfold GetAddress. rewrite Hb. simpl buffer_.
  unfold uninitialized_copy_n.
  destruct (uninitialized_copy_fail a (fresh (dom h)) Hne ys k 0 0 0
              (<[fresh (dom h) := replicate (length ys) Raw]> h)
              (<[this := mkVector (mkRaw (Some (fresh (dom h))) (length ys)) (length ys)]> ob)
              (lg ++ [EvAlloc (fresh (dom h)) (length ys)])
              ((Live <$> ys) ++ replicate (capacity_ (data_ vo) - length ys) Raw)
              (replicate (length ys) Raw)) as [lg1 Heq].
  - rewrite lookup_insert_ne by congruence. eassumption.
  - apply lookup_insert_eq.
  - apply segment_prefix.
  - rewrite length_replicate. lia.
  - intros i Hi. lia.
  - assumption.
  - eexists. eapply unwind_Throw; [exact Heq|].
    unfold RawMemory_dtor. simpl buffer_.
    step_by ltac:(eapply Deallocate_eq; apply lookup_insert_eq).
    rewrite del_obj_eq.
    rewrite insert_insert_eq, delete_insert_id by apply fresh_None.
    rewrite delete_insert_id by assumption.
    reflexivity.
Qed.

Lemma Vector_dtor_eq this v xs h ob f lg :
  ob !! this = Some v -> rep h v xs ->
  exists lg',
    Vector_dtor this (mkWorld h ob f lg)
    = Ret tt (mkWorld (free_block (buffer_ (data_ v)) h) (delete this ob) f lg').
Proof.
  intros Hob (Hsz & Hle & Hbuf).
  unfold Vector_dtor.
  step_by ltac:(apply get_vec_eq; eassumption).
  unfold GetAddress, RawMemory_dtor. rewrite Hsz.
  destruct (buffer_ (data_ v)) as [a|] eqn:Hb.
  - destruct Hbuf as [Hc Ha].
    step_by ltac:(apply (destroy_n_eq a (length xs) 0);
                  [eassumption | apply live_seg_prefix; lia]).
    step_by ltac:(eapply Deallocate_eq; apply lookup_insert_eq).
    rewrite del_obj_eq. eexists. simpl. now rewrite delete_insert_eq.
  - assert (length xs = 0) by lia.
    destruct xs; [|discriminate]. simpl length.
    step_by ltac:(reflexivity).
    step_by ltac:(reflexivity).
    rewrite del_obj_eq. eexists. reflexivity.
Qed.

Lemma local_obj_eq h ob f lg :
  local_obj (mkWorld h ob f lg) = Ret (fresh (dom ob)) (mkWorld h ob f lg).
Proof. reflexivity. Qed.

Lemma with_block_other h n sl a x : h !! a = Some x -> with_block h n sl !! a = Some x.
Proof.
  intros Ha. unfold with_block. destruct (n =? 0); [assumption|].
  rewrite lookup_insert_ne; [assumption|].
  intros <-. rewrite fresh_None in Ha. discriminate.
Qed.

Lemma rep_block_for h ys :
  rep (with_block h (length ys) (Live <$> ys))
      (mkVector (block_for h (length ys)) (length ys)) ys.
Proof.
  unfold rep, block_for, with_block. simpl.
  split; [reflexivity|]. split; [lia|].
  destruct (Nat.eqb_spec (length ys) 0) as [E|E]; [assumption|].
  split; [lia|].
  rewrite lookup_insert_eq, Nat.sub_diag. simpl. now rewrite app_nil_r.
Qed.

Lemma copy_assign_grow this rhs vt vr xs ys h ob f lg :
  this <> rhs ->
  ob !! this = Some vt -> ob !! rhs = Some vr ->
  rep h vt xs -> rep h vr ys ->
  capacity_ (data_ vt) < length ys ->
  enough (length ys) f ->
  exists lg',
    copy_assign this rhs (mkWorld h ob f lg)
    = Ret tt (mkWorld (free_block (buffer_ (data_ vt)) (with_block h (length ys) (Live <$> ys)))
                      (<[this := mkVector (block_for h (length ys)) (length ys)]> ob)
                      (spend (length ys) f) lg').
Proof.
  intros Hne Ht Hr Hrt Hrr Hcap Hf.
  pose proof Hrr as (Hsz & _).
  unfold copy_assign.
  destruct (Nat.eqb_spec this rhs); [contradiction|]. cbn [negb].
  step_by ltac:(apply get_vec_eq; eassumption).
  step_by ltac:(apply get_vec_eq; eassumption).
  rewrite Hsz.
  destruct (Nat.ltb_spec (capacity_ (data_ vt)) (length ys)); [|lia].
  step_by ltac:(apply local_obj_eq).
  pose proof (fresh_None ob) as Hrc.
  set (rc := fresh (dom ob)) in *.
  destruct (Vector_copy_ctor_eq rc rhs vr ys h ob f lg Hrc Hr Hrr Hf) as [lg1 Heq1].
  step_by ltac:(exact Heq1).
  assert (Hthis : rc <> this) by (intros E; rewrite E in Hrc; congruence).
  step_by ltac:(apply Swap_eq; lookup_tac).
  assert (Hrt' : rep (with_block h (length ys) (Live <$> ys)) vt xs).
  { apply (rep_frame h); [assumption|].
    intros a Ha. destruct Hrt as (_ & _ & Hbuf). rewrite Ha in Hbuf.
    destruct Hbuf as [_ Hbuf]. rewrite Hbuf. now apply with_block_other. }
  destruct (Vector_dtor_eq rc vt xs
              (with_block h (length ys) (Live <$> ys))
              (<[rc := vt]> (<[this := mkVector (block_for h (length ys)) (length ys)]>
                 (<[rc := mkVector (block_for h (length ys)) (length ys)]> ob)))
              (spend (length ys) f) lg1 ltac:(apply lookup_insert_eq) Hrt') as [lg2 Heq2].
  rewrite Heq2. eexists. f_equal. f_equal.
  apply map_eq. intros j.
  repeat first [rewrite lookup_insert | rewrite lookup_delete];
    repeat case_decide; subst; try congruence; try reflexivity.
Qed.

Lemma copy_assign_grow_fail this rhs vt vr ys k h ob lg :
  this <> rhs ->
  ob !! this = Some vt -> ob !! rhs = Some vr ->
  rep h vr ys ->
  capacity_ (data_ vt) < length ys ->
  k < length ys ->
  exists lg',
    copy_assign this rhs (mkWorld h ob (Some k) lg) = Throw (mkWorld h ob (Some 0) lg').
Proof.
  intros Hne Ht Hr Hrr Hcap Hk.
  pose proof Hrr as (Hsz & _).
  unfold copy_assign.
  destruct (Nat.eqb_spec this rhs); [contradiction|]. cbn [negb].
  step_by ltac:(apply get_vec_eq; eassumption).
  step_by ltac:(apply get_vec_eq; eassumption).
  rewrite Hsz.
  destruct (Nat.ltb_spec (capacity_ (data_ vt)) (length ys)); [|lia].
  step_by ltac:(apply local_obj_eq).
  pose proof (fresh_None ob) as Hrc.
  destruct (Vector_copy_ctor_fail (fresh (dom ob)) rhs vr ys k h ob lg Hrc Hr Hrr Hk)
    as [lg1 Heq1].
  exists lg1. now apply bind_Throw.
Qed.

Lemma free_block_other b h a x :
  h !! a = Some x -> b <> Some a -> free_block b h !! a = Some x.
Proof.
  intros Ha Hb. destruct b as [a'|]; simpl; [|assumption].
  rewrite lookup_delete_ne; [assumption | congruence].
Qed.

(** C8.  For two distinct vectors owning different blocks, with
    [rhs.Size() > this.Capacity()]: when the duplication of every element of
    [rhs] succeeds, copy assignment returns and the assigned-to vector holds
    exactly the elements of [rhs], in the block of the temporary duplicate
    (its capacity is [rhs.Size()]), while [rhs] is unchanged; when a
    duplication fails, the exception propagates and the heap and both
    objects are exactly as before, so the assigned-to vector has the same
    size, capacity and elements. *)
Theorem copy_assign_grow_strong_guarantee (w : World) (this rhs : ref)
    (xs ys : list T) (c cr : nat) :
  holds w this xs c -> holds w rhs ys cr ->
  this <> rhs -> apart w this rhs -> c < length ys ->
  if affordable (length ys) (fuse w) then
    exists w',
      copy_assign this rhs w = Ret tt w' /\
      holds w' this ys (length ys) /\
      holds w' rhs ys cr /\
      elems_of w' this = Some ys /\
      elems_of w' rhs = Some ys /\
      size_of w' this = Some (length ys) /\
      capacity_of w' this = Some (length ys)
  else
    exists w',
      copy_assign this rhs w = Throw w' /\
      heap w' = heap w /\ objs w' = objs w /\
      holds w' this xs c /\
      size_of w' this = Some (length xs) /\
      capacity_of w' this = Some c /\
      elems_of w' this = Some xs.
Proof.
  intros (vt & Ht & Hc & Hrt) (vr & Hr & Hcr & Hrr) Hne Hapart Hlt.
  destruct w as [h ob f lg]. simpl in *. subst c cr.
  destruct (affordable (length ys) f) eqn:Haff.
  - apply affordable_enough in Haff.
    destruct (copy_assign_grow this rhs vt vr xs ys h ob f lg Hne Ht Hr Hrt Hrr Hlt Haff)
      as [lg' Heq].
    eexists. split; [exact Heq|].
    assert (H1 : holds (mkWorld (free_block (buffer_ (data_ vt))
                                   (with_block h (length ys) (Live <$> ys)))
                                (<[this := mkVector (block_for h (length ys)) (length ys)]> ob)
                                (spend (length ys) f) lg') this ys (length ys)).
    { eexists. split; [apply lookup_insert_eq|]. split; [reflexivity|].
      apply (rep_frame (with_block h (length ys) (Live <$> ys))); [apply rep_block_for|].
      simpl. intros a Ha. unfold block_for in Ha. simpl in Ha.
      destruct (length ys =? 0); [discriminate|]. injection Ha as <-.
      destruct (buffer_ (data_ vt)) as [a|] eqn:Hb; [|reflexivity].
      simpl. rewrite lookup_delete_ne; [reflexivity|].
      now apply (rep_fresh h vt xs). }
    assert (H2 : holds (mkWorld (free_block (buffer_ (data_ vt))
                                   (with_block h (length ys) (Live <$> ys)))
                                (<[this := mkVector (block_for h (length ys)) (length ys)]> ob)
                                (spend (length ys) f) lg') rhs ys (capacity_ (data_ vr))).
    { apply (holds_frame h _ _ _ _ _ vr ys Hrr).
      - now rewrite lookup_insert_ne by congruence.
      - intros a Ha. destruct Hrr as (_ & _ & Hbuf). rewrite Ha in Hbuf.
        destruct Hbuf as [_ Hbuf]. rewrite Hbuf.
        apply free_block_other; [now apply with_block_other|].
        intros Hb. apply (Hapart a).
        + unfold buffer_of. simpl. now rewrite Ht.
        + unfold buffer_of. simpl. now rewrite Hr. }
    split; [exact H1|]. split; [exact H2|].
    split; [exact (holds_elems _ _ _ _ H1)|].
    split; [exact (holds_elems _ _ _ _ H2)|].
    split; [exact (holds_size _ _ _ _ H1) | exact (holds_capacity _ _ _ _ H1)].
  - apply affordable_false in Haff as (k & -> & Hk).
    destruct (copy_assign_grow_fail this rhs vt vr ys k h ob lg Hne Ht Hr Hrr Hlt Hk)
      as [lg' Heq].
    eexists. split; [exact Heq|].
    assert (Hh : holds (mkWorld h ob (Some 0) lg') this xs (capacity_ (data_ vt))).
    { exists vt. auto. }
    split; [reflexivity|]. split; [reflexivity|]. split; [exact Hh|].
    split; [exact (holds_size _ _ _ _ Hh)|].
    split; [exact (holds_capacity _ _ _ _ Hh) | exact (holds_elems _ _ _ _ Hh)].
Qed.

(** ** Shifts inside one block *)

Lemma insert_middle {A} (l1 l2 : list A) x y k :
  length l1 = k -> <[k := y]> (l1 ++ x :: l2) = l1 ++ y :: l2.
Proof.
  intros <-. rewrite insert_app_r_alt by lia.
  now rewrite Nat.sub_diag.
Qed.

Lemma lookup_middle {A} (l1 l2 : list A) x k :
  length l1 = k -> (l1 ++ x :: l2) !! k = Some x.
Proof. intros <-. apply list_lookup_middle. reflexivity. Qed.

Lemma T_move_assign_eq a i j x y h ob lg sl :
  h !! a = Some sl -> sl !! j = Some (Live x) -> sl !! i = Some (Live y) -> i <> j ->
  T_move_assign (mkPtr (Some a) i) (mkPtr (Some a) j) (mkWorld h ob None lg)
  = Ret tt (mkWorld (<[a := <[i := Live x]> (<[j := Live (residue x)]> sl)]> h) ob None
                    (lg ++ [ev_assign a i])).
Proof.
  intros Ha Hj Hi Hij. unfold T_move_assign, residue.
  destruct nothrow_move.
  - step_by ltac:(eapply read_eq; eassumption).
    step_by ltac:(eapply poke_eq; [eassumption | now apply lookup_lt_Some in Hj]).
    erewrite assign_at_eq;
      [ | apply lookup_insert_eq | rewrite list_lookup_insert_ne by congruence; eassumption ].
    now rewrite insert_insert_eq, app_nil_r.
  - unfold T_copy_assign.
    step_by ltac:(eapply read_eq; eassumption).
    step_by ltac:(apply dup_eq; exact I).
    erewrite assign_at_eq by eassumption.
    now rewrite (list_insert_id sl j).
Qed.

Lemma T_move_ctor_gen a o x h ob lg sl :
  h !! a = Some sl -> sl !! o = Some (Live x) ->
  T_move_ctor (mkPtr (Some a) o) (mkWorld h ob None lg)
  = Ret x (mkWorld (<[a := <[o := Live (residue x)]> sl]> h) ob None lg).
Proof.
  intros Ha Ho. unfold residue. destruct nothrow_move eqn:Hm.
  - now apply T_move_ctor_eq.
  - unfold T_move_ctor. rewrite Hm.
    erewrite T_copy_ctor_eq; [ | eassumption | eassumption | exact I ].
    now rewrite list_insert_id, insert_id.
Qed.

Lemma T_assign_temp_eq a o x y h ob lg sl :
  h !! a = Some sl -> sl !! o = Some (Live y) ->
  T_assign_temp (mkPtr (Some a) o) x (mkWorld h ob None lg)
  = Ret tt (mkWorld (<[a := <[o := Live x]> sl]> h) ob None (lg ++ [ev_assign a o])).
Proof.
  intros Ha Ho. unfold T_assign_temp.
  step_by ltac:(destruct nothrow_move; reflexivity).
  now apply (assign_at_eq _ _ _ y).
Qed.

Lemma T_construct_eq args h ob lg :
  T_construct args (mkWorld h ob None lg) = Ret (arg_value args) (mkWorld h ob None lg).
Proof. destruct args; simpl; destruct nothrow_move; reflexivity. Qed.

Lemma fshift_shape x ys : exists z, fshift x ys = (Live <$> ys) ++ [Live z].
Proof.
  revert x. induction ys as [|y ys IH]; intros x.
  - now exists x.
  - destruct (IH (residue y)) as [z Hz]. exists z. simpl. now rewrite Hz.
Qed.

(** The forward loop of [std::move] as used by [Erase]. *)
Lemma move_fwd_eq a : forall ys x i pre post h ob lg,
  length pre = i ->
  h !! a = Some (pre ++ Live x :: (Live <$> ys) ++ post) ->
  move_fwd (mkPtr (Some a) (S i)) (length ys) (mkPtr (Some a) i) (mkWorld h ob None lg)
  = Ret tt (mkWorld (<[a := pre ++ fshift x ys ++ post]> h) ob None
                    (lg ++ (ev_assign a <$> seq i (length ys)))).
Proof.
  induction ys as [|y ys IH]; intros x i pre post h ob lg Hi Ha.
  - simpl. now rewrite insert_id, app_nil_r.
  - simpl length. simpl move_fwd.
    step_by ltac:(eapply (T_move_assign_eq a i (S i) y x);
      [ eassumption
      | rewrite fmap_cons; simpl;
        replace (pre ++ Live x :: Live y :: (Live <$> ys) ++ post)
          with ((pre ++ [Live x]) ++ Live y :: (Live <$> ys) ++ post)
          by (now rewrite <- app_assoc);
        apply lookup_middle; rewrite length_app; simpl; lia
      | now apply lookup_middle
      | lia ]).
    unfold ptr_add. simpl base. simpl off. rewrite !Nat.add_1_r.
    rewrite (IH (residue y) (S i) (pre ++ [Live y]) post).
    + rewrite insert_insert_eq, <- !app_assoc. simpl.
      f_equal.
    + rewrite length_app. simpl. lia.
    + rewrite lookup_insert_eq. f_equal.
      rewrite fmap_cons. simpl.
      replace (pre ++ Live x :: Live y :: (Live <$> ys) ++ post)
        with ((pre ++ [Live x]) ++ Live y :: (Live <$> ys) ++ post)
        by (now rewrite <- app_assoc).
      rewrite (insert_middle (pre ++ [Live x])) by (rewrite length_app; simpl; lia).
      rewrite <- app_assoc. simpl.
      rewrite (insert_middle pre) by assumption.
      now rewrite <- app_assoc.
Qed.

Lemma bshift_snoc u z zs :
  bshift (residue z) zs ++ [Live z] = bshift u (zs ++ [z]).
Proof.
  destruct zs as [|z0 zs]; simpl; [reflexivity|].
  now rewrite fmap_app.
Qed.

(** The backward loop of [std::move_backward] as used by [Emplace]. *)
Lemma assign_bwd_eq a : forall zs u i pre post h ob lg,
  length pre = i ->
  h !! a = Some (pre ++ (Live <$> zs) ++ Live u :: post) ->
  exists lg',
    assign_bwd T_move_assign (mkPtr (Some a) (i + length zs)) (length zs)
      (mkPtr (Some a) (S (i + length zs))) (mkWorld h ob None lg)
    = Ret tt (mkWorld (<[a := pre ++ bshift u zs ++ post]> h) ob None lg').
Proof.
  induction zs as [|z zs IH] using rev_ind; intros u i pre post h ob lg Hi Ha.
  - eexists. simpl. now rewrite insert_id.
  - rewrite length_app. simpl length.
    replace (i + (length zs + 1)) with (S (i + length zs)) by lia.
    replace (length zs + 1) with (S (length zs)) by lia.
    simpl assign_bwd.
    step_by ltac:(reflexivity).
    step_by ltac:(reflexivity).
    assert (Hsl : pre ++ (Live <$> zs ++ [z]) ++ Live u :: post
                  = (pre ++ (Live <$> zs)) ++ Live z :: Live u :: post).
    { rewrite fmap_app, <- !app_assoc. reflexivity. }
    rewrite Hsl in Ha.
    step_by ltac:(eapply (T_move_assign_eq a (S (i + length zs)) (i + length zs) z u);
      [ eassumption
      | apply lookup_middle; rewrite length_app, length_fmap; lia
      | replace ((pre ++ (Live <$> zs)) ++ Live z :: Live u :: post)
          with (((pre ++ (Live <$> zs)) ++ [Live z]) ++ Live u :: post)
          by (now rewrite <- !app_assoc);
        apply lookup_middle; rewrite !length_app, length_fmap; simpl; lia
      | lia ]).
    destruct (IH (residue z) i pre (Live z :: post)
                (<[a := <[S (i + length zs) := Live z]>
                          (<[i + length zs := Live (residue z)]>
                             ((pre ++ (Live <$> zs)) ++ Live z :: Live u :: post))]> h)
                ob (lg ++ [ev_assign a (S (i + length zs))]) Hi) as [lg' Heq].
    + rewrite lookup_insert_eq. f_equal.
      rewrite (insert_middle (pre ++ (Live <$> zs)))
        by (rewrite length_app, length_fmap; lia).
      replace ((pre ++ (Live <$> zs)) ++ Live (residue z) :: Live u :: post)
        with (((pre ++ (Live <$> zs)) ++ [Live (residue z)]) ++ Live u :: post)
        by (now rewrite <- !app_assoc).
      rewrite (insert_middle ((pre ++ (Live <$> zs)) ++ [Live (residue z)]))
        by (rewrite !length_app, length_fmap; simpl; lia).
      now rewrite <- !app_assoc.
    + exists lg'. cbn [base off]. rewrite Heq, insert_insert_eq.
      rewrite <- (bshift_snoc u), <- !app_assoc. reflexivity.
Qed.

Lemma assign_bwd_copy :
  nothrow_move = false -> assign_bwd T_copy_assign = assign_bwd T_move_assign.
Proof.
  intros Hm. unfold T_move_assign. rewrite Hm. reflexivity.
Qed.

(** ** Iterators and pointer arithmetic *)

Lemma RawMemory_plus_eq r o w :
  o <= capacity_ r -> RawMemory_plus r o w = Ret (mkPtr (buffer_ r) o) w.
Proof.
  intros H. unfold RawMemory_plus.
  destruct (Nat.leb_spec o (capacity_ r)); [reflexivity | lia].
Qed.

Lemma RawMemory_at_eq r o w :
  o < capacity_ r -> RawMemory_at r o w = Ret (mkPtr (buffer_ r) o) w.
Proof.
  intros H. unfold RawMemory_at.
  destruct (Nat.ltb_spec o (capacity_ r)); [reflexivity | lia].
Qed.

Lemma cbegin_eq this v h ob f lg :
  ob !! this = Some v ->
  cbegin this (mkWorld h ob f lg) = Ret (mkPtr (buffer_ (data_ v)) 0) (mkWorld h ob f lg).
Proof.
  intros Hob. unfold cbegin, begin_.
  step_by ltac:(apply get_data_eq; eassumption).
  apply RawMemory_plus_eq. lia.
Qed.

Lemma end_eq this v h ob f lg :
  ob !! this = Some v -> size_ v <= capacity_ (data_ v) ->
  end_ this (mkWorld h ob f lg) = Ret (mkPtr (buffer_ (data_ v)) (size_ v)) (mkWorld h ob f lg).
Proof.
  intros Hob Hle. unfold end_.
  step_by ltac:(apply get_vec_eq; eassumption).
  now apply RawMemory_plus_eq.
Qed.

Lemma distance_eq b o1 o2 w :
  o1 <= o2 -> distance (mkPtr b o1) (mkPtr b o2) w = Ret (o2 - o1) w.
Proof.
  intros H. unfold distance. simpl.
  rewrite bool_decide_eq_true_2 by reflexivity.
  destruct (Nat.leb_spec o1 o2); [reflexivity | lia].
Qed.

Lemma holds_iter_at h ob f lg this v i :
  ob !! this = Some v -> iter_at (mkWorld h ob f lg) this i = mkPtr (buffer_ (data_ v)) i.
Proof. intros Hob. unfold iter_at. simpl. now rewrite Hob. Qed.

(** ** [Erase] *)

Lemma std_move_eq a ys x i n pre post h ob lg :
  length pre = i -> n = i + S (length ys) ->
  h !! a = Some (pre ++ Live x :: (Live <$> ys) ++ post) ->
  std_move (mkPtr (Some a) (S i)) (mkPtr (Some a) n) (mkPtr (Some a) i) (mkWorld h ob None lg)
  = Ret tt (mkWorld (<[a := pre ++ fshift x ys ++ post]> h) ob None
                    (lg ++ (ev_assign a <$> seq i (length ys)))).
Proof.
  intros Hi -> Ha. unfold std_move.
  step_by ltac:(apply distance_eq; lia).
  replace (i + S (length ys) - S i) with (length ys) by lia.
  now apply move_fwd_eq.
Qed.

Lemma Erase_eq this v pfx x ys a h ob lg :
  ob !! this = Some v -> rep h v (pfx ++ x :: ys) ->
  buffer_ (data_ v) = Some a ->
  Erase this (mkPtr (Some a) (length pfx)) (mkWorld h ob None lg)
  = Ret (mkPtr (Some a) (length pfx))
        (mkWorld (<[a := (Live <$> pfx ++ ys)
                         ++ replicate (capacity_ (data_ v) - length (pfx ++ ys)) Raw]> h)
                 (<[this := mkVector (data_ v) (length (pfx ++ ys))]> ob) None
                 (lg ++ (ev_assign a <$> seq (length pfx) (length ys))
                     ++ [ev_destroy a (length (pfx ++ ys))])).
Proof.
  intros Hob (Hsz & Hle & Hbuf) Hb. rewrite Hb in Hbuf. destruct Hbuf as [Hc Ha].
  rewrite length_app in Hsz, Hle, Ha. simpl length in Hsz, Hle, Ha.
  rewrite length_app.
  set (i := length pfx) in *. set (m := length ys) in *.
  set (c := capacity_ (data_ v)) in *.
  assert (Hblock : (Live <$> pfx ++ x :: ys) ++ replicate (c - (i + S m)) Raw
                   = (Live <$> pfx) ++ Live x :: (Live <$> ys) ++ replicate (c - (i + S m)) Raw).
  { rewrite fmap_app, fmap_cons, <- app_assoc. reflexivity. }
  rewrite Hblock in Ha.
  unfold Erase. apply noexcept_Ret.
  step_by ltac:(apply cbegin_eq; eassumption).
  rewrite Hb.
  step_by ltac:(apply distance_eq; lia).
  rewrite Nat.sub_0_r.
  step_by ltac:(apply get_vec_eq; eassumption).
  step_by ltac:(apply RawMemory_plus_eq; fold c; lia).
  step_by ltac:(apply end_eq; [eassumption | fold c; lia]).
  rewrite Hb, Hsz.
  unfold ptr_add. simpl base. simpl off. rewrite Nat.add_1_r.
  step_by ltac:(apply (std_move_eq a ys x i (i + S m) (Live <$> pfx)
                         (replicate (c - (i + S m)) Raw));
                [now rewrite length_fmap | reflexivity | eassumption]).
  step_by ltac:(apply end_eq; [eassumption | fold c; lia]).
  rewrite Hb, Hsz.
  replace (i + S m) with (S (i + m)) by lia.
  step_by ltac:(reflexivity).
  destruct (fshift_shape x ys) as [z Hz]. rewrite Hz.
  assert (Hblock' : (Live <$> pfx) ++ ((Live <$> ys) ++ [Live z]) ++ replicate (c - S (i + m)) Raw
                    = ((Live <$> pfx) ++ (Live <$> ys)) ++ Live z :: replicate (c - S (i + m)) Raw).
  { rewrite <- !app_assoc. reflexivity. }
  rewrite Hblock'.
  step_by ltac:(eapply (destroy_at_eq a (i + m) z);
                [ apply lookup_insert_eq
                | apply lookup_middle; rewrite length_app, !length_fmap; reflexivity ]).
  step_by ltac:(apply set_size_eq; eassumption).
  rewrite RawMemory_at_eq by (fold c; lia). rewrite Hb.
  f_equal. f_equal.
  - rewrite insert_insert_eq. f_equal.
    rewrite (insert_middle ((Live <$> pfx) ++ (Live <$> ys)))
      by (rewrite length_app, !length_fmap; reflexivity).
    rewrite fmap_app, <- !app_assoc. do 2 f_equal.
    replace (c - (i + m)) with (S (c - S (i + m))) by lia. reflexivity.
  - replace (S (i + m) - 1) with (i + m) by lia. reflexivity.
  - rewrite <- app_assoc. reflexivity.
Qed.

(** C5.  For a vector with elements [xs] and a position [i < length xs],
    [Erase(begin() + i)] returns with size [length xs - 1], the element at
    [i] removed and all others in their original order, in the same block;
    the trace of the call consists of one assignment into each of the
    existing slots [i, ..., length xs - 2], followed by the destruction of
    the slot [length xs - 1]: nothing is constructed or allocated. *)
Theorem Erase_removes_element (w : World) (this : ref) (xs : list T) (c i : nat) :
  holds w this xs c -> i < length xs -> fuse w = None ->
  exists w' r a,
    Erase this (iter_at w this i) w = Ret r w' /\
    r = iter_at w' this i /\
    holds w' this (take i xs ++ drop (S i) xs) c /\
    size_of w' this = Some (length xs - 1) /\
    elems_of w' this = Some (take i xs ++ drop (S i) xs) /\
    capacity_of w' this = Some c /\
    buffer_of w this = Some a /\ buffer_of w' this = Some a /\
    log w' = log w ++ (ev_assign a <$> seq i (length xs - 1 - i))
                   ++ [ev_destroy a (length xs - 1)].
Proof.
  intros (v & Hob & Hc & Hrep) Hi Hf.
  destruct w as [h ob f lg]. simpl in *. subst c f.
  destruct (lookup_lt_is_Some_2 xs i Hi) as [x Hx].
  pose proof (take_drop_middle xs i x Hx) as Hxs.
  set (pfx := take i xs) in *. set (ys := drop (S i) xs) in *.
  assert (Hpfx : length pfx = i) by (unfold pfx; rewrite length_take; lia).
  assert (Hlen : length xs = i + S (length ys)).
  { rewrite <- Hxs at 1. rewrite length_app. simpl. lia. }
  assert (Hlen' : length (pfx ++ ys) = length xs - 1).
  { rewrite length_app. lia. }
  rewrite <- Hxs in Hrep.
  destruct (buffer_ (data_ v)) as [a|] eqn:Hb.
  2:{ destruct Hrep as (_ & Hle & Hbuf). rewrite Hb in Hbuf.
      rewrite length_app in Hle. simpl in Hle. lia. }
  pose proof (Erase_eq this v pfx x ys a h ob lg Hob Hrep Hb) as Heq.
  rewrite Hpfx in Heq.
  rewrite (holds_iter_at _ _ _ _ _ _ _ Hob), Hb.
  eexists _, _, a. split; [exact Heq|].
  assert (Hh : holds (mkWorld (<[a := (Live <$> pfx ++ ys)
                                  ++ replicate (capacity_ (data_ v) - length (pfx ++ ys)) Raw]> h)
                        (<[this := mkVector (data_ v) (length (pfx ++ ys))]> ob) None
                        (lg ++ (ev_assign a <$> seq i (length ys))
                            ++ [ev_destroy a (length (pfx ++ ys))]))
                     this (pfx ++ ys) (capacity_ (data_ v))).
  { eexists. split; [apply lookup_insert_eq|]. split; [reflexivity|].
    destruct Hrep as (Hsz & Hle & Hbuf). rewrite length_app in Hle. simpl in Hle.
    split; [reflexivity|]. simpl. split; [rewrite length_app; lia|].
    rewrite Hb. split; [lia | apply lookup_insert_eq]. }
  split.
  { unfold iter_at. simpl. rewrite lookup_insert_eq. simpl. now rewrite Hb. }
  split; [exact Hh|].
  split; [rewrite <- Hlen'; exact (holds_size _ _ _ _ Hh)|].
  split; [exact (holds_elems _ _ _ _ Hh)|].
  split; [exact (holds_capacity _ _ _ _ Hh)|].
  split; [unfold buffer_of; simpl; now rewrite Hob|].
  split; [unfold buffer_of; simpl; now rewrite lookup_insert_eq|].
  simpl. rewrite Hlen'.
  replace (length xs - 1 - i) with (length ys) by lia. reflexivity.
Qed.

(** ** [Emplace]: the growth path *)

Lemma relocates_move : nothrow_move = true -> relocates uninitialized_move_n.
Proof.
  intros Hm. split; [reflexivity|].
  intros a b xs n s d h ob lg sla slb Hab Ha Hb <- Hseg Hlen.
  pose proof (relocate_eq a b Hab xs s d h ob None lg sla slb Ha Hb Hseg Hlen
                (enough_0 None)) as Heq.
  rewrite Hm in Heq. eexists. exact Heq.
Qed.

Lemma relocates_copy : nothrow_move = false -> relocates uninitialized_copy_n.
Proof.
  intros Hm. split; [reflexivity|].
  intros a b xs n s d h ob lg sla slb Hab Ha Hb <- Hseg Hlen.
  pose proof (relocate_eq a b Hab xs s d h ob None lg sla slb Ha Hb Hseg Hlen I) as Heq.
  rewrite Hm in Heq. eexists. exact Heq.
Qed.

Lemma splice_at_app {A} o (ys pre mid post : list A) :
  length pre = o -> length mid = length ys ->
  splice o ys (pre ++ mid ++ post) = pre ++ ys ++ post.
Proof.
  intros <- Hm. unfold splice.
  rewrite take_app_length, drop_app_add.
  rewrite <- Hm, drop_app_length. reflexivity.
Qed.

Lemma splice_at_app0 {A} (ys mid post : list A) :
  length mid = length ys -> splice 0 ys (mid ++ post) = ys ++ post.
Proof. intros Hm. now apply (splice_at_app 0 ys [] mid post). Qed.

Lemma insert_replicate_Raw i r (x : T) :
  <[i := Live x]> (replicate (i + S r) Raw) = replicate i Raw ++ Live x :: replicate r Raw.
Proof.
  rewrite replicate_add. simpl.
  apply insert_middle. apply length_replicate.
Qed.

Lemma live_seg_fmap (zs : list T) n : n <= length zs -> live_seg 0 n (Live <$> zs).
Proof.
  intros Hn i Hi. destruct (lookup_lt_is_Some_2 zs i) as [x Hx]; [lia|].
  exists x. simpl. now rewrite list_lookup_fmap, Hx.
Qed.

Lemma grow_body_eq reloc (Hreloc : relocates reloc) this v a a' pfx sfx r args h ob lg :
  a <> a' ->
  ob !! this = Some v -> buffer_ (data_ v) = Some a ->
  size_ v = length pfx + length sfx -> capacity_ (data_ v) = length pfx + length sfx ->
  h !! a = Some ((Live <$> pfx) ++ (Live <$> sfx)) ->
  h !! a' = Some (replicate (length pfx + S (length sfx + r)) Raw) ->
  exists lg',
    grow_body reloc this v (mkRaw (Some a') (length pfx + S (length sfx + r)))
      (length pfx) (mkPtr (Some a) (length pfx)) args (mkWorld h ob None lg)
    = Ret tt (mkWorld (<[a' := (Live <$> pfx ++ arg_value args :: sfx) ++ replicate r Raw]>
                         (<[a := Live <$> (residue <$> pfx ++ sfx)]> h))
                      ob None lg').
Proof.
  intros Haa' Hob Hb Hsz Hcap Ha Ha'.
  destruct Hreloc as [Hreloc0 Hreloc].
  set (i := length pfx) in *. set (m := length sfx) in *.
  set (x := arg_value args).
  unfold grow_body.
  step_by ltac:(apply RawMemory_plus_eq; simpl; lia).
  step_by ltac:(apply T_construct_eq).
  simpl buffer_.
  step_by ltac:(eapply construct_at_eq; [eassumption | rewrite length_replicate; lia]).
  fold x. rewrite insert_replicate_Raw.
  unfold GetAddress. rewrite Hb. simpl buffer_.
  destruct (Hreloc a a' pfx i 0 0
              (<[a' := replicate i Raw ++ Live x :: replicate (m + r) Raw]> h) ob
              (lg ++ [EvConstruct (mkPtr (Some a') i)])
              ((Live <$> pfx) ++ (Live <$> sfx))
              (replicate i Raw ++ Live x :: replicate (m + r) Raw)) as [lg1 Heq1].
  { assumption. }
  { now rewrite lookup_insert_ne by congruence. }
  { apply lookup_insert_eq. }
  { reflexivity. }
  { simpl. apply take_app_length'. now rewrite length_fmap. }
  { rewrite length_app, length_replicate. simpl. lia. }
  step_by ltac:(exact Heq1).
  rewrite (splice_at_app0 (Live <$> pfx) (replicate i Raw))
    by (now rewrite length_replicate, length_fmap).
  rewrite (splice_at_app0 (Live <$> (residue <$> pfx)) (Live <$> pfx))
    by (now rewrite !length_fmap).
  step_by ltac:(apply end_eq; [eassumption | lia]).
  rewrite Hb, Hsz.
  destruct (decide (m = 0)) as [Hm0|Hm0].
  - assert (sfx = []) by (now apply length_zero_iff_nil). subst sfx.
    rewrite Hm0, Nat.add_0_r.
    rewrite bool_decide_eq_true_2 by reflexivity. cbn [negb].
    eexists. unfold ret. f_equal. f_equal.
    rewrite !app_nil_r. simpl.
    rewrite fmap_app, <- app_assoc. simpl.
    map_ext.
  - assert (Hm : 0 < m) by lia.
    rewrite bool_decide_eq_false_2 by (intros [= E]; lia).
    cbn [negb].
    step_by ltac:(apply RawMemory_plus_eq; lia).
    step_by ltac:(apply RawMemory_plus_eq; simpl; lia).
    rewrite Hb. simpl buffer_. unfold ptr_add. simpl base. simpl off.
    replace (i + m - i) with m by lia.
    destruct (Hreloc a a' sfx m i (i + 1)
                (<[a' := (Live <$> pfx) ++ Live x :: replicate (m + r) Raw]>
                   (<[a := (Live <$> (residue <$> pfx)) ++ (Live <$> sfx)]>
                      (<[a' := replicate i Raw ++ Live x :: replicate (m + r) Raw]> h)))
                ob lg1
                ((Live <$> (residue <$> pfx)) ++ (Live <$> sfx))
                ((Live <$> pfx) ++ Live x :: replicate (m + r) Raw)) as [lg2 Heq2].
    { assumption. }
    { rewrite lookup_insert_ne by congruence. apply lookup_insert_eq. }
    { apply lookup_insert_eq. }
    { reflexivity. }
    { rewrite drop_app_length' by (now rewrite !length_fmap).
      apply take_ge. rewrite length_fmap. reflexivity. }
    { rewrite length_app, length_fmap. simpl. rewrite length_replicate. lia. }
    rewrite Heq2. eexists. f_equal. f_equal.
    assert (E1 : splice (i + 1) (Live <$> sfx)
                   ((Live <$> pfx) ++ Live x :: replicate (m + r) Raw)
                 = (Live <$> pfx ++ x :: sfx) ++ replicate r Raw).
    { replace ((Live <$> pfx) ++ Live x :: replicate (m + r) Raw)
        with (((Live <$> pfx) ++ [Live x]) ++ replicate m Raw ++ replicate r Raw)
        by (rewrite replicate_add, <- app_assoc; reflexivity).
      rewrite splice_at_app;
        [ | rewrite length_app, length_fmap; simpl; lia
          | now rewrite length_replicate, length_fmap ].
      rewrite fmap_app, fmap_cons, <- !app_assoc. reflexivity. }
    assert (E2 : splice i (Live <$> (residue <$> sfx))
                   ((Live <$> (residue <$> pfx)) ++ (Live <$> sfx))
                 = Live <$> (residue <$> pfx ++ sfx)).
    { replace ((Live <$> (residue <$> pfx)) ++ (Live <$> sfx))
        with ((Live <$> (residue <$> pfx)) ++ (Live <$> sfx) ++ [])
        by (now rewrite app_nil_r).
      rewrite splice_at_app; [ | now rewrite !length_fmap | now rewrite !length_fmap ].
      rewrite app_nil_r, !fmap_app. reflexivity. }
    rewrite E1, E2. map_ext.
Qed.

Lemma Emplace_grow this v pfx sfx args h ob lg :
  ob !! this = Some v -> rep h v (pfx ++ sfx) -> size_ v = capacity_ (data_ v) ->
  exists lg',
    Emplace this (mkPtr (buffer_ (data_ v)) (length pfx)) args (mkWorld h ob None lg)
    = Ret (mkPtr (Some (fresh (dom h))) (length pfx))
          (mkWorld (<[fresh (dom h) :=
                        (Live <$> pfx ++ arg_value args :: sfx)
                        ++ replicate ((if 0 <? length (pfx ++ sfx)
                                       then length (pfx ++ sfx) * 2 else 1)
                                      - S (length (pfx ++ sfx))) Raw]>
                      (free_block (buffer_ (data_ v)) h))
                   (<[this := mkVector
                                (mkRaw (Some (fresh (dom h)))
                                       (if 0 <? length (pfx ++ sfx)
                                        then length (pfx ++ sfx) * 2 else 1))
                                (S (length (pfx ++ sfx)))]> ob)
                   None lg').
Proof.
  intros Hob (Hsz & Hle & Hbuf) Hfull.
  pose proof (fresh_None h) as Hfresh.
  set (a' := fresh (dom h)) in *.
  rewrite length_app in *.
  set (i := length pfx) in *. set (m := length sfx) in *.
  unfold Emplace.
  step_by ltac:(apply cbegin_eq; eassumption).
  step_by ltac:(apply distance_eq; lia).
  rewrite Nat.sub_0_r.
  step_by ltac:(apply get_vec_eq; eassumption).
  rewrite <- Hfull, Nat.eqb_refl. cbv zeta.
  destruct (buffer_ (data_ v)) as [a|] eqn:Hb.
  - destruct Hbuf as [Hc Ha].
    assert (Haa' : a <> a') by (intros ->; rewrite Hfresh in Ha; discriminate).
    destruct (Nat.ltb_spec 0 (i + m)); [|lia].
    destruct (Nat.ltb_spec 0 (size_ v)); [|lia].
    replace ((i + m) * 2 - S (i + m)) with (i + m - 1) by lia.
    replace ((i + m) * 2) with (i + S (m + (i + m - 1))) by lia.
    replace (size_ v * 2) with (i + S (m + (i + m - 1))) by lia.
    replace (capacity_ (data_ v) - (i + m)) with 0 in Ha by lia.
    simpl replicate in Ha. rewrite app_nil_r, fmap_app in Ha.
    assert (Hgrow : forall reloc, relocates reloc ->
      exists lg1,
        grow_body reloc this v (mkRaw (Some a') (i + S (m + (i + m - 1)))) i
          (mkPtr (Some a) i) args
          (mkWorld (<[a' := replicate (i + S (m + (i + m - 1))) Raw]> h) ob None
                   (lg ++ [EvAlloc a' (i + S (m + (i + m - 1)))]))
        = Ret tt (mkWorld (<[a' := (Live <$> pfx ++ arg_value args :: sfx)
                                   ++ replicate (i + m - 1) Raw]>
                             (<[a := Live <$> (residue <$> pfx ++ sfx)]>
                                (<[a' := replicate (i + S (m + (i + m - 1))) Raw]> h)))
                          ob None lg1)).
    { intros reloc Hreloc.
      apply (grow_body_eq reloc Hreloc this v a a' pfx sfx (i + m - 1) args); try assumption.
      - lia.
      - now rewrite lookup_insert_ne by congruence.
      - apply lookup_insert_eq. }
    assert (Hbody : exists lg1,
      unwind
        (if nothrow_move
         then grow_body uninitialized_move_n this v (mkRaw (Some a') (i + S (m + (i + m - 1))))
                i (mkPtr (Some a) i) args
         else grow_body uninitialized_copy_n this v (mkRaw (Some a') (i + S (m + (i + m - 1))))
                i (mkPtr (Some a) i) args)
        (RawMemory_dtor (mkRaw (Some a') (i + S (m + (i + m - 1)))))
        (mkWorld (<[a' := replicate (i + S (m + (i + m - 1))) Raw]> h) ob None
                 (lg ++ [EvAlloc a' (i + S (m + (i + m - 1)))]))
      = Ret tt (mkWorld (<[a' := (Live <$> pfx ++ arg_value args :: sfx)
                                 ++ replicate (i + m - 1) Raw]>
                           (<[a := Live <$> (residue <$> pfx ++ sfx)]>
                              (<[a' := replicate (i + S (m + (i + m - 1))) Raw]> h)))
                        ob None lg1)).
    { destruct nothrow_move eqn:Hm.
      - destruct (Hgrow _ (relocates_move Hm)) as [lg1 Heq].
        exists lg1. now apply unwind_Ret.
      - destruct (Hgrow _ (relocates_copy Hm)) as [lg1 Heq].
        exists lg1. now apply unwind_Ret. }
    destruct Hbody as [lg1 Hbody].
    erewrite bind_Ret; cycle 1.
    { step_by ltac:(apply RawMemory_new_eq; lia).
      fold a'.
      step_by ltac:(exact Hbody).
      step_by ltac:(apply RawMemory_Swap_local_eq; eassumption).
      unfold GetAddress. rewrite Hb, Hsz.
      step_by ltac:(eapply (destroy_n_eq a (i + m) 0);
                    [ rewrite lookup_insert_ne by congruence; apply lookup_insert_eq
                    | apply live_seg_fmap; rewrite length_fmap, length_app; lia ]).
      unfold RawMemory_dtor. rewrite Hb.
      eapply Deallocate_eq. apply lookup_insert_eq. }
    cbv beta.
    step_by ltac:(apply get_size_eq; apply lookup_insert_eq).
    step_by ltac:(apply set_size_eq; apply lookup_insert_eq).
    step_by ltac:(apply get_data_eq; apply lookup_insert_eq).
    rewrite RawMemory_at_eq by (simpl; lia).
    eexists. simpl. f_equal. f_equal.
    + map_ext.
    + rewrite insert_insert_eq. do 2 f_equal. lia.
  - assert (Hi : i = 0) by lia. assert (Hm0 : m = 0) by lia.
    assert (pfx = []) by (now apply length_zero_iff_nil).
    assert (sfx = []) by (now apply length_zero_iff_nil).
    subst pfx sfx. simpl in i, m. subst i m. simpl in Hsz. simpl.
    destruct (Nat.ltb_spec 0 (size_ v)); [lia|].
    erewrite bind_Ret; cycle 1.
    { step_by ltac:(apply RawMemory_new_eq; lia).
      fold a'.
      erewrite bind_Ret; cycle 1.
      { apply unwind_Ret.
        destruct nothrow_move.
        - step_by ltac:(apply RawMemory_plus_eq; simpl; lia).
          step_by ltac:(apply T_construct_eq).
          step_by ltac:(eapply construct_at_eq; [apply lookup_insert_eq | simpl; lia]).
          step_by ltac:(reflexivity).
          step_by ltac:(apply end_eq; [eassumption | lia]).
          rewrite Hb, Hsz.
          rewrite bool_decide_eq_true_2 by reflexivity. cbn [negb].
          reflexivity.
        - step_by ltac:(apply RawMemory_plus_eq; simpl; lia).
          step_by ltac:(apply T_construct_eq).
          step_by ltac:(eapply construct_at_eq; [apply lookup_insert_eq | simpl; lia]).
          step_by ltac:(reflexivity).
          step_by ltac:(apply end_eq; [eassumption | lia]).
          rewrite Hb, Hsz.
          rewrite bool_decide_eq_true_2 by reflexivity. cbn [negb].
          reflexivity. }
      cbv beta.
      step_by ltac:(apply RawMemory_Swap_local_eq; eassumption).
      unfold GetAddress, RawMemory_dtor. rewrite Hb, Hsz.
      step_by ltac:(reflexivity).
      reflexivity. }
    cbv beta.
    step_by ltac:(apply get_size_eq; apply lookup_insert_eq).
    step_by ltac:(apply set_size_eq; apply lookup_insert_eq).
    step_by ltac:(apply get_data_eq; apply lookup_insert_eq).
    rewrite RawMemory_at_eq by (simpl; lia).
    eexists. simpl. rewrite !insert_insert_eq. reflexivity.
Qed.

(** ** [Emplace]: the in-place path *)

Lemma EmplaceWCopy_is_Move this num_pos args :
  nothrow_move = false -> EmplaceWCopy this num_pos args = EmplaceWMove this num_pos args.
Proof.
  intros Hm. unfold EmplaceWCopy, EmplaceWMove, copy_backward, move_backward.
  now rewrite (assign_bwd_copy Hm).
Qed.

Lemma bshift_cons u zs : exists y, bshift u zs = Live y :: (Live <$> zs).
Proof. destruct zs as [|z zs]; simpl; eauto. Qed.

Lemma EmplaceWMove_end this v xs a args h ob lg :
  ob !! this = Some v -> rep h v xs -> buffer_ (data_ v) = Some a ->
  size_ v < capacity_ (data_ v) ->
  EmplaceWMove this (length xs) args (mkWorld h ob None lg)
  = Ret tt (mkWorld (<[a := (Live <$> xs ++ [arg_value args])
                             ++ replicate (capacity_ (data_ v) - S (length xs)) Raw]> h)
                    ob None (lg ++ [ev_construct a (length xs)])).
Proof.
  intros Hob (Hsz & Hle & Hbuf) Hb Hlt. rewrite Hb in Hbuf. destruct Hbuf as [Hc Ha].
  unfold EmplaceWMove.
  step_by ltac:(apply get_vec_eq; eassumption).
  rewrite Hsz, Nat.eqb_refl, andb_false_r.
  step_by ltac:(apply RawMemory_plus_eq; lia).
  step_by ltac:(apply T_construct_eq).
  rewrite Hb.
  erewrite construct_at_eq;
    [ | eassumption | rewrite length_app, length_fmap, length_replicate; lia ].
  f_equal. f_equal. f_equal.
  replace (capacity_ (data_ v) - length xs) with (S (capacity_ (data_ v) - S (length xs)))
    by lia.
  simpl. rewrite (insert_middle (Live <$> xs)) by apply length_fmap.
  rewrite fmap_app, <- app_assoc. reflexivity.
Qed.

Lemma EmplaceWMove_mid this v pfx zs xl a args h ob lg :
  ob !! this = Some v -> rep h v (pfx ++ zs ++ [xl]) -> buffer_ (data_ v) = Some a ->
  size_ v < capacity_ (data_ v) ->
  exists lg',
    EmplaceWMove this (length pfx) args (mkWorld h ob None lg)
    = Ret tt (mkWorld (<[a := (Live <$> pfx ++ arg_value args :: zs ++ [xl])
                               ++ replicate (capacity_ (data_ v)
                                             - S (length (pfx ++ zs ++ [xl]))) Raw]> h)
                      ob None lg').
Proof.
  intros Hob (Hsz & Hle & Hbuf) Hb Hlt. rewrite Hb in Hbuf. destruct Hbuf as [Hc Ha].
  rewrite !length_app in *. simpl length in *.
  set (i := length pfx) in *. set (m := length zs) in *.
  set (c := capacity_ (data_ v)) in *.
  set (R := replicate (c - S (i + (m + 1))) Raw).
  assert (Hblock : (Live <$> pfx ++ zs ++ [xl]) ++ replicate (c - (i + (m + 1))) Raw
                   = ((Live <$> pfx) ++ (Live <$> zs)) ++ Live xl :: Raw :: R).
  { replace (c - (i + (m + 1))) with (S (c - S (i + (m + 1)))) by lia.
    rewrite !fmap_app, <- !app_assoc. reflexivity. }
  rewrite Hblock in Ha.
  unfold EmplaceWMove.
  step_by ltac:(apply get_vec_eq; eassumption).
  rewrite Hsz.
  destruct (Nat.ltb_spec 0 (i + (m + 1))); [|lia].
  destruct (Nat.eqb_spec i (i + (m + 1))); [lia|]. cbn [andb negb].
  step_by ltac:(apply T_construct_eq).
  step_by ltac:(apply RawMemory_plus_eq; fold c; lia).
  step_by ltac:(apply RawMemory_at_eq; fold c; lia).
  rewrite Hb. replace (i + (m + 1) - 1) with (i + m) by lia.
  step_by ltac:(eapply (T_move_ctor_gen a (i + m) xl);
                [ eassumption
                | apply lookup_middle; rewrite length_app, !length_fmap; reflexivity ]).
  rewrite (insert_middle ((Live <$> pfx) ++ (Live <$> zs)))
    by (rewrite length_app, !length_fmap; reflexivity).
  step_by ltac:(eapply (construct_at_eq a (i + (m + 1)) xl);
                [ apply lookup_insert_eq
                | rewrite !length_app, !length_fmap; simpl; lia ]).
  rewrite insert_insert_eq.
  assert (Hblock2 : <[i + (m + 1) := Live xl]>
                      (((Live <$> pfx) ++ (Live <$> zs)) ++ Live (residue xl) :: Raw :: R)
                    = (Live <$> pfx) ++ (Live <$> zs) ++ Live (residue xl) :: Live xl :: R).
  { replace (((Live <$> pfx) ++ (Live <$> zs)) ++ Live (residue xl) :: Raw :: R)
      with ((((Live <$> pfx) ++ (Live <$> zs)) ++ [Live (residue xl)]) ++ Raw :: R)
      by (now rewrite <- !app_assoc).
    rewrite insert_middle by (rewrite !length_app, !length_fmap; simpl; lia).
    now rewrite <- !app_assoc. }
  rewrite Hblock2.
  step_by ltac:(apply RawMemory_plus_eq; fold c; lia).
  step_by ltac:(apply RawMemory_plus_eq; fold c; lia).
  step_by ltac:(apply RawMemory_plus_eq; fold c; lia).
  rewrite Hb. replace (i + (m + 1) - 1) with (i + m) by lia.
  replace (i + (m + 1)) with (S (i + m)) by lia.
  destruct (assign_bwd_eq a zs (residue xl) i (Live <$> pfx) (Live xl :: R)
              (<[a := (Live <$> pfx) ++ (Live <$> zs) ++ Live (residue xl) :: Live xl :: R]> h)
              ob (lg ++ [EvConstruct (mkPtr (Some a) (S (i + m)))]))
    as [lg1 Heq1].
  { apply length_fmap. }
  { apply lookup_insert_eq. }
  erewrite bind_Ret; cycle 1.
  { unfold move_backward.
    step_by ltac:(apply distance_eq; lia).
    replace (i + m - i) with m by lia. exact Heq1. }
  cbv beta.
  step_by ltac:(apply RawMemory_at_eq; fold c; lia).
  rewrite Hb, insert_insert_eq.
  destruct (bshift_cons (residue xl) zs) as [y Hy]. rewrite Hy.
  erewrite T_assign_temp_eq;
    [ | apply lookup_insert_eq | apply lookup_middle; apply length_fmap ].
  eexists. f_equal. f_equal.
  rewrite insert_insert_eq. f_equal.
  change ((Live y :: (Live <$> zs)) ++ Live xl :: R)
    with (Live y :: ((Live <$> zs) ++ Live xl :: R)).
  rewrite (insert_middle (Live <$> pfx)) by apply length_fmap.
  rewrite fmap_app, fmap_cons, fmap_app. simpl.
  rewrite <- !app_assoc. simpl. rewrite <- !app_assoc. reflexivity.
Qed.

Lemma Emplace_inplace this v pfx sfx a args h ob lg :
  ob !! this = Some v -> rep h v (pfx ++ sfx) -> buffer_ (data_ v) = Some a ->
  size_ v < capacity_ (data_ v) ->
  exists lg',
    Emplace this (mkPtr (Some a) (length pfx)) args (mkWorld h ob None lg)
    = Ret (mkPtr (Some a) (length pfx))
          (mkWorld (<[a := (Live <$> pfx ++ arg_value args :: sfx)
                            ++ replicate (capacity_ (data_ v) - S (length (pfx ++ sfx))) Raw]> h)
                   (<[this := mkVector (data_ v) (S (length (pfx ++ sfx)))]> ob)
                   None lg').
Proof.
  intros Hob Hrep Hb Hlt.
  pose proof Hrep as (Hsz & Hle & Hbuf).
  assert (Hinner : exists lg1,
    (if nothrow_move
     then EmplaceWMove this (length pfx) args
     else EmplaceWCopy this (length pfx) args) (mkWorld h ob None lg)
    = Ret tt (mkWorld (<[a := (Live <$> pfx ++ arg_value args :: sfx)
                               ++ replicate (capacity_ (data_ v)
                                             - S (length (pfx ++ sfx))) Raw]> h)
                      ob None lg1)).
  { assert (Hmove : exists lg1,
      EmplaceWMove this (length pfx) args (mkWorld h ob None lg)
      = Ret tt (mkWorld (<[a := (Live <$> pfx ++ arg_value args :: sfx)
                                 ++ replicate (capacity_ (data_ v)
                                               - S (length (pfx ++ sfx))) Raw]> h)
                        ob None lg1)).
    { assert (Hcases : sfx = [] \/ exists zs xl, sfx = zs ++ [xl]).
      { clear. induction sfx using rev_ind; eauto. }
      destruct Hcases as [-> | (zs & xl & ->)].
      - rewrite app_nil_r in *. eexists.
        now apply (EmplaceWMove_end this v pfx a args).
      - now apply (EmplaceWMove_mid this v pfx zs xl a args). }
    destruct nothrow_move eqn:Hm; [exact Hmove|].
    now rewrite (EmplaceWCopy_is_Move _ _ _ Hm). }
  destruct Hinner as [lg1 Hinner].
  unfold Emplace.
  step_by ltac:(apply cbegin_eq; eassumption).
  rewrite Hb.
  step_by ltac:(apply distance_eq; lia).
  rewrite Nat.sub_0_r.
  step_by ltac:(apply get_vec_eq; eassumption).
  destruct (Nat.eqb_spec (size_ v) (capacity_ (data_ v))); [lia|].
  step_by ltac:(exact Hinner).
  step_by ltac:(apply get_size_eq; eassumption).
  step_by ltac:(apply set_size_eq; eassumption).
  step_by ltac:(apply get_data_eq; apply lookup_insert_eq).
  rewrite RawMemory_at_eq by (simpl; rewrite length_app in Hsz; lia).
  simpl. rewrite Hb. eexists. do 3 f_equal. rewrite Hsz. do 2 f_equal. lia.
Qed.

(** ** Footprints *)

Lemma updates_refl this w : updates this w w.
Proof. repeat split; auto. Qed.

Lemma updates_trans this w1 w2 w3 :
  updates this w1 w2 -> updates this w2 w3 -> updates this w1 w3.
Proof.
  intros (H1o & H1h & H1b) (H2o & H2h & H2b). split; [|split].
  - intros q Hq. rewrite H2o, H1o by assumption. reflexivity.
  - intros a sl Hne Ha. apply H2h; [|now apply H1h].
    intros Hb. destruct (H1b a Hb) as [E|E]; congruence.
  - intros a Hb. destruct (H2b a Hb) as [E|E].
    + now apply H1b.
    + destruct (decide (buffer_of w1 this = Some a)) as [Hd|Hd]; [now left|].
      right. destruct (heap w1 !! a) as [sl|] eqn:Ha; [|reflexivity].
      rewrite (H1h a sl Hd Ha) in E. discriminate.
Qed.

Lemma buffer_of_eq h ob f lg this v :
  ob !! this = Some v -> buffer_of (mkWorld h ob f lg) this = buffer_ (data_ v).
Proof. intros H. unfold buffer_of. simpl. now rewrite H. Qed.

(** An operation that rewrites the block of [this] in place. *)
Lemma updates_inplace this v v' a sl' h ob f lg f' lg' :
  ob !! this = Some v -> buffer_ (data_ v) = Some a -> buffer_ (data_ v') = Some a ->
  updates this (mkWorld h ob f lg) (mkWorld (<[a := sl']> h) (<[this := v']> ob) f' lg').
Proof.
  intros Hob Hb Hb'. split; [|split]; simpl.
  - intros q Hq. now rewrite lookup_insert_ne by congruence.
  - intros a0 sl. rewrite (buffer_of_eq _ _ _ _ _ _ Hob), Hb. intros Hne Ha.
    rewrite lookup_insert_ne by congruence. assumption.
  - intros a0. rewrite (buffer_of_eq _ _ _ _ _ v') by apply lookup_insert_eq.
    rewrite (buffer_of_eq _ _ _ _ _ _ Hob). left. congruence.
Qed.

(** An operation that only changes the fields of [this]. *)
Lemma updates_fields this v v' h ob f lg f' lg' :
  ob !! this = Some v -> buffer_ (data_ v') = buffer_ (data_ v) ->
  updates this (mkWorld h ob f lg) (mkWorld h (<[this := v']> ob) f' lg').
Proof.
  intros Hob Hb. split; [|split]; simpl.
  - intros q Hq. now rewrite lookup_insert_ne by congruence.
  - auto.
  - intros a0. rewrite (buffer_of_eq _ _ _ _ _ v') by apply lookup_insert_eq.
    rewrite (buffer_of_eq _ _ _ _ _ _ Hob). left. congruence.
Qed.

(** An operation that moves [this] to a new block and releases the old
    one. *)
Lemma updates_realloc this b v' sl' h ob f lg f' lg' :
  buffer_of (mkWorld h ob f lg) this = b ->
  buffer_ (data_ v') = Some (fresh (dom h)) ->
  updates this (mkWorld h ob f lg)
    (mkWorld (<[fresh (dom h) := sl']> (free_block b h)) (<[this := v']> ob) f' lg').
Proof.
  intros Hb Hb'. split; [|split]; simpl.
  - intros q Hq. now rewrite lookup_insert_ne by congruence.
  - intros a0 sl. rewrite Hb. intros Hne Ha.
    rewrite lookup_insert_ne by (intros <-; rewrite fresh_None in Ha; discriminate).
    now apply free_block_other.
  - intros a0. rewrite (buffer_of_eq _ _ _ _ _ v') by apply lookup_insert_eq.
    rewrite Hb'. intros [= <-]. right. apply fresh_None.
Qed.

(** ** Specifications on the level of the representation invariant *)

Lemma Reserve_spec (w : World) (this : ref) (xs : list T) (c m : nat) :
  holds w this xs c -> fuse w = None ->
  exists w',
    Reserve this m w = Ret tt w' /\
    fuse w' = None /\
    holds w' this xs (Nat.max c m) /\
    updates this w w'.
Proof.
  intros (v & Hob & Hc & Hrep) Hf.
  destruct w as [h ob f lg]. simpl in *. subst c f.
  destruct (le_lt_dec m (capacity_ (data_ v))) as [Hle|Hlt].
  - eexists. split; [now apply (Reserve_noop _ _ v)|].
    split; [reflexivity|]. split; [|apply updates_refl].
    rewrite Nat.max_l by lia. exists v. auto.
  - destruct (Reserve_grow this m v xs h ob None lg Hob Hrep Hlt I) as [lg' Heq].
    eexists. split; [exact Heq|]. split; [reflexivity|].
    destruct Hrep as (Hsz & Hle & Hbuf).
    split.
    + rewrite Nat.max_r by lia.
      eexists. split; [apply lookup_insert_eq|]. split; [reflexivity|].
      split; [reflexivity|]. split; [simpl; lia|]. simpl.
      split; [lia | apply lookup_insert_eq].
    + apply updates_realloc; [now apply buffer_of_eq | reflexivity].
Qed.

(** ** [Emplace] and [PushBack] *)

Lemma Emplace_spec (w : World) (this : ref) (xs : list T) (c i : nat) (args : Args) :
  holds w this xs c -> i <= length xs -> fuse w = None ->
  exists w' r,
    Emplace this (iter_at w this i) args w = Ret r w' /\
    r = iter_at w' this i /\
    fuse w' = None /\
    holds w' this (take i xs ++ arg_value args :: drop i xs)
          (if length xs =? c then Nat.max 1 (2 * c) else c) /\
    updates this w w'.
Proof.
  intros (v & Hob & Hc & Hrep) Hi Hf.
  destruct w as [h ob f lg]. simpl in *. subst c f.
  pose proof (take_drop i xs) as Hxs.
  set (pfx := take i xs) in *. set (sfx := drop i xs) in *.
  assert (Hpfx : length pfx = i) by (unfold pfx; rewrite length_take; lia).
  rewrite <- Hxs in Hrep.
  pose proof Hrep as (Hsz & Hle & Hbuf).
  assert (Hn : length (pfx ++ sfx) = length xs) by (now rewrite Hxs).
  assert (Hn' : length (pfx ++ arg_value args :: sfx) = S (length xs)).
  { rewrite length_app in *. simpl. lia. }
  rewrite (holds_iter_at _ _ _ _ _ _ _ Hob).
  destruct (Nat.eqb_spec (length xs) (capacity_ (data_ v))) as [Hfull|Hroom].
  - assert (Hfull' : size_ v = capacity_ (data_ v)) by lia.
    destruct (Emplace_grow this v pfx sfx args h ob lg Hob Hrep Hfull') as [lg' Heq].
    rewrite Hpfx, Hn in Heq.
    eexists _, _. split; [exact Heq|].
    split. { unfold iter_at. simpl. now rewrite lookup_insert_eq. }
    split; [reflexivity|].
    split; [|apply updates_realloc; [now apply buffer_of_eq | reflexivity]].
    eexists. split; [apply lookup_insert_eq|].
    split. { simpl. rewrite <- Hfull. destruct (Nat.ltb_spec 0 (length xs)); lia. }
    split; [simpl; lia|].
    split. { simpl. rewrite Hn'. destruct (Nat.ltb_spec 0 (length xs)); lia. }
    simpl. split. { destruct (Nat.ltb_spec 0 (length xs)); lia. }
    rewrite lookup_insert_eq, Hn'. reflexivity.
  - destruct (buffer_ (data_ v)) as [a|] eqn:Hb; [|lia].
    assert (Hroom' : size_ v < capacity_ (data_ v)) by lia.
    destruct (Emplace_inplace this v pfx sfx a args h ob lg Hob Hrep Hb Hroom')
      as [lg' Heq].
    rewrite Hpfx, Hn in Heq.
    eexists _, _. split; [exact Heq|].
    split. { unfold iter_at. simpl. rewrite lookup_insert_eq. simpl. now rewrite Hb. }
    split; [reflexivity|].
    split; [|now apply (updates_inplace this v _ a)].
    eexists. split; [apply lookup_insert_eq|].
    split; [reflexivity|].
    split; [simpl; lia|].
    split. { simpl. rewrite Hn'. lia. }
    simpl. rewrite Hb. split; [lia|].
    rewrite lookup_insert_eq, Hn'. reflexivity.
Qed.

(** C1.  For a vector with elements [xs] (size [n]) and a position
    [i <= n], [Emplace(begin() + i, args)] returns with size [n + 1], the
    newly constructed element at index [i], and all other elements in their
    original order; this holds on the growth path ([n] equal to the
    capacity, which becomes [max(1, 2 * capacity)]) and on the in-place path
    (capacity unchanged). *)
Theorem Emplace_inserts_at (w : World) (this : ref) (xs : list T) (c i : nat) (args : Args) :
  holds w this xs c -> i <= length xs -> fuse w = None ->
  exists w' r,
    Emplace this (iter_at w this i) args w = Ret r w' /\
    r = iter_at w' this i /\
    size_of w' this = Some (S (length xs)) /\
    elems_of w' this = Some (take i xs ++ arg_value args :: drop i xs) /\
    elem_of_vec w' this i = Some (arg_value args) /\
    capacity_of w' this = Some (if length xs =? c then Nat.max 1 (2 * c) else c) /\
    holds w' this (take i xs ++ arg_value args :: drop i xs)
          (if length xs =? c then Nat.max 1 (2 * c) else c).
Proof.
  intros Hh Hi Hf.
  destruct (Emplace_spec w this xs c i args Hh Hi Hf) as (w' & r & Heq & Hr & _ & Hh' & _).
  exists w', r. split; [exact Heq|]. split; [exact Hr|].
  assert (Hlen : length (take i xs ++ arg_value args :: drop i xs) = S (length xs)).
  { rewrite length_app. simpl. rewrite length_take, length_drop. lia. }
  split; [rewrite <- Hlen; exact (holds_size _ _ _ _ Hh')|].
  split; [exact (holds_elems _ _ _ _ Hh')|].
  split.
  { destruct w' as [h' ob' f' lg']. destruct Hh' as (v' & Hob' & Hc' & Hrep').
    simpl in *.
    rewrite (elem_of_vec_eq _ _ _ _ _ v' _ i Hob' Hrep') by lia.
    apply list_lookup_middle. rewrite length_take. lia. }
  split; [exact (holds_capacity _ _ _ _ Hh') | exact Hh'].
Qed.

Lemma EmplaceBack_spec (w : World) (this : ref) (xs : list T) (c : nat) (args : Args) :
  holds w this xs c -> fuse w = None ->
  exists w' r,
    EmplaceBack this args w = Ret r w' /\
    fuse w' = None /\
    holds w' this (xs ++ [arg_value args])
          (if length xs =? c then Nat.max 1 (2 * c) else c) /\
    updates this w w'.
Proof.
  intros Hh Hf.
  destruct (Emplace_spec w this xs c (length xs) args Hh (le_n _) Hf)
    as (w' & r & Heq & Hr & Hf' & Hh' & Hup).
  rewrite take_ge, drop_ge in Hh' by lia.
  destruct w as [h ob f lg]. destruct w' as [h' ob' f' lg'].
  pose proof Hh as (v & Hob & Hc & Hrep). pose proof Hh' as (v' & Hob' & Hc' & Hrep').
  simpl in *.
  rewrite (holds_iter_at _ _ _ _ _ _ _ Hob) in Heq.
  destruct Hrep as (Hsz & Hle & _). destruct Hrep' as (Hsz' & Hle' & _).
  rewrite length_app in Hsz', Hle'. simpl in Hsz', Hle'.
  unfold EmplaceBack.
  eexists _, _. split.
  - unfold cend.
    step_by ltac:(apply end_eq; [eassumption | lia]).
    rewrite Hsz.
    step_by ltac:(exact Heq).
    step_by ltac:(apply get_vec_eq; eassumption).
    apply RawMemory_at_eq. lia.
  - split; [assumption|]. split; [exact Hh' | exact Hup].
Qed.

Lemma push_back_spec (w : World) (this : ref) (xs : list T) (c : nat) (p : bool * T) :
  holds w this xs c -> fuse w = None ->
  exists w',
    push_back this p w = Ret tt w' /\
    fuse w' = None /\
    holds w' this (xs ++ [snd p]) (if length xs =? c then Nat.max 1 (2 * c) else c) /\
    updates this w w'.
Proof.
  intros Hh Hf. destruct p as [[|] x]; unfold push_back; simpl.
  - destruct (EmplaceBack_spec w this xs c (CopyOf x) Hh Hf)
      as (w' & r & Heq & Hf' & Hh' & Hup).
    exists w'. unfold PushBack_copy.
    split; [now rewrite (bind_Ret _ _ _ _ _ Heq) | auto].
  - destruct (EmplaceBack_spec w this xs c (MoveOf x) Hh Hf)
      as (w' & r & Heq & Hf' & Hh' & Hup).
    exists w'. unfold PushBack_move.
    split; [now rewrite (bind_Ret _ _ _ _ _ Heq) | auto].
Qed.

Lemma push_all_spec (this : ref) (ps : list (bool * T)) :
  forall (w : World) (xs : list T),
    holds w this xs (cap_after (length xs)) -> fuse w = None ->
    exists w',
      push_all this ps w = Ret tt w' /\
      fuse w' = None /\
      holds w' this (xs ++ (snd <$> ps)) (cap_after (length xs + length ps)).
Proof.
  induction ps as [|p ps IH]; intros w xs Hh Hf.
  - exists w. simpl. rewrite app_nil_r, Nat.add_0_r. auto.
  - destruct (push_back_spec w this xs _ p Hh Hf) as (w1 & Heq1 & Hf1 & Hh1 & _).
    assert (Hh1' : holds w1 this (xs ++ [snd p]) (cap_after (length (xs ++ [snd p])))).
    { rewrite length_app. simpl. rewrite Nat.add_1_r. simpl. exact Hh1. }
    destruct (IH w1 (xs ++ [snd p]) Hh1' Hf1) as (w2 & Heq2 & Hf2 & Hh2).
    exists w2. simpl push_all.
    rewrite (bind_Ret _ _ _ _ _ Heq1).
    split; [exact Heq2|]. split; [exact Hf2|].
    rewrite fmap_cons. simpl length.
    replace (xs ++ snd p :: (snd <$> ps)) with ((xs ++ [snd p]) ++ (snd <$> ps))
      by (now rewrite <- app_assoc).
    replace (length xs + S (length ps)) with (length (xs ++ [snd p]) + length ps)
      by (rewrite length_app; simpl; lia).
    exact Hh2.
Qed.

Lemma cap_after_ge k : k <= cap_after k.
Proof.
  induction k as [|k IH]; [simpl; lia|].
  simpl. destruct (Nat.eqb_spec k (cap_after k)); lia.
Qed.

Lemma cap_after_mono k : cap_after k <= cap_after (S k).
Proof. simpl. destruct (Nat.eqb_spec k (cap_after k)); lia. Qed.

Lemma cap_after_pow2 k : exists e, cap_after (S k) = 2 ^ e.
Proof.
  induction k as [|k [e He]].
  - exists 0. reflexivity.
  - change (cap_after (S (S k)))
      with (if S k =? cap_after (S k) then Nat.max 1 (2 * cap_after (S k))
            else cap_after (S k)).
    destruct (S k =? cap_after (S k)).
    + exists (S e). rewrite He. simpl.
      assert (0 < 2 ^ e) by (apply Nat.neq_0_lt_0, Nat.pow_nonzero; lia). lia.
    + now exists e.
Qed.

(** C4.  Starting from a default-constructed (empty) vector, after any
    sequence of [PushBack] calls the size is the number of calls, the
    elements are the pushed values in push order, and the capacity is
    [cap_after (number of calls)]: it starts at 0, never decreases, and each
    growth replaces the capacity [c] by [max(1, 2 * c)], so that it runs
    through 0, 1, 2, 4, 8, ... *)
Theorem PushBack_sequence (w : World) (this : ref) (ps : list (bool * T)) :
  objs w !! this = None -> fuse w = None ->
  exists w',
    (Vector_default this ;;; push_all this ps) w = Ret tt w' /\
    size_of w' this = Some (length ps) /\
    elems_of w' this = Some (snd <$> ps) /\
    capacity_of w' this = Some (cap_after (length ps)) /\
    (forall k, cap_after k <= cap_after (S k)) /\
    (forall k, cap_after (S k)
               = if k =? cap_after k then Nat.max 1 (2 * cap_after k) else cap_after k) /\
    (forall k, exists e, cap_after (S k) = 2 ^ e).
Proof.
  intros Hob Hf. destruct w as [h ob f lg]. simpl in *. subst f.
  assert (Hh : holds (mkWorld h (<[this := mkVector (mkRaw None 0) 0]> ob) None lg)
                     this [] (cap_after (length (@nil T)))).
  { apply holds_empty. apply lookup_insert_eq. }
  destruct (push_all_spec this ps _ [] Hh eq_refl) as (w' & Heq & _ & Hh').
  simpl in Hh'.
  exists w'. split.
  - unfold Vector_default.
    step_by ltac:(apply new_obj_eq; eassumption).
    exact Heq.
  - split; [rewrite <- (length_fmap snd ps); exact (holds_size _ _ _ _ Hh')|].
    split; [exact (holds_elems _ _ _ _ Hh')|].
    split; [exact (holds_capacity _ _ _ _ Hh')|].
    split; [exact cap_after_mono|].
    split; [reflexivity | exact cap_after_pow2].
Qed.

(** ** [Resize] *)

Lemma destroy_from_eq d : forall n i w,
  i + n <= capacity_ d ->
  destroy_from d i n w = destroy_n (mkPtr (buffer_ d) i) n w.
Proof.
  induction n as [|n IH]; intros i w Hle; [reflexivity|].
  simpl destroy_from. simpl destroy_n.
  rewrite (bind_Ret _ _ _ _ _ (RawMemory_at_eq d i w ltac:(lia))).
  unfold bind. destruct (destroy_at (mkPtr (buffer_ d) i) w); try reflexivity.
  unfold ptr_add. simpl. rewrite Nat.add_1_r. apply IH. lia.
Qed.

Lemma live_seg_tail (xs : list T) m k R :
  m + k <= length xs -> live_seg m k ((Live <$> xs) ++ R).
Proof.
  intros Hle i Hi.
  destruct (lookup_lt_is_Some_2 xs (m + i)) as [x Hx]; [lia|].
  exists x. rewrite lookup_app_l by (rewrite length_fmap; lia).
  now rewrite list_lookup_fmap, Hx.
Qed.

Lemma Resize_shrink this v xs a m h ob f lg :
  ob !! this = Some v -> rep h v xs -> buffer_ (data_ v) = Some a -> m < length xs ->
  Resize this m (mkWorld h ob f lg)
  = Ret tt (mkWorld (<[a := (Live <$> take m xs) ++ replicate (capacity_ (data_ v) - m) Raw]> h)
                    (<[this := mkVector (data_ v) m]> ob) f
                    (lg ++ (ev_destroy a <$> seq m (length xs - m)))).
Proof.
  intros Hob (Hsz & Hle & Hbuf) Hb Hm. rewrite Hb in Hbuf. destruct Hbuf as [Hc Ha].
  unfold Resize.
  step_by ltac:(apply get_vec_eq; eassumption).
  rewrite Hsz.
  destruct (Nat.eqb_spec (length xs) m); [lia|].
  destruct (Nat.ltb_spec m (length xs)); [|lia].
  rewrite (bind_Ret _ _ _ tt
             (mkWorld (<[a := splice m (replicate (length xs - m) Raw)
                                ((Live <$> xs)
                                 ++ replicate (capacity_ (data_ v) - length xs) Raw)]> h)
                      ob f (lg ++ (ev_destroy a <$> seq m (length xs - m))))).
  - rewrite (set_size_eq _ _ _ _ _ _ _ Hob). do 3 f_equal.
    rewrite <- (take_drop m xs) at 2. rewrite fmap_app, <- app_assoc.
    rewrite splice_at_app;
      [ | rewrite length_fmap, length_take; lia
        | rewrite length_fmap, length_drop, length_replicate; reflexivity ].
    rewrite <- replicate_add. do 2 f_equal. lia.
  - rewrite destroy_from_eq by lia. rewrite Hb.
    apply destroy_n_eq; [assumption|].
    apply live_seg_tail. lia.
Qed.

Lemma Resize_spec (w : World) (this : ref) (xs : list T) (c m : nat) :
  holds w this xs c -> fuse w = None ->
  exists w',
    Resize this m w = Ret tt w' /\
    fuse w' = None /\
    holds w' this (take m xs ++ replicate (m - length xs) dflt) (Nat.max c m) /\
    updates this w w' /\
    (m = length xs -> w' = w).
Proof.
  intros Hh Hf.
  destruct (Nat.lt_trichotomy m (length xs)) as [Hlt | [Heq | Hgt]].
  - (* shrink *)
    destruct Hh as (v & Hob & Hc & Hrep).
    destruct w as [h ob f lg]. simpl in *. subst c f.
    pose proof Hrep as (Hsz & Hle & Hbuf).
    destruct (buffer_ (data_ v)) as [a|] eqn:Hb; [|lia].
    eexists. split; [now apply (Resize_shrink this v xs a)|].
    split; [reflexivity|].
    replace (m - length xs) with 0 by lia. simpl replicate. rewrite app_nil_r.
    rewrite Nat.max_l by lia.
    split; [|split; [now apply (updates_inplace this v _ a) | lia]].
    eexists. split; [apply lookup_insert_eq|]. split; [reflexivity|].
    split; [simpl; rewrite length_take; lia|].
    split; [simpl; rewrite length_take; lia|].
    simpl. rewrite Hb. split; [lia|].
    rewrite lookup_insert_eq, length_take. do 3 f_equal. lia.
  - (* same size *)
    exists w. subst m.
    destruct Hh as (v & Hob & Hc & Hrep).
    destruct w as [h ob f lg]. simpl in *. subst c f.
    pose proof Hrep as (Hsz & Hle & Hbuf).
    split.
    { unfold Resize. step_by ltac:(apply get_vec_eq; eassumption).
      now rewrite Hsz, Nat.eqb_refl. }
    split; [reflexivity|].
    rewrite take_ge, Nat.sub_diag, app_nil_r, Nat.max_l by lia.
    split; [exists v; auto|]. split; [apply updates_refl | reflexivity].
  - (* grow *)
    destruct (Reserve_spec w this xs c m Hh Hf) as (w1 & Heq1 & Hf1 & Hh1 & Hup1).
    pose proof Hh as (v & Hob & Hc & Hrep).
    destruct Hh1 as (v1 & Hob1 & Hc1 & Hrep1).
    destruct w as [h ob f lg]. destruct w1 as [h1 ob1 f1 lg1]. simpl in *. subst f f1.
    pose proof Hrep as (Hsz & Hle & Hbuf).
    pose proof Hrep1 as (Hsz1 & Hle1 & Hbuf1).
    destruct (buffer_ (data_ v1)) as [a1|] eqn:Hb1; [|lia].
    destruct Hbuf1 as [Hpos1 Ha1].
    assert (Hblock : (Live <$> xs) ++ replicate (capacity_ (data_ v1) - length xs) Raw
                     = (Live <$> xs) ++ replicate (m - length xs) Raw
                         ++ replicate (capacity_ (data_ v1) - m) Raw).
    { rewrite <- replicate_add. do 2 f_equal. lia. }
    rewrite Hblock in Ha1.
    eexists. split.
    { unfold Resize. step_by ltac:(apply get_vec_eq; eassumption).
      rewrite Hsz.
      destruct (Nat.eqb_spec (length xs) m); [lia|].
      destruct (Nat.ltb_spec m (length xs)); [lia|].
      step_by ltac:(exact Heq1).
      step_by ltac:(apply get_vec_eq; eassumption).
      step_by ltac:(apply RawMemory_at_eq; lia).
      rewrite Hb1, Hsz1.
      unfold uninitialized_value_construct_n.
      step_by ltac:(eapply (uninitialized_value_eq a1 (m - length xs) _ (length xs) 0);
                    [ eassumption
                    | rewrite !length_app, length_fmap, !length_replicate; lia ]).
      apply set_size_eq. eassumption. }
    split; [reflexivity|].
    rewrite take_ge by lia.
    split; [|split; [|lia]].
    + eexists. split; [apply lookup_insert_eq|]. split; [simpl; exact Hc1|].
      split; [simpl; rewrite length_app, length_replicate; lia|].
      split; [simpl; rewrite length_app, length_replicate; lia|].
      simpl. rewrite Hb1. split; [lia|].
      rewrite lookup_insert_eq. f_equal.
      rewrite Nat.add_0_r, splice_at_app;
        [ | apply length_fmap | now rewrite !length_replicate ].
      rewrite fmap_app, fmap_replicate, <- app_assoc.
      rewrite length_app, length_replicate. do 3 f_equal. lia.
    + eapply updates_trans; [exact Hup1|].
      now apply (updates_inplace this v1 _ a1).
Qed.


(** ** The invariant of every vector object *)

Lemma all_live_fmap (l : list Slot) :
  forallb is_live l = true -> exists xs, l = Live <$> xs.
Proof.
  induction l as [|[|x] l IH]; simpl; intros H.
  - now exists [].
  - discriminate.
  - destruct (IH H) as [xs ->]. now exists (x :: xs).
Qed.

Lemma all_raw_replicate (l : list Slot) :
  forallb is_raw l = true -> l = replicate (length l) Raw.
Proof.
  induction l as [|[|x] l IH]; simpl; intros H; [reflexivity| |discriminate].
  f_equal. now apply IH.
Qed.

Lemma forallb_live_fmap (xs : list T) : forallb is_live (Live <$> xs) = true.
Proof. induction xs; simpl; auto. Qed.

Lemma forallb_raw_replicate n : forallb is_raw (replicate n Raw) = true.
Proof. induction n; simpl; auto. Qed.

(** The boolean invariant says that the vector represents some list of
    elements. *)
Lemma vec_inv_rep h v : vec_inv h v = true <-> exists xs, rep h v xs.
Proof.
  unfold vec_inv, rep. split.
  - intros H. apply andb_true_iff in H as [Hle H]. apply Nat.leb_le in Hle.
    destruct (buffer_ (data_ v)) as [a|].
    + apply andb_true_iff in H as [Hpos H]. apply Nat.ltb_lt in Hpos.
      destruct (h !! a) as [sl|]; [|discriminate].
      apply andb_true_iff in H as [H Hraw]. apply andb_true_iff in H as [Hlen Hlive].
      apply Nat.eqb_eq in Hlen.
      destruct (all_live_fmap _ Hlive) as [xs Hxs].
      apply all_raw_replicate in Hraw.
      assert (Hn : length xs = size_ v).
      { rewrite <- (length_fmap Live xs), <- Hxs, length_take. lia. }
      exists xs. split; [lia|]. split; [lia|]. split; [lia|].
      rewrite <- (take_drop (size_ v) sl) at 1.
      rewrite Hxs, Hraw, length_drop. do 3 f_equal. lia.
    + apply Nat.eqb_eq in H. exists []. simpl. repeat split; lia.
  - intros (xs & Hsz & Hle & Hbuf).
    apply andb_true_iff. split; [apply Nat.leb_le; lia|].
    destruct (buffer_ (data_ v)) as [a|].
    + destruct Hbuf as [Hpos ->].
      apply andb_true_iff. split; [now apply Nat.ltb_lt|].
      rewrite Hsz, <- (length_fmap Live xs).
      rewrite take_app_length, drop_app_length.
      rewrite forallb_live_fmap, forallb_raw_replicate, !andb_true_r.
      apply Nat.eqb_eq. rewrite length_app, !length_fmap, length_replicate. lia.
    + now apply Nat.eqb_eq.
Qed.

Lemma holds_vec_inv w this xs c v :
  holds w this xs c -> objs w !! this = Some v -> vec_inv (heap w) v = true.
Proof.
  intros (v' & Hob & _ & Hrep) Hv. assert (v' = v) as -> by congruence.
  apply vec_inv_rep. now exists xs.
Qed.

Lemma world_ok_holds w this :
  world_ok w -> alive w this -> exists xs c, holds w this xs c.
Proof.
  intros [Hinv _] [v Hv]. destruct (proj1 (vec_inv_rep _ _) (Hinv _ _ Hv)) as [xs Hrep].
  exists xs, (capacity_ (data_ v)), v. auto.
Qed.

Lemma vec_inv_frame h h' v :
  vec_inv h v = true ->
  (forall a sl, buffer_ (data_ v) = Some a -> h !! a = Some sl -> h' !! a = Some sl) ->
  vec_inv h' v = true.
Proof.
  unfold vec_inv. intros H Hh. destruct (buffer_ (data_ v)) as [a|]; [|assumption].
  destruct (h !! a) as [sl|] eqn:Ha.
  - now rewrite (Hh a sl eq_refl Ha).
  - rewrite !andb_false_r in H. discriminate.
Qed.

Lemma owned_block w p a :
  world_ok w -> buffer_of w p = Some a -> is_Some (heap w !! a).
Proof.
  intros [Hinv _]. unfold buffer_of.
  destruct (objs w !! p) as [v|] eqn:Hv; [|discriminate].
  intros Hb. specialize (Hinv _ _ Hv). unfold vec_inv in Hinv. rewrite Hb in Hinv.
  destruct (heap w !! a); [eauto|]. rewrite !andb_false_r in Hinv. discriminate.
Qed.

(** An operation with the footprint [updates this] keeps the invariant of
    the world when it establishes the invariant of [this]. *)
Lemma world_ok_update this w w' :
  world_ok w -> updates this w w' ->
  (forall v', objs w' !! this = Some v' -> vec_inv (heap w') v' = true) ->
  world_ok w'.
Proof.
  intros Hok (Hobj & Hheap & Hbuf) Hthis.
  pose proof Hok as [Hinv Hap].
  assert (Hother : forall q a, q <> this -> buffer_of w' q = Some a -> buffer_of w q = Some a).
  { intros q a Hq. unfold buffer_of. now rewrite (Hobj q Hq). }
  split.
  - intros p v Hp. destruct (decide (p = this)) as [->|Hne]; [now apply Hthis|].
    rewrite (Hobj p Hne) in Hp. apply (vec_inv_frame (heap w)); [now apply (Hinv p)|].
    intros a sl Hb Ha. apply Hheap; [|assumption].
    apply (Hap p this Hne a). unfold buffer_of. now rewrite Hp.
  - intros p q Hpq a Hp Hq.
    destruct (decide (p = this)) as [->|Hp']; destruct (decide (q = this)) as [->|Hq'].
    + congruence.
    + apply Hother in Hq; [|assumption].
      destruct (Hbuf a Hp) as [E|E]; [exact (Hap this q Hpq a E Hq)|].
      destruct (owned_block w q a Hok Hq) as [sl Hsl]. congruence.
    + apply Hother in Hp; [|assumption].
      destruct (Hbuf a Hq) as [E|E]; [exact (Hap p this Hpq a Hp E)|].
      destruct (owned_block w p a Hok Hp) as [sl Hsl]. congruence.
    + apply Hother in Hp; [|assumption]. apply Hother in Hq; [|assumption].
      exact (Hap p q Hpq a Hp Hq).
Qed.

Lemma world_ok_spec this w w' xs c :
  world_ok w -> updates this w w' -> holds w' this xs c -> world_ok w'.
Proof.
  intros Hok Hup Hh. apply (world_ok_update this w); [assumption | assumption |].
  intros v'. now apply (holds_vec_inv w' this xs c).
Qed.

Lemma world_ok_quiet w : world_ok (quiet w) <-> world_ok w.
Proof. reflexivity. Qed.

(** ** Normal returns do not depend on the countdown *)

Lemma quiet_fuse_None w : fuse w = None -> quiet w = w.
Proof. destruct w; simpl; intros ->; reflexivity. Qed.

Lemma sim_ret {A} (a : A) : sim (ret a).
Proof. intros w a' w' [= <- <-]. reflexivity. Qed.

Lemma sim_undef {A} : sim (@undef A).
Proof. intros w a w' H. discriminate. Qed.

Lemma sim_bind {A B} (m : M A) (k : A -> M B) :
  sim m -> (forall a, sim (k a)) -> sim (bind m k).
Proof.
  intros Hm Hk w b w' H. unfold bind in *.
  destruct (m w) as [a w1|w1| |] eqn:E; try discriminate.
  rewrite (Hm _ _ _ E). now apply Hk.
Qed.

Lemma sim_unwind {A} (m : M A) c : sim m -> sim (unwind m c).
Proof.
  intros Hm w a w' H. unfold unwind in *.
  destruct (m w) as [a1 w1|w1| |] eqn:E; try discriminate.
  - injection H as <- <-. now rewrite (Hm _ _ _ E).
  - destruct (c w1); discriminate.
Qed.

Lemma sim_noexcept {A} (m : M A) : sim m -> sim (noexcept m).
Proof.
  intros Hm w a w' H. unfold noexcept in *.
  destruct (m w) as [a1 w1|w1| |] eqn:E; try discriminate.
  injection H as <- <-. now rewrite (Hm _ _ _ E).
Qed.

Ltac sim_prim :=
  intros w a w' H;
  cbv [poke read slot_at dup Allocate Deallocate get_vec put_vec new_obj del_obj
       local_obj set_heap set_objs set_fuse add_log] in H |- *;
  cbn [heap objs fuse log quiet] in H |- *;
  repeat case_match; simplify_eq; reflexivity.

Lemma sim_poke p s e : sim (poke p s e).
Proof. sim_prim. Qed.

Lemma sim_read p : sim (read p).
Proof. sim_prim. Qed.

Lemma sim_dup x : sim (dup x).
Proof. sim_prim. Qed.

Lemma sim_Allocate n : sim (Allocate n).
Proof. sim_prim. Qed.

Lemma sim_Deallocate b : sim (Deallocate b).
Proof. sim_prim. Qed.

Lemma sim_get_vec this : sim (get_vec this).
Proof. sim_prim. Qed.

Lemma sim_put_vec this v : sim (put_vec this v).
Proof. sim_prim. Qed.

Lemma sim_new_obj this v : sim (new_obj this v).
Proof. sim_prim. Qed.

Lemma sim_del_obj this : sim (del_obj this).
Proof. sim_prim. Qed.

Lemma sim_local_obj : sim local_obj.
Proof. sim_prim. Qed.

Create HintDb sim.
#[local] Hint Resolve sim_poke sim_read sim_dup sim_Allocate sim_Deallocate sim_get_vec
  sim_put_vec sim_new_obj sim_del_obj sim_local_obj : sim.

(** The countdown is read by [dup] only, so every function built from the
    primitives is simulated. *)
Ltac sim_tac :=
  repeat first
    [ solve [auto with sim]
    | apply sim_ret
    | apply sim_undef
    | apply sim_bind
    | apply sim_unwind
    | apply sim_noexcept
    | progress intros
    | match goal with |- sim (if ?b then _ else _) => destruct b end
    | match goal with |- sim (match ?x with _ => _ end) => destruct x end ].

Lemma sim_destroy_n n : forall p, sim (destroy_n p n).
Proof. induction n as [|n IH]; intros p; simpl; unfold destroy_at; sim_tac. Qed.

Lemma sim_T_copy_ctor p : sim (T_copy_ctor p).
Proof. unfold T_copy_ctor. sim_tac. Qed.

Lemma sim_T_move_ctor p : sim (T_move_ctor p).
Proof. unfold T_move_ctor, T_copy_ctor. sim_tac. Qed.

Lemma sim_T_copy_assign p q : sim (T_copy_assign p q).
Proof. unfold T_copy_assign, assign_at. sim_tac. Qed.

Lemma sim_T_move_assign p q : sim (T_move_assign p q).
Proof. unfold T_move_assign, T_copy_assign, assign_at. sim_tac. Qed.

Lemma sim_T_assign_temp p x : sim (T_assign_temp p x).
Proof. unfold T_assign_temp, assign_at. sim_tac. Qed.

Lemma sim_T_construct args : sim (T_construct args).
Proof. unfold T_construct. sim_tac. Qed.

#[local] Hint Resolve sim_destroy_n sim_T_copy_ctor sim_T_move_ctor sim_T_copy_assign
  sim_T_move_assign sim_T_assign_temp sim_T_construct : sim.

Lemma sim_uninitialized_n ctor (Hctor : forall p, sim (ctor p)) n :
  forall first d_first done, sim (uninitialized_n ctor first n d_first done).
Proof.
  induction n as [|n IH]; intros first d_first done; simpl; unfold construct_at; sim_tac.
Qed.

Lemma sim_move_fwd n : forall first d_first, sim (move_fwd first n d_first).
Proof. induction n as [|n IH]; intros first d_first; simpl; sim_tac. Qed.

Lemma sim_assign_bwd asg (Hasg : forall p q, sim (asg p q)) n :
  forall last d_last, sim (assign_bwd asg last n d_last).
Proof.
  induction n as [|n IH]; intros last d_last; simpl; unfold ptr_dec; sim_tac.
Qed.

Lemma sim_distance p q : sim (distance p q).
Proof. unfold distance. sim_tac. Qed.

Lemma sim_RawMemory_plus r o : sim (RawMemory_plus r o).
Proof. unfold RawMemory_plus. sim_tac. Qed.

Lemma sim_RawMemory_at r o : sim (RawMemory_at r o).
Proof. unfold RawMemory_at. sim_tac. Qed.

Lemma sim_RawMemory_new n : sim (RawMemory_new n).
Proof. unfold RawMemory_new. sim_tac. Qed.

#[local] Hint Resolve sim_move_fwd sim_distance sim_RawMemory_plus sim_RawMemory_at
  sim_RawMemory_new : sim.

Lemma sim_uninitialized_copy_n p n q : sim (uninitialized_copy_n p n q).
Proof. apply sim_uninitialized_n. auto with sim. Qed.

Lemma sim_uninitialized_move_n p n q : sim (uninitialized_move_n p n q).
Proof. apply sim_uninitialized_n. auto with sim. Qed.

Lemma sim_uninitialized_value_construct_n p n : sim (uninitialized_value_construct_n p n).
Proof. apply sim_uninitialized_n. intros. apply sim_ret. Qed.

Lemma sim_move_backward p q r : sim (move_backward p q r).
Proof. unfold move_backward. apply sim_bind; [auto with sim|]. intros. apply sim_assign_bwd. auto with sim. Qed.

Lemma sim_copy_backward p q r : sim (copy_backward p q r).
Proof. unfold copy_backward. apply sim_bind; [auto with sim|]. intros. apply sim_assign_bwd. auto with sim. Qed.

Lemma sim_get_data this : sim (get_data this).
Proof. unfold get_data. sim_tac. Qed.

Lemma sim_get_size this : sim (get_size this).
Proof. unfold get_size. sim_tac. Qed.

Lemma sim_set_data this d : sim (set_data this d).
Proof. unfold set_data. sim_tac. Qed.

Lemma sim_set_size this n : sim (set_size this n).
Proof. unfold set_size. sim_tac. Qed.

#[local] Hint Resolve sim_uninitialized_copy_n sim_uninitialized_move_n
  sim_uninitialized_value_construct_n sim_move_backward sim_copy_backward
  sim_get_data sim_get_size sim_set_data sim_set_size : sim.

Lemma sim_set_buffer this b : sim (set_buffer this b).
Proof. unfold set_buffer. sim_tac. Qed.

Lemma sim_set_capacity this c : sim (set_capacity this c).
Proof. unfold set_capacity. sim_tac. Qed.

Lemma sim_begin this : sim (begin_ this).
Proof. unfold begin_. sim_tac. Qed.

Lemma sim_end this : sim (end_ this).
Proof. unfold end_. sim_tac. Qed.

Lemma sim_Vector_at this i : sim (Vector_at this i).
Proof. unfold Vector_at. sim_tac. Qed.

#[local] Hint Resolve sim_set_buffer sim_set_capacity sim_begin sim_end sim_Vector_at : sim.

Lemma sim_destroy_from d n : forall i, sim (destroy_from d i n).
Proof. induction n as [|n IH]; intros i; simpl; unfold destroy_at; sim_tac. Qed.

Lemma sim_assign_from d rhs n : forall i, sim (assign_from d rhs i n).
Proof. induction n as [|n IH]; intros i; simpl; sim_tac. Qed.

Lemma sim_construct_from d rhs n : forall i, sim (construct_from d rhs i n).
Proof. induction n as [|n IH]; intros i; simpl; unfold construct_at; sim_tac. Qed.

#[local] Hint Resolve sim_destroy_from sim_assign_from sim_construct_from : sim.

Lemma sim_Vector_default this : sim (Vector_default this).
Proof. unfold Vector_default. sim_tac. Qed.

Lemma sim_Vector_sized this n : sim (Vector_sized this n).
Proof. unfold Vector_sized. sim_tac. Qed.

Lemma sim_Vector_copy_ctor this other : sim (Vector_copy_ctor this other).
Proof. unfold Vector_copy_ctor. sim_tac. Qed.

Lemma sim_Vector_move_ctor this other : sim (Vector_move_ctor this other).
Proof. unfold Vector_move_ctor. sim_tac. Qed.

Lemma sim_Vector_dtor this : sim (Vector_dtor this).
Proof. unfold Vector_dtor, RawMemory_dtor. sim_tac. Qed.

Lemma sim_Reserve this n : sim (Reserve this n).
Proof. unfold Reserve, RawMemory_Swap_local, RawMemory_dtor. sim_tac. Qed.

#[local] Hint Resolve sim_Vector_copy_ctor sim_Vector_dtor sim_Reserve : sim.

Lemma sim_Resize this n : sim (Resize this n).
Proof. unfold Resize. sim_tac. Qed.

Lemma sim_EmplaceWMove this i args : sim (EmplaceWMove this i args).
Proof. unfold EmplaceWMove, construct_at. sim_tac. Qed.

Lemma sim_EmplaceWCopy this i args : sim (EmplaceWCopy this i args).
Proof. unfold EmplaceWCopy, construct_at. sim_tac. Qed.

#[local] Hint Resolve sim_EmplaceWMove sim_EmplaceWCopy : sim.

Lemma sim_Emplace this pos args : sim (Emplace this pos args).
Proof.
  unfold Emplace, cbegin, cend, RawMemory_Swap_local, RawMemory_dtor, construct_at.
  sim_tac.
Qed.

#[local] Hint Resolve sim_Emplace : sim.

Lemma sim_Erase this pos : sim (Erase this pos).
Proof. unfold Erase, cbegin, std_move, ptr_dec, destroy_at. sim_tac. Qed.

Lemma sim_EmplaceBack this args : sim (EmplaceBack this args).
Proof. unfold EmplaceBack, cend. sim_tac. Qed.

Lemma sim_PopBack this : sim (PopBack this).
Proof. unfold PopBack, destroy_at. sim_tac. Qed.

Lemma sim_Swap this other : sim (Swap this other).
Proof. unfold Swap, RawMemory_Swap. sim_tac. Qed.

#[local] Hint Resolve sim_Swap sim_EmplaceBack : sim.

Lemma sim_copy_assign this rhs : sim (copy_assign this rhs).
Proof. unfold copy_assign. sim_tac. Qed.

Lemma sim_move_assign this rhs : sim (move_assign this rhs).
Proof. unfold move_assign, RawMemory_move_assign. sim_tac. Qed.

#[local] Hint Resolve sim_Vector_default sim_Vector_sized sim_Vector_move_ctor sim_Resize
  sim_Erase sim_PopBack sim_copy_assign sim_move_assign : sim.

Lemma sim_run_op op : sim (run_op op).
Proof.
  destruct op; simpl;
    unfold Insert_copy, Insert_move, PushBack_copy, PushBack_move, Size, Capacity;
    sim_tac.
Qed.
(** ** Footprints of construction, destruction and assignment *)

Lemma updates_block this b n k sl h ob f lg f' lg' :
  b = None \/ b = buffer_of (mkWorld h ob f lg) this ->
  updates this (mkWorld h ob f lg)
    (mkWorld (free_block b (with_block h n sl))
             (<[this := mkVector (block_for h n) k]> ob) f' lg').
Proof.
  intros Hb. split; [|split]; simpl.
  - intros q Hq. now rewrite lookup_insert_ne by congruence.
  - intros a sl0 Hne Ha. apply free_block_other; [now apply with_block_other|].
    destruct Hb as [->| ->]; [discriminate | assumption].
  - intros a. rewrite (buffer_of_eq _ _ _ _ _ (mkVector (block_for h n) k))
      by apply lookup_insert_eq.
    unfold block_for. simpl. destruct (n =? 0); [discriminate|].
    intros [= <-]. right. apply fresh_None.
Qed.

Lemma updates_delete this h ob f lg f' lg' :
  updates this (mkWorld h ob f lg)
    (mkWorld (free_block (buffer_of (mkWorld h ob f lg) this) h) (delete this ob) f' lg').
Proof.
  split; [|split]; simpl.
  - intros q Hq. now rewrite lookup_delete_ne by congruence.
  - intros a sl0 Hne Ha. now apply free_block_other.
  - intros a. unfold buffer_of at 1. simpl. now rewrite lookup_delete_eq.
Qed.

Lemma updates_keep this v v' h h' ob f lg f' lg' :
  ob !! this = Some v -> buffer_ (data_ v') = buffer_ (data_ v) ->
  (forall a sl, buffer_ (data_ v) <> Some a -> h !! a = Some sl -> h' !! a = Some sl) ->
  updates this (mkWorld h ob f lg) (mkWorld h' (<[this := v']> ob) f' lg').
Proof.
  intros Hob Hb Hh. split; [|split]; simpl.
  - intros q Hq. now rewrite lookup_insert_ne by congruence.
  - intros a sl. rewrite (buffer_of_eq _ _ _ _ _ _ Hob). apply Hh.
  - intros a. rewrite (buffer_of_eq _ _ _ _ _ v') by apply lookup_insert_eq.
    rewrite (buffer_of_eq _ _ _ _ _ _ Hob). left. congruence.
Qed.

(** ** The remaining operations when no duplication fails *)

Lemma Vector_sized_eq this n h ob f lg :
  ob !! this = None ->
  exists lg',
    Vector_sized this n (mkWorld h ob f lg)
    = Ret tt (mkWorld (with_block h n (Live <$> replicate n dflt))
                      (<[this := mkVector (block_for h n) n]> ob) f lg').
Proof.
  intros Hob. unfold Vector_sized, block_for, with_block.
  destruct (Nat.eqb_spec n 0) as [->|Hn].
  - step_by ltac:(apply RawMemory_new_0).
    step_by ltac:(apply new_obj_eq; eassumption).
    eexists. reflexivity.
  - step_by ltac:(apply RawMemory_new_eq; assumption).
    step_by ltac:(apply new_obj_eq; eassumption).
    unfold GetAddress, uninitialized_value_construct_n. simpl buffer_.
    erewrite unwind_Ret; cycle 1.
    { eapply (uninitialized_value_eq (fresh (dom h)) n _ 0 0).
      - apply lookup_insert_eq.
      - rewrite length_replicate. lia. }
    eexists. rewrite insert_insert_eq. simpl "+".
    rewrite <- fmap_replicate.
    rewrite splice_prefix by (rewrite length_replicate; lia).
    rewrite length_replicate, Nat.sub_diag. simpl replicate. rewrite app_nil_r.
    reflexivity.
Qed.

Lemma PopBack_eq this v ys x a h ob f lg :
  ob !! this = Some v -> rep h v (ys ++ [x]) -> buffer_ (data_ v) = Some a ->
  PopBack this (mkWorld h ob f lg)
  = Ret tt (mkWorld (<[a := (Live <$> ys) ++ replicate (capacity_ (data_ v) - length ys) Raw]> h)
                    (<[this := mkVector (data_ v) (length ys)]> ob) f
                    (lg ++ [ev_destroy a (length ys)])).
Proof.
  intros Hob (Hsz & Hle & Hbuf) Hb. rewrite Hb in Hbuf. destruct Hbuf as [Hc Ha].
  rewrite length_app in Hsz, Hle, Ha. simpl length in Hsz, Hle, Ha.
  rewrite fmap_app, <- app_assoc in Ha. simpl in Ha.
  unfold PopBack. apply noexcept_Ret.
  step_by ltac:(apply get_vec_eq; eassumption).
  destruct (Nat.eqb_spec (size_ v) 0); [lia|].
  step_by ltac:(apply RawMemory_at_eq; lia).
  rewrite Hb. replace (size_ v - 1) with (length ys) by lia.
  step_by ltac:(eapply (destroy_at_eq a (length ys) x);
                [ eassumption | apply lookup_middle; apply length_fmap ]).
  rewrite (set_size_eq _ _ _ _ _ _ _ Hob). f_equal. f_equal.
  rewrite (insert_middle (Live <$> ys)) by apply length_fmap.
  do 2 f_equal.
  replace (capacity_ (data_ v) - length ys)
    with (S (capacity_ (data_ v) - (length ys + 1))) by lia.
  reflexivity.
Qed.

Lemma T_copy_assign_eq a b i j x y h ob lg sla slb :
  h !! a = Some sla -> h !! b = Some slb ->
  sla !! i = Some (Live y) -> slb !! j = Some (Live x) ->
  T_copy_assign (mkPtr (Some a) i) (mkPtr (Some b) j) (mkWorld h ob None lg)
  = Ret tt (mkWorld (<[a := <[i := Live x]> sla]> h) ob None (lg ++ [ev_assign a i])).
Proof.
  intros Ha Hb Hi Hj. unfold T_copy_assign.
  step_by ltac:(eapply read_eq; eassumption).
  step_by ltac:(apply dup_eq; exact I).
  simpl spend.
  eapply assign_at_eq; eassumption.
Qed.

Lemma Vector_at_eq this v i h ob f lg :
  ob !! this = Some v -> i < size_ v -> size_ v <= capacity_ (data_ v) ->
  Vector_at this i (mkWorld h ob f lg) = Ret (mkPtr (buffer_ (data_ v)) i) (mkWorld h ob f lg).
Proof.
  intros Hob Hi Hle. unfold Vector_at.
  step_by ltac:(apply get_vec_eq; eassumption).
  destruct (Nat.ltb_spec i (size_ v)); [|lia].
  apply RawMemory_at_eq. lia.
Qed.

Lemma drop_take_S {A} (ys : list A) i n x :
  ys !! i = Some x -> take (S n) (drop i ys) = x :: take n (drop (S i) ys).
Proof. intros H. now rewrite (drop_S _ _ _ H). Qed.

(** The assigning loop of copy assignment: slots [i, i + n) of the block
    [a] receive the elements [i, i + n) of [rhs]. *)
Lemma assign_from_eq a b (Hab : a <> b) d rhs vr ys R ob :
  buffer_ d = Some a -> buffer_ (data_ vr) = Some b ->
  size_ vr = length ys -> length ys <= capacity_ (data_ vr) ->
  ob !! rhs = Some vr ->
  forall n i h lg sla,
  h !! a = Some sla -> h !! b = Some ((Live <$> ys) ++ R) ->
  i + n <= length ys -> i + n <= capacity_ d ->
  live_seg i n sla ->
  exists lg',
    assign_from d rhs i n (mkWorld h ob None lg)
    = Ret tt (mkWorld (<[a := splice i (Live <$> take n (drop i ys)) sla]> h) ob None lg').
Proof.
  intros Hd Hr Hsz Hcap Hob.
  induction n as [|n IH]; intros i h lg sla Ha Hb Hi Hc Hlive.
  - exists lg. simpl. rewrite splice_nil, insert_id by assumption. reflexivity.
  - destruct (lookup_lt_is_Some_2 ys i) as [x Hx]; [lia|].
    destruct (Hlive 0) as [y Hy]; [lia|]. rewrite Nat.add_0_r in Hy.
    simpl assign_from.
    step_by ltac:(apply RawMemory_at_eq; lia).
    step_by ltac:(apply Vector_at_eq; [eassumption | lia | lia]).
    rewrite Hd, Hr.
    step_by ltac:(eapply (T_copy_assign_eq a b i i x y); [eassumption | eassumption | eassumption |];
                  rewrite lookup_app_l by (rewrite length_fmap; lia);
                  rewrite list_lookup_fmap, Hx; reflexivity).
    destruct (IH (S i) (<[a := <[i := Live x]> sla]> h) (lg ++ [ev_assign a i])
                (<[i := Live x]> sla)) as [lg' Heq].
    + apply lookup_insert_eq.
    + now rewrite lookup_insert_ne by congruence.
    + lia.
    + lia.
    + intros k Hk. destruct (Hlive (S k)) as [z Hz]; [lia|]. exists z.
      rewrite list_lookup_insert_ne by lia.
      now replace (S i + k) with (i + S k) by lia.
    + exists lg'. rewrite Heq, insert_insert_eq.
      rewrite (drop_take_S _ _ _ _ Hx), fmap_cons.
      rewrite splice_cons_insert by (now apply lookup_lt_Some in Hy).
      reflexivity.
Qed.

(** The constructing loop of copy assignment: the raw slots [i, i + n) of
    the block [a] receive duplicates of the elements [i, i + n) of [rhs]. *)
Lemma construct_from_eq a b (Hab : a <> b) d rhs vr ys R ob :
  buffer_ d = Some a -> buffer_ (data_ vr) = Some b ->
  size_ vr = length ys -> length ys <= capacity_ (data_ vr) ->
  ob !! rhs = Some vr ->
  forall n i h lg sla,
  h !! a = Some sla -> h !! b = Some ((Live <$> ys) ++ R) ->
  i + n <= length ys -> i + n <= capacity_ d -> i + n <= length sla ->
  exists lg',
    construct_from d rhs i n (mkWorld h ob None lg)
    = Ret tt (mkWorld (<[a := splice i (Live <$> take n (drop i ys)) sla]> h) ob None lg').
Proof.
  intros Hd Hr Hsz Hcap Hob.
  induction n as [|n IH]; intros i h lg sla Ha Hb Hi Hc Hlen.
  - exists lg. simpl. rewrite splice_nil, insert_id by assumption. reflexivity.
  - destruct (lookup_lt_is_Some_2 ys i) as [x Hx]; [lia|].
    simpl construct_from.
    step_by ltac:(apply RawMemory_plus_eq; lia).
    step_by ltac:(apply Vector_at_eq; [eassumption | lia | lia]).
    rewrite Hd, Hr.
    step_by ltac:(eapply (T_copy_ctor_eq b i x); [eassumption | | exact I];
                  rewrite lookup_app_l by (rewrite length_fmap; lia);
                  rewrite list_lookup_fmap, Hx; reflexivity).
    simpl spend.
    step_by ltac:(apply construct_at_eq; [eassumption | lia]).
    destruct (IH (S i) (<[a := <[i := Live x]> sla]> h)
                (lg ++ [EvConstruct (mkPtr (Some a) i)])
                (<[i := Live x]> sla)) as [lg' Heq].
    + apply lookup_insert_eq.
    + now rewrite lookup_insert_ne by congruence.
    + lia.
    + lia.
    + rewrite length_insert. lia.
    + exists lg'. rewrite Heq, insert_insert_eq.
      rewrite (drop_take_S _ _ _ _ Hx), fmap_cons.
      rewrite splice_cons_insert by lia.
      reflexivity.
Qed.

(** Copy assignment into a block that is large enough: the common prefix
    is assigned, the surplus of the old elements is destroyed or the missing
    elements are constructed, and the size is set last. *)
Lemma copy_assign_reuse this rhs vt vr xs ys h ob lg :
  this <> rhs ->
  ob !! this = Some vt -> ob !! rhs = Some vr ->
  rep h vt xs -> rep h vr ys ->
  (forall a, buffer_ (data_ vt) = Some a -> buffer_ (data_ vr) <> Some a) ->
  length ys <= capacity_ (data_ vt) ->
  exists h' lg',
    copy_assign this rhs (mkWorld h ob None lg)
    = Ret tt (mkWorld h' (<[this := mkVector (data_ vt) (length ys)]> ob) None lg') /\
    rep h' (mkVector (data_ vt) (length ys)) ys /\
    (forall a sl, buffer_ (data_ vt) <> Some a -> h !! a = Some sl -> h' !! a = Some sl).
Proof.
  intros Hne Ht Hr Hrt Hrr Hap Hcap.
  pose proof Hrt as (Hszt & Hlet & Hbuft). pose proof Hrr as (Hszr & Hler & Hbufr).
  unfold copy_assign.
  destruct (Nat.eqb_spec this rhs); [contradiction|]. cbn [negb].
  step_by ltac:(apply get_vec_eq; eassumption).
  step_by ltac:(apply get_vec_eq; eassumption).
  rewrite Hszr, Hszt.
  destruct (Nat.ltb_spec (capacity_ (data_ vt)) (length ys)); [lia|].
  set (c := capacity_ (data_ vt)) in *.
  set (m := length ys) in *. set (k := length xs) in *.
  assert (Em : length ys = m) by reflexivity.
  assert (Ek : length xs = k) by reflexivity.
  destruct (buffer_ (data_ vt)) as [a|] eqn:Hba.
  2:{ assert (Hm : m = 0) by lia. assert (Hk : k = 0) by lia.
      rewrite Hm, Hk. simpl.
      step_by ltac:(reflexivity). step_by ltac:(reflexivity).
      exists h, lg. split; [now apply set_size_eq|].
      split; [|auto].
      apply nil_length_inv in Hm. subst ys.
      split; [reflexivity|]. split; [simpl; lia|]. simpl. now rewrite Hba. }
  destruct Hbuft as [Hct Ha].
  assert (Hb : m = 0 \/ exists b R, a <> b /\ buffer_ (data_ vr) = Some b /\
                                    h !! b = Some ((Live <$> ys) ++ R)).
  { destruct (buffer_ (data_ vr)) as [b|] eqn:Hbb; [right | left; lia].
    destruct Hbufr as [_ Hb]. eexists b, _. split; [|split; [reflexivity | exact Hb]].
    intros <-. exact (Hap a eq_refl eq_refl). }
  exists (<[a := (Live <$> ys) ++ replicate (c - m) Raw]> h).
  assert (Hrep' : rep (<[a := (Live <$> ys) ++ replicate (c - m) Raw]> h)
                      (mkVector (data_ vt) m) ys).
  { split; [reflexivity|]. split; [assumption|]. simpl. rewrite Hba.
    split; [assumption | apply lookup_insert_eq]. }
  assert (Hframe : forall a0 sl, Some a <> Some a0 -> h !! a0 = Some sl ->
                     <[a := (Live <$> ys) ++ replicate (c - m) Raw]> h !! a0 = Some sl).
  { intros a0 sl Hne0 H0. now rewrite lookup_insert_ne by congruence. }
  destruct (Nat.leb_spec m k) as [Hle|Hgt].
  - (* the assigned-to vector is at least as long *)
    assert (Hsplit : (Live <$> xs) ++ replicate (c - k) Raw
                     = (Live <$> take m xs) ++ (Live <$> drop m xs) ++ replicate (c - k) Raw).
    { rewrite <- (take_drop m xs) at 1. now rewrite fmap_app, <- app_assoc. }
    set (sl1 := (Live <$> ys) ++ (Live <$> drop m xs) ++ replicate (c - k) Raw).
    assert (Hassign : exists lg1,
              assign_from (data_ vt) rhs 0 m (mkWorld h ob None lg)
              = Ret tt (mkWorld (<[a := sl1]> h) ob None lg1)).
    { destruct Hb as [Hm0 | (b & R & Hab & Hbb & Hhb)].
      - exists lg. rewrite Hm0. simpl. unfold sl1.
        pose proof Hm0 as Hys. apply nil_length_inv in Hys. rewrite Hys.
        replace (drop m xs) with xs by (rewrite Hm0; reflexivity).
        simpl. rewrite insert_id by assumption. reflexivity.
      - destruct (assign_from_eq a b Hab (data_ vt) rhs vr ys R ob Hba Hbb Hszr Hler Hr
                    m 0 h lg _ Ha Hhb) as [lg1 Heq]; [lia | lia | |].
        { apply live_seg_prefix. lia. }
        exists lg1. rewrite Heq. do 3 f_equal.
        rewrite drop_0, take_ge by lia. rewrite Hsplit.
        apply splice_at_app0. rewrite !length_fmap, length_take. lia. }
    destruct Hassign as [lg1 Heq1].
    step_by ltac:(exact Heq1).
    step_by ltac:(rewrite destroy_from_eq by lia; rewrite Hba;
                  apply (destroy_n_eq a (k - m) m _ _ _ _ sl1);
                  [ apply lookup_insert_eq
                  | apply (live_seg_of_segment _ _ _ (drop m xs));
                    [ unfold sl1; rewrite drop_app_length' by (rewrite length_fmap; lia);
                      apply take_app_length'; rewrite length_fmap, length_drop; lia
                    | rewrite length_drop; lia ] ]).
    eexists. split; [|split; [exact Hrep' | exact Hframe]].
    rewrite (set_size_eq _ _ _ _ _ _ _ Ht). do 2 f_equal.
    rewrite insert_insert_eq. f_equal. unfold sl1.
    rewrite splice_at_app;
      [ | apply length_fmap | rewrite length_fmap, length_drop, length_replicate; reflexivity ].
    rewrite <- replicate_add. do 2 f_equal. lia.
  - (* the assigned-to vector is shorter *)
    destruct Hb as [Hm0 | (b & R & Hab & Hbb & Hhb)]; [lia|].
    set (sl1 := (Live <$> take k ys) ++ replicate (c - k) Raw).
    assert (Hassign : exists lg1,
              assign_from (data_ vt) rhs 0 k (mkWorld h ob None lg)
              = Ret tt (mkWorld (<[a := sl1]> h) ob None lg1)).
    { destruct (assign_from_eq a b Hab (data_ vt) rhs vr ys R ob Hba Hbb Hszr Hler Hr
                  k 0 h lg _ Ha Hhb) as [lg1 Heq]; [lia | lia | |].
      { apply live_seg_prefix. lia. }
      exists lg1. rewrite Heq. do 3 f_equal.
      rewrite drop_0. apply splice_at_app0. rewrite !length_fmap, length_take. lia. }
    destruct Hassign as [lg1 Heq1].
    step_by ltac:(exact Heq1).
    assert (Hlen1 : length sl1 = c).
    { unfold sl1. rewrite length_app, length_fmap, length_take, length_replicate. lia. }
    destruct (construct_from_eq a b Hab (data_ vt) rhs vr ys R ob Hba Hbb Hszr Hler Hr
                (m - k) k (<[a := sl1]> h) lg1 sl1) as [lg2 Heq2].
    { apply lookup_insert_eq. }
    { now rewrite lookup_insert_ne by congruence. }
    { lia. } { fold c. lia. } { lia. }
    step_by ltac:(exact Heq2).
    eexists. split; [|split; [exact Hrep' | exact Hframe]].
    rewrite (set_size_eq _ _ _ _ _ _ _ Ht). do 2 f_equal.
    rewrite insert_insert_eq. f_equal. unfold sl1.
    rewrite take_ge by (rewrite length_drop; lia).
    replace (c - k) with ((m - k) + (c - m)) by lia. rewrite replicate_add.
    rewrite splice_at_app;
      [ | rewrite length_fmap, length_take; lia
        | rewrite length_fmap, length_drop, length_replicate; reflexivity ].
    rewrite app_assoc, <- fmap_app, take_drop. reflexivity.
Qed.

(** ** Every operation keeps the invariant of the world *)

Lemma buffer_of_insert h ob f lg p v q :
  buffer_of (mkWorld h (<[p := v]> ob) f lg) q
  = if decide (p = q) then buffer_ (data_ v) else buffer_of (mkWorld h ob f lg) q.
Proof. unfold buffer_of. simpl. rewrite lookup_insert. now case_decide. Qed.

(** Ownership of a block passes from [other] to [this]. *)
Lemma world_ok_transfer this other vo h ob f lg :
  world_ok (mkWorld h ob f lg) -> this <> other -> ob !! other = Some vo ->
  world_ok (mkWorld h (<[other := mkVector (mkRaw None 0) 0]> (<[this := vo]> ob)) f lg).
Proof.
  intros [Hinv Hap] Hne Ho. simpl in Hinv. split.
  - simpl. intros p v. rewrite !lookup_insert. repeat case_decide; subst.
    + intros [= <-]. reflexivity.
    + intros [= <-]. now apply (Hinv other).
    + apply Hinv.
  - intros p q Hpq a. rewrite !buffer_of_insert. simpl.
    pose proof (buffer_of_eq h ob f lg other vo Ho) as Hbo.
    repeat case_decide; subst; try discriminate; try congruence.
    + rewrite <- Hbo. apply Hap. congruence.
    + intros Hp. rewrite <- Hbo. intros Hq. now apply (Hap p other ltac:(congruence) a).
    + now apply Hap.
Qed.

(** Two objects exchange their blocks. *)
Lemma world_ok_swap this other vt vo h ob f lg :
  world_ok (mkWorld h ob f lg) -> ob !! this = Some vt -> ob !! other = Some vo ->
  world_ok (mkWorld h (<[other := vt]> (<[this := vo]> ob)) f lg).
Proof.
  intros [Hinv Hap] Ht Ho. simpl in Hinv. split.
  - simpl. intros p v. rewrite !lookup_insert. repeat case_decide; subst.
    + intros [= <-]. now apply (Hinv this).
    + intros [= <-]. now apply (Hinv other).
    + apply Hinv.
  - pose proof (buffer_of_eq h ob f lg other vo Ho) as Hbo.
    pose proof (buffer_of_eq h ob f lg this vt Ht) as Hbt.
    intros p q Hpq a. rewrite !buffer_of_insert.
    repeat case_decide; subst; try congruence;
      rewrite <- ?Hbo, <- ?Hbt; apply Hap; congruence.
Qed.

Lemma Erase_spec (w : World) (this : ref) (xs : list T) (c i : nat) :
  holds w this xs c -> i < length xs -> fuse w = None ->
  exists w' r,
    Erase this (iter_at w this i) w = Ret r w' /\
    fuse w' = None /\
    holds w' this (take i xs ++ drop (S i) xs) c /\
    updates this w w'.
Proof.
  intros (v & Hob & Hc & Hrep) Hi Hf.
  destruct w as [h ob f lg]. simpl in *. subst c f.
  destruct (lookup_lt_is_Some_2 xs i Hi) as [x Hx].
  pose proof (take_drop_middle xs i x Hx) as Hxs.
  set (pfx := take i xs) in *. set (ys := drop (S i) xs) in *.
  assert (Hpfx : length pfx = i) by (unfold pfx; rewrite length_take; lia).
  rewrite <- Hxs in Hrep.
  destruct (buffer_ (data_ v)) as [a|] eqn:Hb.
  2:{ destruct Hrep as (_ & Hle & Hbuf). rewrite Hb in Hbuf.
      rewrite length_app in Hle. simpl in Hle. lia. }
  pose proof (Erase_eq this v pfx x ys a h ob lg Hob Hrep Hb) as Heq.
  rewrite Hpfx in Heq.
  rewrite (holds_iter_at _ _ _ _ _ _ _ Hob), Hb.
  eexists _, _. split; [exact Heq|]. split; [reflexivity|].
  split; [|now apply (updates_inplace this v _ a)].
  eexists. split; [apply lookup_insert_eq|]. split; [reflexivity|].
  destruct Hrep as (Hsz & Hle & Hbuf). rewrite length_app in Hle. simpl in Hle.
  split; [reflexivity|]. simpl. split; [rewrite length_app; lia|].
  rewrite Hb. split; [lia | apply lookup_insert_eq].
Qed.

Lemma PopBack_spec (w : World) (this : ref) (xs : list T) (c : nat) :
  holds w this xs c -> 0 < length xs ->
  exists w',
    PopBack this w = Ret tt w' /\
    fuse w' = fuse w /\
    holds w' this (take (length xs - 1) xs) c /\
    updates this w w'.
Proof.
  intros (v & Hob & Hc & Hrep) Hpos.
  destruct w as [h ob f lg]. simpl in *. subst c.
  assert (Hsnoc : exists ys x, xs = ys ++ [x]).
  { destruct xs as [|x0 xs'] using rev_ind; [simpl in Hpos; lia | eauto]. }
  destruct Hsnoc as (ys & x & ->).
  rewrite length_app. simpl length.
  replace (length ys + 1 - 1) with (length ys) by lia.
  rewrite take_app_length.
  destruct (buffer_ (data_ v)) as [a|] eqn:Hb.
  2:{ destruct Hrep as (_ & Hle & Hbuf). rewrite Hb in Hbuf.
      rewrite length_app in Hle. simpl in Hle. lia. }
  eexists. split; [now apply (PopBack_eq this v ys x a)|].
  split; [reflexivity|].
  split; [|now apply (updates_inplace this v _ a)].
  eexists. split; [apply lookup_insert_eq|]. split; [reflexivity|].
  destruct Hrep as (Hsz & Hle & Hbuf). rewrite length_app in Hle. simpl in Hle.
  split; [reflexivity|]. simpl. split; [lia|].
  rewrite Hb. split; [lia | apply lookup_insert_eq].
Qed.

Lemma copy_assign_spec (w : World) (this rhs : ref) (xs ys : list T) (c cr : nat) :
  holds w this xs c -> holds w rhs ys cr -> this <> rhs -> apart w this rhs ->
  fuse w = None ->
  exists w',
    copy_assign this rhs w = Ret tt w' /\
    fuse w' = None /\
    holds w' this ys (if c <? length ys then length ys else c) /\
    updates this w w'.
Proof.
  intros (vt & Ht & Hc & Hrt) (vr & Hr & Hcr & Hrr) Hne Hap Hf.
  destruct w as [h ob f lg]. simpl in *. subst c cr f.
  destruct (Nat.ltb_spec (capacity_ (data_ vt)) (length ys)) as [Hlt|Hge].
  - destruct (copy_assign_grow this rhs vt vr xs ys h ob None lg Hne Ht Hr Hrt Hrr Hlt I)
      as [lg' Heq].
    eexists. split; [exact Heq|]. split; [reflexivity|].
    split.
    + eexists. split; [apply lookup_insert_eq|]. split.
      { unfold block_for. reflexivity. }
      apply (rep_frame (with_block h (length ys) (Live <$> ys))); [apply rep_block_for|].
      intros a Ha. unfold block_for in Ha. simpl in Ha.
      destruct (length ys =? 0); [discriminate|]. injection Ha as <-.
      destruct (buffer_ (data_ vt)) as [a|] eqn:Hb; simpl; [|reflexivity].
      rewrite lookup_delete_ne; [reflexivity|].
      exact (rep_fresh h vt xs a Hrt Hb).
    + apply updates_block. right. symmetry. now apply buffer_of_eq.
  - destruct (copy_assign_reuse this rhs vt vr xs ys h ob lg Hne Ht Hr Hrt Hrr) as
      (h' & lg' & Heq & Hrep' & Hframe); [|assumption|].
    { intros a Ha. specialize (Hap a). unfold buffer_of in Hap. simpl in Hap.
      rewrite Ht, Hr in Hap. auto. }
    eexists. split; [exact Heq|]. split; [reflexivity|].
    split.
    + eexists. split; [apply lookup_insert_eq|]. split; [reflexivity | exact Hrep'].
    + now apply (updates_keep this vt).
Qed.

Lemma world_ok_rep w this v :
  world_ok w -> objs w !! this = Some v -> exists xs, rep (heap w) v xs.
Proof. intros [Hinv _] Hv. apply vec_inv_rep. now apply (Hinv this). Qed.

Lemma rep_holds w this v xs :
  objs w !! this = Some v -> rep (heap w) v xs -> holds w this xs (capacity_ (data_ v)).
Proof. intros Hv Hrep. exists v. auto. Qed.

(** Called within its precondition in a world that satisfies the
    invariant, with no failing duplication, every public operation returns,
    and the world it returns satisfies the invariant. *)
Lemma run_op_quiet op w :
  world_ok w -> fuse w = None -> op_pre op w ->
  exists w', run_op op w = Ret tt w' /\ world_ok w'.
Proof.
  intros Hok Hf Hpre. destruct op; simpl in Hpre |- *.
  - (* Vector() *)
    destruct w as [h ob f lg]; simpl in *.
    eexists. split; [now apply new_obj_eq|].
    apply (world_ok_spec this (mkWorld h ob f lg) _ [] 0 Hok).
    + exact (updates_block this None 0 0 [] h ob f lg f lg (or_introl eq_refl)).
    + apply holds_empty, lookup_insert_eq.
  - (* Vector(size) *)
    destruct w as [h ob f lg]; simpl in *.
    destruct (Vector_sized_eq this n h ob f lg Hpre) as [lg' Heq].
    eexists. split; [exact Heq|].
    apply (world_ok_spec this _ _ (replicate n dflt) n Hok).
    + exact (updates_block this None n n _ h ob f lg f lg' (or_introl eq_refl)).
    + eexists. split; [apply lookup_insert_eq|]. split; [reflexivity|].
      pose proof (rep_block_for h (replicate n dflt)) as H.
      rewrite length_replicate in H. exact H.
  - (* Vector(const Vector&) *)
    destruct Hpre as [Hnone [vo Ho]].
    destruct (world_ok_rep w other vo Hok Ho) as [ys Hrr].
    destruct w as [h ob f lg]; simpl in *. subst f.
    destruct (Vector_copy_ctor_eq this other vo ys h ob None lg Hnone Ho Hrr I) as [lg' Heq].
    eexists. split; [exact Heq|].
    apply (world_ok_spec this _ _ ys (length ys) Hok);
      [exact (updates_block this None _ _ _ h ob None lg _ lg' (or_introl eq_refl))|].
    eexists. split; [apply lookup_insert_eq|]. split; [reflexivity | apply rep_block_for].
  - (* Vector(Vector&&) *)
    destruct Hpre as [Hnone [vo Ho]].
    destruct w as [h ob f lg]; simpl in *.
    eexists. split; [apply (Vector_move_ctor_eq this other vo); assumption|].
    apply world_ok_transfer; [assumption | congruence | assumption].
  - (* ~Vector() *)
    destruct Hpre as [v Hv].
    destruct (world_ok_rep w this v Hok Hv) as [xs Hrep].
    destruct w as [h ob f lg]; simpl in *.
    destruct (Vector_dtor_eq this v xs h ob f lg Hv Hrep) as [lg' Heq].
    eexists. split; [exact Heq|].
    apply (world_ok_update this _ _ Hok).
    + rewrite <- (buffer_of_eq h ob f lg this v Hv). apply updates_delete.
    + simpl. intros v'. rewrite lookup_delete_eq. discriminate.
  - (* begin() *)
    destruct Hpre as [v Hv]. destruct w as [h ob f lg]; simpl in *.
    exists (mkWorld h ob f lg). split; [|assumption].
    now rewrite (bind_Ret _ _ _ _ _ (cbegin_eq this v h ob f lg Hv)).
  - (* end() *)
    destruct Hpre as [v Hv].
    destruct (world_ok_rep w this v Hok Hv) as [xs (Hsz & Hle & _)].
    destruct w as [h ob f lg]; simpl in *.
    exists (mkWorld h ob f lg). split; [|assumption].
    now rewrite (bind_Ret _ _ _ _ _ (end_eq this v h ob f lg Hv ltac:(lia))).
  - (* Size() *)
    destruct Hpre as [v Hv]. destruct w as [h ob f lg]; simpl in *.
    exists (mkWorld h ob f lg). split; [|assumption].
    now rewrite (bind_Ret _ _ _ _ _ (get_size_eq this v h ob f lg Hv)).
  - (* Capacity() *)
    destruct Hpre as [v Hv]. destruct w as [h ob f lg]; simpl in *.
    exists (mkWorld h ob f lg). split; [|assumption].
    unfold Capacity.
    erewrite bind_Ret; [reflexivity|].
    now rewrite (bind_Ret _ _ _ _ _ (get_data_eq this v h ob f lg Hv)).
  - (* operator[] *)
    destruct Hpre as (v & Hv & Hi).
    destruct (world_ok_rep w this v Hok Hv) as [xs (Hsz & Hle & _)].
    destruct w as [h ob f lg]; simpl in *.
    exists (mkWorld h ob f lg). split; [|assumption].
    now rewrite (bind_Ret _ _ _ _ _ (Vector_at_eq this v i h ob f lg Hv Hi ltac:(lia))).
  - (* Reserve *)
    destruct Hpre as [v Hv].
    destruct (world_ok_rep w this v Hok Hv) as [xs Hrep].
    destruct (Reserve_spec w this xs _ n (rep_holds w this v xs Hv Hrep) Hf)
      as (w' & Heq & _ & Hh' & Hup).
    exists w'. split; [exact Heq | exact (world_ok_spec _ _ _ _ _ Hok Hup Hh')].
  - (* Resize *)
    destruct Hpre as [v Hv].
    destruct (world_ok_rep w this v Hok Hv) as [xs Hrep].
    destruct (Resize_spec w this xs _ n (rep_holds w this v xs Hv Hrep) Hf)
      as (w' & Heq & _ & Hh' & Hup & _).
    exists w'. split; [exact Heq | exact (world_ok_spec _ _ _ _ _ Hok Hup Hh')].
  - (* Emplace *)
    destruct Hpre as (v & i & Hv & -> & Hi).
    destruct (world_ok_rep w this v Hok Hv) as [xs Hrep].
    pose proof Hrep as (Hsz & _).
    destruct (Emplace_spec w this xs _ i args (rep_holds w this v xs Hv Hrep)
                ltac:(lia) Hf) as (w' & r & Heq & _ & _ & Hh' & Hup).
    unfold iter_at in Heq. rewrite Hv in Heq.
    exists w'. split; [|exact (world_ok_spec _ _ _ _ _ Hok Hup Hh')].
    now rewrite (bind_Ret _ _ _ _ _ Heq).
  - (* Insert(pos, const T&) *)
    destruct Hpre as (v & i & Hv & -> & Hi).
    destruct (world_ok_rep w this v Hok Hv) as [xs Hrep].
    pose proof Hrep as (Hsz & _).
    destruct (Emplace_spec w this xs _ i (CopyOf x) (rep_holds w this v xs Hv Hrep)
                ltac:(lia) Hf) as (w' & r & Heq & _ & _ & Hh' & Hup).
    unfold iter_at in Heq. rewrite Hv in Heq.
    exists w'. split; [|exact (world_ok_spec _ _ _ _ _ Hok Hup Hh')].
    unfold Insert_copy. now rewrite (bind_Ret _ _ _ _ _ Heq).
  - (* Insert(pos, T&&) *)
    destruct Hpre as (v & i & Hv & -> & Hi).
    destruct (world_ok_rep w this v Hok Hv) as [xs Hrep].
    pose proof Hrep as (Hsz & _).
    destruct (Emplace_spec w this xs _ i (MoveOf x) (rep_holds w this v xs Hv Hrep)
                ltac:(lia) Hf) as (w' & r & Heq & _ & _ & Hh' & Hup).
    unfold iter_at in Heq. rewrite Hv in Heq.
    exists w'. split; [|exact (world_ok_spec _ _ _ _ _ Hok Hup Hh')].
    unfold Insert_move. now rewrite (bind_Ret _ _ _ _ _ Heq).
  - (* EmplaceBack *)
    destruct Hpre as [v Hv].
    destruct (world_ok_rep w this v Hok Hv) as [xs Hrep].
    destruct (EmplaceBack_spec w this xs _ args (rep_holds w this v xs Hv Hrep) Hf)
      as (w' & r & Heq & _ & Hh' & Hup).
    exists w'. split; [|exact (world_ok_spec _ _ _ _ _ Hok Hup Hh')].
    now rewrite (bind_Ret _ _ _ _ _ Heq).
  - (* PushBack(const T&) *)
    destruct Hpre as [v Hv].
    destruct (world_ok_rep w this v Hok Hv) as [xs Hrep].
    destruct (EmplaceBack_spec w this xs _ (CopyOf x) (rep_holds w this v xs Hv Hrep) Hf)
      as (w' & r & Heq & _ & Hh' & Hup).
    exists w'. split; [|exact (world_ok_spec _ _ _ _ _ Hok Hup Hh')].
    unfold PushBack_copy. now rewrite (bind_Ret _ _ _ _ _ Heq).
  - (* PushBack(T&&) *)
    destruct Hpre as [v Hv].
    destruct (world_ok_rep w this v Hok Hv) as [xs Hrep].
    destruct (EmplaceBack_spec w this xs _ (MoveOf x) (rep_holds w this v xs Hv Hrep) Hf)
      as (w' & r & Heq & _ & Hh' & Hup).
    exists w'. split; [|exact (world_ok_spec _ _ _ _ _ Hok Hup Hh')].
    unfold PushBack_move. now rewrite (bind_Ret _ _ _ _ _ Heq).
  - (* PopBack *)
    destruct Hpre as (v & Hv & Hpos).
    destruct (world_ok_rep w this v Hok Hv) as [xs Hrep].
    pose proof Hrep as (Hsz & _).
    destruct (PopBack_spec w this xs _ (rep_holds w this v xs Hv Hrep) ltac:(lia))
      as (w' & Heq & _ & Hh' & Hup).
    exists w'. split; [exact Heq | exact (world_ok_spec _ _ _ _ _ Hok Hup Hh')].
  - (* Erase *)
    destruct Hpre as (v & i & Hv & -> & Hi).
    destruct (world_ok_rep w this v Hok Hv) as [xs Hrep].
    pose proof Hrep as (Hsz & _).
    destruct (Erase_spec w this xs _ i (rep_holds w this v xs Hv Hrep) ltac:(lia) Hf)
      as (w' & r & Heq & _ & Hh' & Hup).
    unfold iter_at in Heq. rewrite Hv in Heq.
    exists w'. split; [|exact (world_ok_spec _ _ _ _ _ Hok Hup Hh')].
    now rewrite (bind_Ret _ _ _ _ _ Heq).
  - (* operator=(const Vector&) *)
    destruct Hpre as [[vt Ht] [vr Hr]].
    destruct (decide (this = rhs)) as [->|Hne].
    + exists w. split; [|assumption]. unfold copy_assign. now rewrite Nat.eqb_refl.
    + destruct (world_ok_rep w this vt Hok Ht) as [xs Hrt].
      destruct (world_ok_rep w rhs vr Hok Hr) as [ys Hrr].
      destruct (copy_assign_spec w this rhs xs ys _ _
                  (rep_holds w this vt xs Ht Hrt) (rep_holds w rhs vr ys Hr Hrr)
                  Hne (proj2 Hok this rhs Hne) Hf) as (w' & Heq & _ & Hh' & Hup).
      exists w'. split; [exact Heq | exact (world_ok_spec _ _ _ _ _ Hok Hup Hh')].
  - (* operator=(Vector&&) *)
    destruct Hpre as ([vt Ht] & [vr Hr] & Hne).
    destruct w as [h ob f lg]; simpl in *.
    eexists. split; [now apply (move_assign_eq this rhs vt vr)|].
    now apply world_ok_transfer.
  - (* Swap *)
    destruct Hpre as [[vt Ht] [vo Ho]].
    destruct w as [h ob f lg]; simpl in *.
    eexists. split; [now apply (Swap_eq this other vt vo)|].
    now apply world_ok_swap.
Qed.

(** * Further properties of the operations *)

(** ** Swapping two vectors *)

(** X1.  [a.Swap(b)] on two different vectors gives [a] the elements and
    the capacity of [b] and [b] those of [a]; the heap, the countdown and the
    trace are untouched: no element is constructed, assigned or destroyed and
    nothing is allocated or freed. *)
Theorem Swap_exchanges_contents (w : World) (a b : ref) (xs ys : list T) (c d : nat) :
  holds w a xs c -> holds w b ys d -> a <> b ->
  exists w',
    Swap a b w = Ret tt w' /\
    holds w' a ys d /\ holds w' b xs c /\
    elems_of w' a = Some ys /\ elems_of w' b = Some xs /\
    capacity_of w' a = Some d /\ capacity_of w' b = Some c /\
    heap w' = heap w /\ log w' = log w /\ fuse w' = fuse w.
Proof.
  intros (va & Ha & Hc & Hra) (vb & Hb & Hd & Hrb) Hne.
  destruct w as [h ob f lg]. simpl in *. subst c d.
  eexists. split; [apply (Swap_eq a b va vb); assumption|].
  assert (HA : holds (mkWorld h (<[b := va]> (<[a := vb]> ob)) f lg) a ys (capacity_ (data_ vb))).
  { apply (holds_frame h); [assumption | lookup_tac | reflexivity]. }
  assert (HB : holds (mkWorld h (<[b := va]> (<[a := vb]> ob)) f lg) b xs (capacity_ (data_ va))).
  { apply (holds_frame h); [assumption | lookup_tac | reflexivity]. }
  split; [exact HA|]. split; [exact HB|].
  split; [exact (holds_elems _ _ _ _ HA)|]. split; [exact (holds_elems _ _ _ _ HB)|].
  split; [exact (holds_capacity _ _ _ _ HA)|]. split; [exact (holds_capacity _ _ _ _ HB)|].
  auto.
Qed.

(** X2.  Swapping the same two vectors twice restores the world exactly,
    and swapping a vector with itself changes nothing. *)
Theorem Swap_twice_restores (w : World) (a b : ref) :
  alive w a -> alive w b ->
  (Swap a b ;;; Swap a b) w = Ret tt w /\ (a = b -> Swap a b w = Ret tt w).
Proof.
  intros [va Ha] [vb Hb]. destruct w as [h ob f lg]. simpl in *.
  destruct (decide (a = b)) as [->|Hne].
  - assert (vb = va) by congruence. subst vb.
    assert (Heq : Swap b b (mkWorld h ob f lg) = Ret tt (mkWorld h ob f lg)).
    { rewrite (Swap_eq b b va va h ob f lg Ha Ha).
      now rewrite insert_insert_eq, insert_id. }
    split; [|intros _; exact Heq].
    now rewrite (bind_Ret _ _ _ _ _ Heq).
  - split; [|intros E; contradiction].
    rewrite (bind_Ret _ _ _ _ _ (Swap_eq a b va vb h ob f lg Ha Hb)).
    rewrite (Swap_eq a b vb va); [| lookup_tac | lookup_tac].
    do 2 f_equal. map_ext.
Qed.

(** ** Construction and destruction *)


(** X4.  For [n] whose byte count [n * sizeof(T)] fits [size_t], [Vector(n)]
    builds [n] value-initialised elements in a block of capacity [n] without
    any duplication; [Vector(0)] is the same as [Vector()]: it allocates
    nothing. *)
Theorem sized_constructor_value_initialises (w : World) (this : ref) (n : nat) :
  objs w !! this = None -> representable n ->
  exists w',
    Vector_sized this n w = Ret tt w' /\
    holds w' this (replicate n dflt) n /\
    size_of w' this = Some n /\
    capacity_of w' this = Some n /\
    elems_of w' this = Some (replicate n dflt) /\
    fuse w' = fuse w /\
    (n = 0 -> Vector_sized this n w = Vector_default this w /\ heap w' = heap w).
Proof.
  intros Hnone _. destruct w as [h ob f lg]. simpl in *.
  destruct (Vector_sized_eq this n h ob f lg Hnone) as [lg' Heq].
  eexists. split; [exact Heq|].
  assert (HT : holds (mkWorld (with_block h n (Live <$> replicate n dflt))
                        (<[this := mkVector (block_for h n) n]> ob) f lg')
                     this (replicate n dflt) n).
  { eexists. split; [apply lookup_insert_eq|]. split; [reflexivity|].
    pose proof (rep_block_for h (replicate n dflt)) as H.
    rewrite length_replicate in H. exact H. }
  split; [exact HT|].
  split. { rewrite (holds_size _ _ _ _ HT). now rewrite length_replicate. }
  split; [exact (holds_capacity _ _ _ _ HT)|].
  split; [exact (holds_elems _ _ _ _ HT)|].
  split; [reflexivity|].
  intros ->. split; [|reflexivity].
  unfold Vector_sized, Vector_default.
  rewrite (bind_Ret _ _ _ _ _ (RawMemory_new_0 _)).
  rewrite (new_obj_eq _ _ _ _ _ _ Hnone).
  now rewrite (bind_Ret _ _ _ _ _ (new_obj_eq _ _ _ _ _ _ Hnone)).
Qed.

(** X5.  [~Vector()] destroys exactly the [Size()] live elements, in index
    order, then frees the block, and ends the object; a vector without a
    block destroys and frees nothing. *)
Theorem destructor_destroys_then_frees (w : World) (this : ref) (xs : list T) (c : nat) :
  holds w this xs c ->
  exists w',
    Vector_dtor this w = Ret tt w' /\
    objs w' = delete this (objs w) /\
    heap w' = free_block (buffer_of w this) (heap w) /\
    fuse w' = fuse w /\
    log w' = log w ++ match buffer_of w this with
                      | Some a => (ev_destroy a <$> seq 0 (length xs)) ++ [EvFree a]
                      | None => []
                      end.
Proof.
  intros (v & Hob & Hc & Hsz & Hle & Hbuf).
  destruct w as [h ob f lg]. simpl in *. subst c.
  rewrite (buffer_of_eq _ _ _ _ _ _ Hob).
  unfold Vector_dtor.
  rewrite (bind_Ret _ _ _ _ _ (get_vec_eq _ _ _ _ _ _ Hob)).
  unfold GetAddress, RawMemory_dtor. rewrite Hsz.
  destruct (buffer_ (data_ v)) as [a|] eqn:Hb.
  - destruct Hbuf as [Hc Ha].
    step_by ltac:(apply (destroy_n_eq a (length xs) 0);
                  [eassumption | apply live_seg_prefix; lia]).
    step_by ltac:(eapply Deallocate_eq; apply lookup_insert_eq).
    rewrite del_obj_eq. eexists. split; [reflexivity|]. simpl.
    rewrite delete_insert_eq, <- app_assoc. auto.
  - assert (length xs = 0) by lia.
    destruct xs; [|discriminate]. simpl length.
    step_by ltac:(reflexivity).
    step_by ltac:(reflexivity).
    rewrite del_obj_eq. eexists. split; [reflexivity|]. simpl.
    rewrite app_nil_r. auto.
Qed.

(** X6.  Copy-constructing a vector and destroying it again leaves no
    trace: the heap and the objects are exactly as before. *)
Theorem copy_construct_then_destroy_restores (w : World) (this other : ref)
    (ys : list T) (cr : nat) :
  objs w !! this = None -> holds w other ys cr -> enough (length ys) (fuse w) ->
  exists w',
    (Vector_copy_ctor this other ;;; Vector_dtor this) w = Ret tt w' /\
    heap w' = heap w /\ objs w' = objs w.
Proof.
  intros Hnone (vo & Ho & Hcr & Hrr) Hf.
  destruct w as [h ob f lg]. simpl in *. subst cr.
  destruct (Vector_copy_ctor_eq this other vo ys h ob f lg Hnone Ho Hrr Hf) as [lg' Heq].
  rewrite (bind_Ret _ _ _ _ _ Heq).
  destruct (Vector_dtor_eq this (mkVector (block_for h (length ys)) (length ys)) ys
              (with_block h (length ys) (Live <$> ys))
              (<[this := mkVector (block_for h (length ys)) (length ys)]> ob)
              (spend (length ys) f) lg') as [lg2 Heq2];
    [apply lookup_insert_eq | apply rep_block_for |].
  eexists. split; [exact Heq2|]. simpl. split.
  - unfold block_for, with_block. simpl.
    destruct (length ys =? 0); [reflexivity|].
    simpl. apply delete_insert_id, fresh_None.
  - now apply delete_insert_id.
Qed.

(** ** Removing at the back and round trips *)

(** X7.  [PopBack()] on a vector with elements removes the last one: the
    other elements, the capacity and the block stay, and the only event is
    the destruction of the last slot.  On an empty vector the index
    [size_ - 1] is outside every block and the call is undefined. *)
Theorem PopBack_removes_last_or_is_undefined (w : World) (this : ref) (xs : list T) (c : nat) :
  holds w this xs c ->
  (xs = [] -> PopBack this w = Undef) /\
  (xs <> [] ->
   exists w' a,
     PopBack this w = Ret tt w' /\
     holds w' this (take (length xs - 1) xs) c /\
     elems_of w' this = Some (take (length xs - 1) xs) /\
     size_of w' this = Some (length xs - 1) /\
     capacity_of w' this = Some c /\
     buffer_of w this = Some a /\ buffer_of w' this = Some a /\
     fuse w' = fuse w /\
     log w' = log w ++ [ev_destroy a (length xs - 1)]).
Proof.
  intros Hh. split.
  - intros ->. destruct Hh as (v & Hob & Hc & Hsz & _).
    destruct w as [h ob f lg]. simpl in *.
    unfold PopBack, noexcept.
    rewrite (bind_Ret _ _ _ _ _ (get_vec_eq _ _ _ _ _ _ Hob)).
    now rewrite Hsz.
  - intros Hne.
    assert (Hsnoc : exists ys x, xs = ys ++ [x]).
    { destruct xs as [|x0 xs'] using rev_ind; [congruence | eauto]. }
    destruct Hsnoc as (ys & x & ->).
    destruct Hh as (v & Hob & Hc & Hrep).
    destruct w as [h ob f lg]. simpl in *. subst c.
    rewrite length_app. simpl length.
    replace (length ys + 1 - 1) with (length ys) by lia.
    rewrite take_app_length.
    pose proof Hrep as (Hsz & Hle & Hbuf).
    rewrite length_app in Hle. simpl in Hle.
    destruct (buffer_ (data_ v)) as [a|] eqn:Hb; [|lia].
    eexists _, a. split; [now apply (PopBack_eq this v ys x a)|].
    assert (HT : holds (mkWorld (<[a := (Live <$> ys)
                                       ++ replicate (capacity_ (data_ v) - length ys) Raw]> h)
                          (<[this := mkVector (data_ v) (length ys)]> ob) f
                          (lg ++ [ev_destroy a (length ys)]))
                       this ys (capacity_ (data_ v))).
    { eexists. split; [apply lookup_insert_eq|]. split; [reflexivity|].
      split; [reflexivity|]. simpl. split; [lia|].
      rewrite Hb. split; [lia | apply lookup_insert_eq]. }
    split; [exact HT|].
    split; [exact (holds_elems _ _ _ _ HT)|].
    split; [exact (holds_size _ _ _ _ HT)|].
    split; [exact (holds_capacity _ _ _ _ HT)|].
    split; [now rewrite (buffer_of_eq _ _ _ _ _ _ Hob)|].
    split; [rewrite (buffer_of_eq _ _ _ _ _ (mkVector (data_ v) (length ys)));
            [exact Hb | apply lookup_insert_eq]|].
    auto.
Qed.

(** X8.  [PushBack(x)] followed by [PopBack()] gives back the elements the
    vector had; the capacity is the one [PushBack] left, which is larger
    than before when the vector was full. *)
Theorem PushBack_then_PopBack_restores_elements (w : World) (this : ref) (xs : list T)
    (c : nat) (x : T) :
  holds w this xs c -> fuse w = None ->
  exists w',
    (PushBack_copy this x ;;; PopBack this) w = Ret tt w' /\
    holds w' this xs (if length xs =? c then Nat.max 1 (2 * c) else c) /\
    elems_of w' this = Some xs /\
    size_of w' this = Some (length xs).
Proof.
  intros Hh Hf.
  destruct (EmplaceBack_spec w this xs c (CopyOf x) Hh Hf) as (w1 & r & Heq1 & _ & Hh1 & _).
  destruct (PopBack_spec w1 this _ _ Hh1) as (w2 & Heq2 & _ & Hh2 & _).
  { rewrite length_app. simpl. lia. }
  rewrite length_app in Hh2. simpl length in Hh2.
  replace (length xs + 1 - 1) with (length xs) in Hh2 by lia.
  rewrite take_app_length in Hh2.
  exists w2. split.
  - assert (Hpb : PushBack_copy this x w = Ret tt w1).
    { unfold PushBack_copy. now rewrite (bind_Ret _ _ _ _ _ Heq1). }
    rewrite (bind_Ret _ _ _ _ _ Hpb). exact Heq2.
  - split; [exact Hh2|].
    split; [exact (holds_elems _ _ _ _ Hh2) | exact (holds_size _ _ _ _ Hh2)].
Qed.

(** X9.  [Erase] applied to the iterator that [Insert] returned removes the
    inserted element again: the vector has the elements it had before, in
    the same order. *)
Theorem Insert_then_Erase_restores_elements (w : World) (this : ref) (xs : list T)
    (c i : nat) (x : T) :
  holds w this xs c -> i <= length xs -> fuse w = None ->
  exists w' r,
    (p <- Insert_copy this (iter_at w this i) x ;; Erase this p) w = Ret r w' /\
    r = iter_at w' this i /\
    holds w' this xs (if length xs =? c then Nat.max 1 (2 * c) else c) /\
    elems_of w' this = Some xs /\
    size_of w' this = Some (length xs).
Proof.
  intros Hh Hi Hf.
  destruct (Emplace_spec w this xs c i (CopyOf x) Hh Hi Hf)
    as (w1 & r1 & Heq1 & -> & Hf1 & Hh1 & _).
  destruct (Erase_spec w1 this _ _ i Hh1) as (w2 & r2 & Heq2 & _ & Hh2 & _);
    [rewrite length_app, length_take; simpl; lia | assumption |].
  assert (Hback : take i (take i xs ++ arg_value (CopyOf x) :: drop i xs)
                  ++ drop (S i) (take i xs ++ arg_value (CopyOf x) :: drop i xs) = xs).
  { rewrite take_app_length' by (rewrite length_take; lia).
    replace (S i) with (length (take i xs) + 1) by (rewrite length_take; lia).
    rewrite drop_app_add. simpl. rewrite drop_0. apply take_drop. }
  rewrite Hback in Hh2.
  exists w2, r2. split.
  - unfold Insert_copy. rewrite (bind_Ret _ _ _ _ _ Heq1). exact Heq2.
  - split.
    { destruct w1 as [h1 ob1 f1 lg1]. destruct w2 as [h2 ob2 f2 lg2].
      destruct Hh1 as (v1 & Hob1 & _ & Hrep1). destruct Hh2 as (v2 & Hob2 & _ & Hrep2).
      simpl in *.
      assert (Hlen1 : i < length (take i xs ++ x :: drop i xs)).
      { rewrite length_app, length_take. simpl. lia. }
      destruct (lookup_lt_is_Some_2 _ _ Hlen1) as [y Hy].
      pose proof (take_drop_middle _ _ _ Hy) as Hmid.
      destruct (buffer_ (data_ v1)) as [a|] eqn:Hb.
      2:{ destruct Hrep1 as (_ & Hle & Hbuf). rewrite Hb in Hbuf. lia. }
      rewrite <- Hmid in Hrep1.
      pose proof (Erase_eq this v1 _ y _ a h1 ob1 lg1 Hob1 Hrep1 Hb) as HE.
      rewrite length_take in HE.
      replace (i `min` length (take i xs ++ x :: drop i xs)) with i in HE by lia.
      rewrite (holds_iter_at _ _ _ _ _ _ _ Hob1), Hb in Heq2.
      subst f1. rewrite HE in Heq2. injection Heq2 as <- <- <- <- <-.
      unfold iter_at. simpl. rewrite lookup_insert_eq. simpl. now rewrite Hb. }
    split; [exact Hh2|].
    split; [exact (holds_elems _ _ _ _ Hh2) | exact (holds_size _ _ _ _ Hh2)].
Qed.

(** ** Element access and iterators *)

(** X10.  [v[i]] reaches element [i] exactly when [i < Size()]; for every
    other index, also one that is below the capacity, the assert of
    [operator[]] fails. *)
Theorem index_operator_is_bounded_by_size (w : World) (this : ref) (xs : list T)
    (c i : nat) :
  holds w this xs c ->
  elem_of_vec w this i = xs !! i /\
  (i < length xs -> Vector_at this i w = Ret (iter_at w this i) w) /\
  (length xs <= i -> Vector_at this i w = Undef).
Proof.
  intros (v & Hob & Hc & Hrep). pose proof Hrep as (Hsz & Hle & _).
  destruct w as [h ob f lg]. simpl in *.
  assert (Hout : length xs <= i -> Vector_at this i (mkWorld h ob f lg) = Undef).
  { intros Hi. unfold Vector_at.
    rewrite (bind_Ret _ _ _ _ _ (get_vec_eq _ _ _ _ _ _ Hob)).
    destruct (Nat.ltb_spec i (size_ v)); [lia | reflexivity]. }
  split; [|split; [|exact Hout]].
  - destruct (le_lt_dec (length xs) i) as [Hi|Hi].
    + rewrite lookup_ge_None_2 by assumption.
      unfold elem_of_vec, result_of, bind. now rewrite (Hout Hi).
    + now apply (elem_of_vec_eq _ _ _ _ _ v).
  - intros Hi. rewrite (holds_iter_at _ _ _ _ _ _ _ Hob).
    apply Vector_at_eq; [assumption | lia | lia].
Qed.

(** X11.  [begin()] and [end()] (and [cbegin()], [cend()]) change nothing
    and delimit exactly [Size()] elements; they are equal exactly when the
    vector is empty, and on a vector without a block both are [nullptr]. *)
Theorem begin_end_delimit_the_elements (w : World) (this : ref) (xs : list T) (c : nat) :
  holds w this xs c ->
  begin_ this w = Ret (iter_at w this 0) w /\
  end_ this w = Ret (iter_at w this (length xs)) w /\
  cbegin this w = begin_ this w /\ cend this w = end_ this w /\
  (b <- begin_ this ;; e <- end_ this ;; distance b e) w = Ret (length xs) w /\
  (iter_at w this 0 = iter_at w this (length xs) <-> xs = []) /\
  (c = 0 -> iter_at w this 0 = nullptr).
Proof.
  intros (v & Hob & Hc & Hsz & Hle & Hbuf).
  destruct w as [h ob f lg]. simpl in *.
  rewrite !(holds_iter_at _ _ _ _ _ _ _ Hob).
  assert (Hb : begin_ this (mkWorld h ob f lg)
               = Ret (mkPtr (buffer_ (data_ v)) 0) (mkWorld h ob f lg))
    by (now apply cbegin_eq).
  assert (He : end_ this (mkWorld h ob f lg)
               = Ret (mkPtr (buffer_ (data_ v)) (length xs)) (mkWorld h ob f lg)).
  { rewrite <- Hsz. apply end_eq; [assumption | lia]. }
  split; [exact Hb|]. split; [exact He|].
  split; [reflexivity|]. split; [reflexivity|].
  split.
  { rewrite (bind_Ret _ _ _ _ _ Hb), (bind_Ret _ _ _ _ _ He).
    rewrite distance_eq by lia. now rewrite Nat.sub_0_r. }
  split.
  { split.
    - intros [= E]. now apply nil_length_inv.
    - now intros ->. }
  intros ->. destruct (buffer_ (data_ v)); [lia | reflexivity].
Qed.

(** ** Assignment *)

(** X12.  Copy assignment from a vector that fits into the capacity of the
    assigned-to vector reuses the block: when no duplication fails, the
    assigned-to vector has the elements of [rhs] in the same block with the
    same capacity, and [rhs] is unchanged. *)
Theorem copy_assign_reuses_the_block (w : World) (this rhs : ref) (xs ys : list T)
    (c cr : nat) :
  holds w this xs c -> holds w rhs ys cr -> this <> rhs -> apart w this rhs ->
  length ys <= c -> fuse w = None ->
  exists w',
    copy_assign this rhs w = Ret tt w' /\
    holds w' this ys c /\
    holds w' rhs ys cr /\
    elems_of w' this = Some ys /\
    size_of w' this = Some (length ys) /\
    capacity_of w' this = Some c /\
    buffer_of w' this = buffer_of w this.
Proof.
  intros (vt & Ht & Hc & Hrt) (vr & Hr & Hcr & Hrr) Hne Hap Hle Hf.
  destruct w as [h ob f lg]. simpl in *. subst c cr f.
  destruct (copy_assign_reuse this rhs vt vr xs ys h ob lg Hne Ht Hr Hrt Hrr) as
    (h' & lg' & Heq & Hrep' & Hframe); [|assumption|].
  { intros a Ha. specialize (Hap a). unfold buffer_of in Hap. simpl in Hap.
    rewrite Ht, Hr in Hap. auto. }
  eexists. split; [exact Heq|].
  assert (HT : holds (mkWorld h' (<[this := mkVector (data_ vt) (length ys)]> ob) None lg')
                     this ys (capacity_ (data_ vt))).
  { eexists. split; [apply lookup_insert_eq|]. split; [reflexivity | exact Hrep']. }
  assert (HR : holds (mkWorld h' (<[this := mkVector (data_ vt) (length ys)]> ob) None lg')
                     rhs ys (capacity_ (data_ vr))).
  { exists vr. split; [simpl; lookup_tac|]. split; [reflexivity|].
    destruct Hrr as (Hsz & Hler & Hbuf). split; [assumption|]. split; [assumption|].
    simpl. destruct (buffer_ (data_ vr)) as [b|] eqn:Hb; [|assumption].
    destruct Hbuf as [Hpos Hhb]. split; [assumption|].
    apply Hframe; [|assumption].
    intros E. apply (Hap b); unfold buffer_of; simpl; [now rewrite Ht | now rewrite Hr, Hb]. }
  split; [exact HT|]. split; [exact HR|].
  split; [exact (holds_elems _ _ _ _ HT)|].
  split; [exact (holds_size _ _ _ _ HT)|].
  split; [exact (holds_capacity _ _ _ _ HT)|].
  rewrite (buffer_of_eq _ _ _ _ _ _ Ht).
  now rewrite (buffer_of_eq _ _ _ _ _ (mkVector (data_ vt) (length ys)))
    by apply lookup_insert_eq.
Qed.

(** X13.  Move assignment to a vector that owns a block neither destroys
    the elements of that vector nor frees its block: the heap and the trace
    are unchanged, the old block stays allocated with its elements live, and
    afterwards no vector owns it. *)
Theorem move_assign_abandons_the_old_block (w : World) (this rhs : ref)
    (xs : list T) (c : nat) (a : addr) :
  world_ok w -> holds w this xs c -> alive w rhs -> this <> rhs ->
  buffer_of w this = Some a ->
  exists w',
    move_assign this rhs w = Ret tt w' /\
    heap w' = heap w /\ log w' = log w /\
    heap w' !! a = Some ((Live <$> xs) ++ replicate (c - length xs) Raw) /\
    (forall p, buffer_of w' p <> Some a).
Proof.
  intros Hok (vt & Ht & Hc & Hrt) [vr Hr] Hne Hba.
  destruct w as [h ob f lg]. simpl in *. subst c.
  rewrite (buffer_of_eq _ _ _ _ _ _ Ht) in Hba.
  eexists. split; [now apply (move_assign_eq this rhs vt vr)|].
  split; [reflexivity|]. split; [reflexivity|]. simpl.
  split.
  { destruct Hrt as (_ & _ & Hbuf). rewrite Hba in Hbuf. now destruct Hbuf. }
  intros p. rewrite !buffer_of_insert. simpl.
  destruct (decide (rhs = p)); [discriminate|].
  destruct (decide (this = p)) as [->|Hp].
  - rewrite <- (buffer_of_eq h ob f lg rhs vr Hr).
    apply (proj2 Hok p rhs ltac:(congruence)).
    now rewrite (buffer_of_eq _ _ _ _ _ _ Ht).
  - intros Hb. apply (proj2 Hok p this ltac:(congruence) a Hb).
    now rewrite (buffer_of_eq _ _ _ _ _ _ Ht).
Qed.

(** ** Positions outside the range *)

(** X14.  [Erase(end())] is undefined: the range [pos + 1, end()) handed to
    [std::move] starts behind its end; in particular [Erase] on an empty
    vector is undefined for every position of the vector. *)
Theorem Erase_at_end_is_undefined (w : World) (this : ref) (xs : list T) (c : nat) :
  holds w this xs c -> Erase this (iter_at w this (length xs)) w = Undef.
Proof.
  intros (v & Hob & Hc & Hsz & Hle & Hbuf).
  destruct w as [h ob f lg]. simpl in *.
  rewrite (holds_iter_at _ _ _ _ _ _ _ Hob).
  unfold Erase, noexcept.
  rewrite (bind_Ret _ _ _ _ _ (cbegin_eq _ _ _ _ _ _ Hob)).
  rewrite (bind_Ret _ _ _ _ _ (distance_eq _ 0 (length xs) _ ltac:(lia))).
  rewrite Nat.sub_0_r.
  rewrite (bind_Ret _ _ _ _ _ (get_vec_eq _ _ _ _ _ _ Hob)).
  rewrite (bind_Ret _ _ _ _ _ (RawMemory_plus_eq (data_ v) (length xs) _ ltac:(lia))).
  rewrite (bind_Ret _ _ _ _ _ (end_eq _ _ _ _ _ _ Hob ltac:(lia))).
  rewrite Hsz. unfold std_move, distance, ptr_add, bind. simpl.
  rewrite bool_decide_eq_true_2 by reflexivity.
  destruct (Nat.leb_spec (length xs + 1) (length xs)); [lia | reflexivity].
Qed.

(** ** Failing duplications *)

Lemma T_copy_assign_gen a b i j x y h ob f lg sla slb :
  h !! a = Some sla -> h !! b = Some slb ->
  sla !! i = Some (Live y) -> slb !! j = Some (Live x) -> enough 1 f ->
  T_copy_assign (mkPtr (Some a) i) (mkPtr (Some b) j) (mkWorld h ob f lg)
  = Ret tt (mkWorld (<[a := <[i := Live x]> sla]> h) ob (spend 1 f) (lg ++ [ev_assign a i])).
Proof.
  intros Ha Hb Hi Hj Hf. unfold T_copy_assign.
  step_by ltac:(eapply read_eq; eassumption).
  step_by ltac:(apply dup_eq; assumption).
  eapply assign_at_eq; eassumption.
Qed.

Lemma T_copy_assign_fail p b j x h ob lg slb :
  h !! b = Some slb -> slb !! j = Some (Live x) ->
  T_copy_assign p (mkPtr (Some b) j) (mkWorld h ob (Some 0) lg)
  = Throw (mkWorld h ob (Some 0) lg).
Proof.
  intros Hb Hj. unfold T_copy_assign.
  step_by ltac:(eapply read_eq; eassumption).
  reflexivity.
Qed.

Lemma noexcept_Throw {A} (m : M A) w w' : m w = Throw w' -> noexcept m w = Terminate.
Proof. intros H. unfold noexcept. now rewrite H. Qed.

(** The forward shift of [Erase] for a copy-only element type, when the
    countdown runs out before the last assignment. *)
Lemma move_fwd_fail (Hm : nothrow_move = false) a : forall n k i h ob lg sl,
  h !! a = Some sl -> live_seg i (S n) sl -> k < n ->
  exists w',
    move_fwd (mkPtr (Some a) (S i)) n (mkPtr (Some a) i) (mkWorld h ob (Some k) lg)
    = Throw w'.
Proof.
  induction n as [|n IH]; intros k i h ob lg sl Ha Hlive Hk; [lia|].
  destruct (Hlive 0) as [y Hy]; [lia|]. rewrite Nat.add_0_r in Hy.
  destruct (Hlive 1) as [x Hx]; [lia|]. rewrite Nat.add_1_r in Hx.
  simpl move_fwd. unfold T_move_assign. rewrite Hm.
  destruct k as [|k].
  - eexists. apply bind_Throw. eapply T_copy_assign_fail; eassumption.
  - rewrite (bind_Ret _ _ _ _ _
               (T_copy_assign_gen a a i (S i) x y h ob (Some (S k)) lg sl sl Ha Ha Hy Hx
                  ltac:(simpl; lia))).
    unfold ptr_add. simpl base. simpl off. rewrite !Nat.add_1_r.
    simpl spend. rewrite Nat.sub_0_r.
    apply (IH k (S i) _ _ _ (<[i := Live x]> sl)); [apply lookup_insert_eq | | lia].
    intros j Hj. destruct (Hlive (S j)) as [z Hz]; [lia|]. exists z.
    rewrite list_lookup_insert_ne by lia.
    now replace (S i + j) with (i + S j) by lia.
Qed.

(** X15.  [Erase] is [noexcept]: it never lets an exception out.  For a
    copy-only element type, when a duplication fails during the shift of the
    elements behind the erased one, the program is terminated. *)
Theorem Erase_terminates_when_the_shift_throws (w : World) (this : ref) (xs : list T)
    (c i k : nat) :
  nothrow_move = false ->
  holds w this xs c -> fuse w = Some k -> i + 1 + k < length xs ->
  Erase this (iter_at w this i) w = Terminate /\
  (forall pos w0 w', Erase this pos w0 <> Throw w').
Proof.
  intros Hm (v & Hob & Hc & Hsz & Hle & Hbuf) Hf Hi.
  split.
  2:{ intros pos w0 w'. unfold Erase, noexcept.
      match goal with |- context [match ?m with _ => _ end] => destruct m end;
        discriminate. }
  destruct w as [h ob f lg]. simpl in *. subst c f.
  destruct (buffer_ (data_ v)) as [a|] eqn:Hb; [|lia].
  destruct Hbuf as [Hc Ha].
  rewrite (holds_iter_at _ _ _ _ _ _ _ Hob), Hb.
  destruct (move_fwd_fail Hm a (length xs - S i) k i h ob lg _ Ha) as [w' Hthrow].
  { intros j Hj. destruct (lookup_lt_is_Some_2 xs (i + j)) as [z Hz]; [lia|].
    exists z. rewrite lookup_app_l by (rewrite length_fmap; lia).
    now rewrite list_lookup_fmap, Hz. }
  { lia. }
  unfold Erase. apply (noexcept_Throw _ _ w').
  step_by ltac:(apply cbegin_eq; eassumption).
  rewrite Hb.
  step_by ltac:(apply distance_eq; lia).
  rewrite Nat.sub_0_r.
  step_by ltac:(apply get_vec_eq; eassumption).
  step_by ltac:(apply RawMemory_plus_eq; lia).
  step_by ltac:(apply end_eq; [eassumption | lia]).
  rewrite Hb, Hsz.
  apply bind_Throw. unfold std_move, ptr_add. simpl base. simpl off.
  rewrite Nat.add_1_r.
  step_by ltac:(apply distance_eq; lia).
  exact Hthrow.
Qed.

(** ** Insertion without reallocation *)

Lemma EmplaceBack_inplace this v xs a args h ob lg :
  ob !! this = Some v -> rep h v xs -> buffer_ (data_ v) = Some a ->
  size_ v < capacity_ (data_ v) ->
  exists lg' r,
    EmplaceBack this args (mkWorld h ob None lg)
    = Ret r
          (mkWorld (<[a := (Live <$> xs ++ [arg_value args])
                            ++ replicate (capacity_ (data_ v) - S (length xs)) Raw]> h)
                   (<[this := mkVector (data_ v) (S (length xs))]> ob)
                   None lg').
Proof.
  intros Hob Hrep Hb Hlt. pose proof Hrep as (Hsz & Hle & _).
  assert (Hrep' : rep h v (xs ++ [])) by (now rewrite app_nil_r).
  destruct (Emplace_inplace this v xs [] a args h ob lg Hob Hrep' Hb Hlt) as [lg' Heq].
  rewrite app_nil_r in Heq.
  exists lg'. eexists. unfold EmplaceBack, cend.
  step_by ltac:(apply end_eq; [eassumption | lia]).
  rewrite Hb, Hsz.
  step_by ltac:(exact Heq).
  step_by ltac:(apply get_vec_eq; apply lookup_insert_eq).
  apply RawMemory_at_eq. simpl. lia.
Qed.

(** X16.  While the size stays within the capacity, [PushBack] does not
    reallocate: after any sequence of calls that fits, the vector has the
    same block and the same capacity, the pushed elements follow the old
    ones, and the heap has the same blocks as before, so nothing was
    allocated or freed (this is what a preceding [Reserve] buys). *)
Theorem PushBack_within_capacity_keeps_the_block (this : ref) (ps : list (bool * T)) :
  forall (w : World) (xs : list T) (c : nat),
    holds w this xs c -> length xs + length ps <= c -> fuse w = None ->
    exists w',
      push_all this ps w = Ret tt w' /\
      holds w' this (xs ++ (snd <$> ps)) c /\
      elems_of w' this = Some (xs ++ (snd <$> ps)) /\
      capacity_of w' this = Some c /\
      buffer_of w' this = buffer_of w this /\
      dom (heap w') = dom (heap w).
Proof.
  induction ps as [|p ps IH]; intros w xs c Hh Hfit Hf.
  - exists w. simpl. rewrite app_nil_r.
    split; [reflexivity|]. split; [exact Hh|].
    split; [exact (holds_elems _ _ _ _ Hh)|].
    split; [exact (holds_capacity _ _ _ _ Hh) | auto].
  - simpl in Hfit.
    pose proof Hh as (v & Hob & Hc & Hrep).
    destruct w as [h ob f lg]. simpl in *. subst c f.
    pose proof Hrep as (Hsz & Hle & Hbuf).
    destruct (buffer_ (data_ v)) as [a|] eqn:Hb; [|lia].
    destruct Hbuf as [Hpos Ha].
    assert (Hstep : exists lg1,
              push_back this p (mkWorld h ob None lg)
              = Ret tt (mkWorld (<[a := (Live <$> xs ++ [snd p])
                                        ++ replicate (capacity_ (data_ v) - S (length xs)) Raw]> h)
                                (<[this := mkVector (data_ v) (S (length xs))]> ob)
                                None lg1)).
    { destruct p as [[|] x]; unfold push_back; simpl.
      - destruct (EmplaceBack_inplace this v xs a (CopyOf x) h ob lg Hob Hrep Hb ltac:(lia))
          as (lg1 & r & Heq).
        exists lg1. unfold PushBack_copy. now rewrite (bind_Ret _ _ _ _ _ Heq).
      - destruct (EmplaceBack_inplace this v xs a (MoveOf x) h ob lg Hob Hrep Hb ltac:(lia))
          as (lg1 & r & Heq).
        exists lg1. unfold PushBack_move. now rewrite (bind_Ret _ _ _ _ _ Heq). }
    destruct Hstep as [lg1 Hstep].
    destruct (IH (mkWorld (<[a := (Live <$> xs ++ [snd p])
                                  ++ replicate (capacity_ (data_ v) - S (length xs)) Raw]> h)
                          (<[this := mkVector (data_ v) (S (length xs))]> ob) None lg1)
                 (xs ++ [snd p]) (capacity_ (data_ v)))
      as (w' & Heq & Hh' & He' & Hc' & Hb' & Hdom).
    { eexists. split; [apply lookup_insert_eq|]. split; [reflexivity|].
      split; [simpl; rewrite length_app; simpl; lia|].
      split; [rewrite length_app; simpl; lia|].
      simpl. rewrite Hb. split; [lia|].
      rewrite lookup_insert_eq, length_app. simpl.
      do 3 f_equal. lia. }
    { rewrite length_app. simpl. lia. }
    { reflexivity. }
    rewrite <- app_assoc in Hh', He'. simpl in Hh', He'.
    exists w'. split.
    { simpl push_all. now rewrite (bind_Ret _ _ _ _ _ Hstep). }
    split; [exact Hh'|]. split; [exact He'|]. split; [exact Hc'|].
    split.
    + rewrite Hb'. rewrite (buffer_of_eq _ _ _ _ _ _ Hob).
      rewrite (buffer_of_eq _ _ _ _ _ (mkVector (data_ v) (S (length xs))))
        by apply lookup_insert_eq.
      reflexivity.
    + rewrite Hdom. simpl. apply dom_insert_lookup_L. eauto.
Qed.

(** ** Rollback of a failed insertion *)

Lemma T_construct_gen args h ob f lg :
  enough (args_cost args) f ->
  T_construct args (mkWorld h ob f lg)
  = Ret (arg_value args) (mkWorld h ob (spend (args_cost args) f) lg).
Proof.
  unfold T_construct, args_cost. destruct args as [x|x|x]; simpl arg_value.
  - apply dup_eq.
  - destruct nothrow_move; [intros _; now rewrite spend_0 | apply dup_eq].
  - intros _. now rewrite spend_0.
Qed.

Lemma T_construct_fail args h ob lg :
  args_cost args = 1 ->
  T_construct args (mkWorld h ob (Some 0) lg) = Throw (mkWorld h ob (Some 0) lg).
Proof.
  unfold T_construct, args_cost. destruct args as [x|x|x]; try discriminate.
  - reflexivity.
  - destruct nothrow_move; [discriminate | reflexivity].
Qed.

Lemma args_cost_le args : args_cost args <= 1.
Proof. unfold args_cost. destruct args; try destruct nothrow_move; lia. Qed.

(** The population of the new block throws: only the new block has
    changed. *)
Lemma grow_body_fail this v a' pfx sfx ns args k h ob lg :
  ob !! this = Some v -> rep h v (pfx ++ sfx) -> size_ v = capacity_ (data_ v) ->
  h !! a' = None -> length pfx + length sfx < ns ->
  k < args_cost args + cost (length pfx + length sfx) ->
  exists sl' lg',
    (if nothrow_move
     then grow_body uninitialized_move_n this v (mkRaw (Some a') ns) (length pfx)
            (mkPtr (buffer_ (data_ v)) (length pfx)) args
     else grow_body uninitialized_copy_n this v (mkRaw (Some a') ns) (length pfx)
            (mkPtr (buffer_ (data_ v)) (length pfx)) args)
      (mkWorld (<[a' := replicate ns Raw]> h) ob (Some k) lg)
    = Throw (mkWorld (<[a' := sl']> h) ob (Some 0) lg').
Proof.
  intros Hob (Hsz & Hle & Hbuf) Hfull Hfresh Hns Hk.
  rewrite length_app in Hsz, Hle, Hbuf.
  pose proof (args_cost_le args) as Hac.
  destruct (lt_dec k (args_cost args)) as [Hk0|Hk1].
  - (* the construction of the new element fails *)
    assert (k = 0) by lia. subst k.
    assert (Hc1 : args_cost args = 1) by lia.
    exists (replicate ns Raw), lg.
    destruct nothrow_move; unfold grow_body;
      (step_by ltac:(apply RawMemory_plus_eq; simpl; lia));
      apply bind_Throw; now apply T_construct_fail.
  - (* a duplication of an old element fails *)
    assert (Hm : nothrow_move = false).
    { unfold cost in Hk. destruct nothrow_move; [lia | reflexivity]. }
    unfold cost in Hk. rewrite Hm in Hk |- *.
    destruct (buffer_ (data_ v)) as [a|] eqn:Hb; [|lia].
    destruct Hbuf as [Hc Ha].
    assert (Haa' : a <> a') by congruence.
    replace (capacity_ (data_ v) - (length pfx + length sfx)) with 0 in Ha by lia.
    simpl replicate in Ha. rewrite app_nil_r, fmap_app in Ha.
    unfold grow_body.
    step_by ltac:(apply RawMemory_plus_eq; simpl; lia).
    step_by ltac:(apply T_construct_gen; simpl; lia).
    simpl spend. simpl buffer_.
    step_by ltac:(eapply construct_at_eq;
                  [apply lookup_insert_eq | rewrite length_replicate; lia]).
    rewrite insert_insert_eq.
    unfold GetAddress. rewrite Hb. simpl buffer_.
    set (k1 := k - args_cost args) in *.
    assert (Hk1' : k1 < length pfx + length sfx) by (unfold k1; lia).
    set (slb := <[length pfx := Live (arg_value args)]> (replicate ns Raw)).
    assert (Hslb : length slb = ns) by (unfold slb; now rewrite length_insert, length_replicate).
    destruct (lt_dec k1 (length pfx)) as [Hpre|Hpre].
    + destruct (uninitialized_copy_fail a a' Haa' pfx k1 0 0 0
                  (<[a' := slb]> h) ob
                  (lg ++ [EvConstruct (mkPtr (Some a') (length pfx))])
                  ((Live <$> pfx) ++ (Live <$> sfx)) slb) as [lg1 Heq1].
      { now rewrite lookup_insert_ne by congruence. }
      { apply lookup_insert_eq. }
      { simpl. apply take_app_length'. now rewrite length_fmap. }
      { lia. }
      { intros j Hj. lia. }
      { assumption. }
      eexists _, lg1. apply bind_Throw. unfold uninitialized_copy_n.
      rewrite Heq1, insert_insert_eq. reflexivity.
    + unfold uninitialized_copy_n at 1.
      erewrite bind_Ret; cycle 1.
      { apply (uninitialized_copy_eq a a' Haa' pfx 0 0 0
                 (<[a' := slb]> h) ob (Some k1)
                 (lg ++ [EvConstruct (mkPtr (Some a') (length pfx))])
                 ((Live <$> pfx) ++ (Live <$> sfx)) slb).
        - now rewrite lookup_insert_ne by congruence.
        - apply lookup_insert_eq.
        - simpl. apply take_app_length'. now rewrite length_fmap.
        - lia.
        - simpl. lia. }
      cbv beta. rewrite insert_insert_eq. simpl spend. simpl "+".
      step_by ltac:(apply end_eq; [eassumption | lia]).
      rewrite Hb, Hsz.
      rewrite bool_decide_eq_false_2 by (intros [= E]; lia).
      cbn [negb].
      step_by ltac:(apply RawMemory_plus_eq; lia).
      step_by ltac:(apply RawMemory_plus_eq; simpl; lia).
      rewrite Hb. simpl buffer_. unfold ptr_add. simpl base. simpl off.
      replace (length pfx + length sfx - length pfx) with (length sfx) by lia.
      set (slb2 := splice 0 (Live <$> pfx) slb).
      assert (Hslb2 : length slb2 = ns).
      { unfold slb2. rewrite length_splice; [assumption|]. rewrite length_fmap. lia. }
      destruct (uninitialized_copy_fail a a' Haa' sfx (k1 - length pfx) (length pfx)
                  (length pfx + 1) 0
                  (<[a' := slb2]> h) ob
                  (lg ++ [EvConstruct (mkPtr (Some a') (length pfx))]
                      ++ (ev_construct a' <$> seq 0 (length pfx)))
                  ((Live <$> pfx) ++ (Live <$> sfx)) slb2) as [lg1 Heq1].
      { now rewrite lookup_insert_ne by congruence. }
      { apply lookup_insert_eq. }
      { rewrite drop_app_length' by (now rewrite length_fmap).
        apply take_ge. now rewrite length_fmap. }
      { lia. }
      { intros j Hj. lia. }
      { lia. }
      eexists _, lg1. unfold uninitialized_copy_n. rewrite <- app_assoc.
      rewrite Heq1, insert_insert_eq. reflexivity.
Qed.

Lemma Emplace_grow_fail this v pfx sfx args k h ob lg :
  ob !! this = Some v -> rep h v (pfx ++ sfx) -> size_ v = capacity_ (data_ v) ->
  k < args_cost args + cost (length pfx + length sfx) ->
  exists lg',
    Emplace this (mkPtr (buffer_ (data_ v)) (length pfx)) args (mkWorld h ob (Some k) lg)
    = Throw (mkWorld h ob (Some 0) lg').
Proof.
  intros Hob Hrep Hfull Hk. pose proof Hrep as (Hsz & Hle & Hbuf).
  rewrite length_app in Hsz, Hle.
  pose proof (fresh_None h) as Hfresh.
  unfold Emplace.
  step_by ltac:(apply cbegin_eq; eassumption).
  step_by ltac:(apply distance_eq; lia).
  rewrite Nat.sub_0_r.
  step_by ltac:(apply get_vec_eq; eassumption).
  rewrite <- Hfull, Nat.eqb_refl. cbv zeta.
  set (ns := if 0 <? size_ v then size_ v * 2 else 1).
  assert (Hns : length pfx + length sfx < ns).
  { unfold ns. destruct (Nat.ltb_spec 0 (size_ v)); lia. }
  destruct (grow_body_fail this v (fresh (dom h)) pfx sfx ns args k h ob
              (lg ++ [EvAlloc (fresh (dom h)) ns]) Hob Hrep Hfull Hfresh Hns Hk)
    as (sl' & lg1 & Hbody).
  eexists. apply bind_Throw.
  step_by ltac:(apply RawMemory_new_eq; lia).
  apply bind_Throw.
  eapply unwind_Throw; [exact Hbody|].
  unfold RawMemory_dtor. simpl buffer_.
  rewrite (Deallocate_eq _ sl') by apply lookup_insert_eq.
  rewrite delete_insert_id by assumption. reflexivity.
Qed.

(** With room in the block, the new element is constructed before any old
    element is touched. *)
Lemma Emplace_inplace_construct_fail this v xs i args h ob lg :
  ob !! this = Some v -> rep h v xs -> i <= length xs ->
  size_ v < capacity_ (data_ v) -> args_cost args = 1 ->
  Emplace this (mkPtr (buffer_ (data_ v)) i) args (mkWorld h ob (Some 0) lg)
  = Throw (mkWorld h ob (Some 0) lg).
Proof.
  intros Hob (Hsz & Hle & Hbuf) Hi Hlt Hc1.
  unfold Emplace.
  step_by ltac:(apply cbegin_eq; eassumption).
  step_by ltac:(apply distance_eq; lia).
  rewrite Nat.sub_0_r.
  step_by ltac:(apply get_vec_eq; eassumption).
  destruct (Nat.eqb_spec (size_ v) (capacity_ (data_ v))); [lia|].
  apply bind_Throw.
  destruct nothrow_move; [unfold EmplaceWMove | unfold EmplaceWCopy];
    (step_by ltac:(apply get_vec_eq; eassumption));
    (destruct ((0 <? size_ v) && negb (i =? size_ v));
     [ apply bind_Throw; now apply T_construct_fail
     | (step_by ltac:(apply RawMemory_plus_eq; lia));
       apply bind_Throw; now apply T_construct_fail ]).
Qed.

(** X17.  On the growth path (size equal to capacity), when the
    construction of the new element or one of the duplications of the old
    elements fails, [Emplace] throws and leaves the heap and the vector
    exactly as they were: the new block is freed again and the vector still
    has its elements in its old block. *)
Theorem Emplace_growth_rolls_back (w : World) (this : ref) (xs : list T) (c i k : nat)
    (args : Args) :
  holds w this xs c -> i <= length xs -> length xs = c ->
  fuse w = Some k -> k < args_cost args + cost (length xs) ->
  exists w',
    Emplace this (iter_at w this i) args w = Throw w' /\
    heap w' = heap w /\ objs w' = objs w /\
    holds w' this xs c /\
    elems_of w' this = Some xs /\
    size_of w' this = Some (length xs) /\
    capacity_of w' this = Some c.
Proof.
  intros (v & Hob & Hc & Hrep) Hi Hfull Hf Hk.
  destruct w as [h ob f lg]. simpl in *. subst f.
  pose proof Hrep as (Hsz & _).
  rewrite (holds_iter_at _ _ _ _ _ _ _ Hob).
  pose proof (take_drop i xs) as Hxs.
  assert (Hpfx : length (take i xs) = i) by (rewrite length_take; lia).
  assert (Hlen : length (take i xs) + length (drop i xs) = length xs).
  { rewrite <- length_app, Hxs. reflexivity. }
  rewrite <- Hxs in Hrep.
  destruct (Emplace_grow_fail this v (take i xs) (drop i xs) args k h ob lg Hob Hrep)
    as [lg' Heq]; [lia | rewrite Hlen; exact Hk |].
  rewrite Hpfx in Heq. rewrite Hxs in Hrep.
  eexists. split; [exact Heq|].
  assert (HT : holds (mkWorld h ob (Some 0) lg') this xs c) by (exists v; auto).
  split; [reflexivity|]. split; [reflexivity|]. split; [exact HT|].
  split; [exact (holds_elems _ _ _ _ HT)|].
  split; [exact (holds_size _ _ _ _ HT) | exact (holds_capacity _ _ _ _ HT)].
Qed.

(** X18.  [PushBack(const T&)] has the strong guarantee on both paths: with
    room in the block the only duplication is the construction of the new
    element, and when it fails nothing was touched; on a full block a
    failure of that construction or of a duplication of an old element
    discards the new block.  In both cases the call throws and the heap and
    the vector are exactly as before. *)
Theorem PushBack_rolls_back (w : World) (this : ref) (xs : list T) (c k : nat) (x : T) :
  holds w this xs c -> fuse w = Some k ->
  k < 1 + (if length xs =? c then cost (length xs) else 0) ->
  exists w',
    PushBack_copy this x w = Throw w' /\
    heap w' = heap w /\ objs w' = objs w /\
    holds w' this xs c /\
    elems_of w' this = Some xs.
Proof.
  intros (v & Hob & Hc & Hrep) Hf Hk.
  destruct w as [h ob f lg]. simpl in *. subst f.
  pose proof Hrep as (Hsz & Hle & _).
  assert (Hthrow : exists lg',
            Emplace this (mkPtr (buffer_ (data_ v)) (length xs)) (CopyOf x)
              (mkWorld h ob (Some k) lg)
            = Throw (mkWorld h ob (Some 0) lg')).
  { destruct (Nat.eqb_spec (length xs) c) as [Hfull|Hroom].
    - assert (Hrep' : rep h v (xs ++ [])) by (now rewrite app_nil_r).
      destruct (Emplace_grow_fail this v xs [] (CopyOf x) k h ob lg Hob Hrep') as [lg' Heq];
        [lia | simpl length; rewrite Nat.add_0_r; simpl args_cost; lia |].
      now exists lg'.
    - assert (k = 0) by lia. subst k. exists lg.
      apply (Emplace_inplace_construct_fail this v xs); [assumption.. | lia | lia | reflexivity]. }
  destruct Hthrow as [lg' Heq].
  eexists. split.
  { unfold PushBack_copy, EmplaceBack, cend. apply bind_Throw.
    step_by ltac:(apply end_eq; [eassumption | lia]).
    rewrite Hsz. apply bind_Throw. exact Heq. }
  assert (HT : holds (mkWorld h ob (Some 0) lg') this xs c) by (exists v; auto).
  split; [reflexivity|]. split; [reflexivity|]. split; [exact HT|].
  exact (holds_elems _ _ _ _ HT).
Qed.

(** ** Copy assignment into the old block when a duplication fails *)

(** The assigning loop under a countdown [k]: it stops at the first failing
    duplication, after [min k n] assignments. *)
Lemma assign_from_run a b (Hab : a <> b) d rhs vr ys R ob :
  buffer_ d = Some a -> buffer_ (data_ vr) = Some b ->
  size_ vr = length ys -> length ys <= capacity_ (data_ vr) ->
  ob !! rhs = Some vr ->
  forall n k i h lg sla,
  h !! a = Some sla -> h !! b = Some ((Live <$> ys) ++ R) ->
  i + n <= length ys -> i + n <= capacity_ d ->
  live_seg i n sla ->
  exists lg',
    assign_from d rhs i n (mkWorld h ob (Some k) lg)
    = (if k <? n then Throw else Ret tt)
        (mkWorld (<[a := splice i (Live <$> take (k `min` n) (drop i ys)) sla]> h) ob
                 (Some (k - n)) lg').
Proof.
  intros Hd Hr Hsz Hcap Hob.
  induction n as [|n IH]; intros k i h lg sla Ha Hb Hi Hc Hlive.
  - exists lg. simpl. rewrite Nat.min_0_r. simpl.
    rewrite splice_nil, insert_id, Nat.sub_0_r by assumption. reflexivity.
  - destruct (lookup_lt_is_Some_2 ys i) as [x Hx]; [lia|].
    destruct (Hlive 0) as [y Hy]; [lia|]. rewrite Nat.add_0_r in Hy.
    assert (Hbx : ((Live <$> ys) ++ R) !! i = Some (Live x)).
    { rewrite lookup_app_l by (rewrite length_fmap; lia).
      now rewrite list_lookup_fmap, Hx. }
    simpl assign_from.
    step_by ltac:(apply RawMemory_at_eq; lia).
    step_by ltac:(apply Vector_at_eq; [eassumption | lia | lia]).
    rewrite Hd, Hr.
    destruct k as [|k].
    + exists lg. simpl. rewrite splice_nil, insert_id by assumption.
      apply bind_Throw. eapply T_copy_assign_fail; eassumption.
    + rewrite (bind_Ret _ _ _ _ _
                 (T_copy_assign_gen a b i i x y h ob (Some (S k)) lg sla _ Ha Hb Hy Hbx
                    ltac:(simpl; lia))).
      simpl spend. rewrite Nat.sub_0_r.
      destruct (IH k (S i) (<[a := <[i := Live x]> sla]> h) (lg ++ [ev_assign a i])
                  (<[i := Live x]> sla)) as [lg' Heq].
      * apply lookup_insert_eq.
      * now rewrite lookup_insert_ne by congruence.
      * lia.
      * lia.
      * intros j Hj. destruct (Hlive (S j)) as [z Hz]; [lia|]. exists z.
        rewrite list_lookup_insert_ne by lia.
        now replace (S i + j) with (i + S j) by lia.
      * exists lg'. rewrite Heq, insert_insert_eq.
        change (S k <? S n) with (k <? n).
        change (S k `min` S n) with (S (k `min` n)).
        change (S k - S n) with (k - n).
        rewrite (drop_take_S _ _ _ _ Hx), fmap_cons.
        rewrite splice_cons_insert by (now apply lookup_lt_Some in Hy).
        reflexivity.
Qed.

(** The constructing loop under a countdown [k]. *)
Lemma construct_from_run a b (Hab : a <> b) d rhs vr ys R ob :
  buffer_ d = Some a -> buffer_ (data_ vr) = Some b ->
  size_ vr = length ys -> length ys <= capacity_ (data_ vr) ->
  ob !! rhs = Some vr ->
  forall n k i h lg sla,
  h !! a = Some sla -> h !! b = Some ((Live <$> ys) ++ R) ->
  i + n <= length ys -> i + n <= capacity_ d -> i + n <= length sla ->
  exists lg',
    construct_from d rhs i n (mkWorld h ob (Some k) lg)
    = (if k <? n then Throw else Ret tt)
        (mkWorld (<[a := splice i (Live <$> take (k `min` n) (drop i ys)) sla]> h) ob
                 (Some (k - n)) lg').
Proof.
  intros Hd Hr Hsz Hcap Hob.
  induction n as [|n IH]; intros k i h lg sla Ha Hb Hi Hc Hlen.
  - exists lg. simpl. rewrite Nat.min_0_r. simpl.
    rewrite splice_nil, insert_id, Nat.sub_0_r by assumption. reflexivity.
  - destruct (lookup_lt_is_Some_2 ys i) as [x Hx]; [lia|].
    assert (Hbx : ((Live <$> ys) ++ R) !! i = Some (Live x)).
    { rewrite lookup_app_l by (rewrite length_fmap; lia).
      now rewrite list_lookup_fmap, Hx. }
    simpl construct_from.
    step_by ltac:(apply RawMemory_plus_eq; lia).
    step_by ltac:(apply Vector_at_eq; [eassumption | lia | lia]).
    rewrite Hd, Hr.
    destruct k as [|k].
    + exists lg. simpl. rewrite splice_nil, insert_id by assumption.
      apply bind_Throw. eapply T_copy_ctor_fail; eassumption.
    + rewrite (bind_Ret _ _ _ _ _
                 (T_copy_ctor_eq b i x h ob (Some (S k)) lg _ Hb Hbx ltac:(simpl; lia))).
      simpl spend. rewrite Nat.sub_0_r.
      step_by ltac:(apply construct_at_eq; [eassumption | lia]).
      destruct (IH k (S i) (<[a := <[i := Live x]> sla]> h)
                  (lg ++ [EvConstruct (mkPtr (Some a) i)])
                  (<[i := Live x]> sla)) as [lg' Heq].
      * apply lookup_insert_eq.
      * now rewrite lookup_insert_ne by congruence.
      * lia.
      * lia.
      * rewrite length_insert. lia.
      * exists lg'. rewrite Heq, insert_insert_eq.
        change (S k <? S n) with (k <? n).
        change (S k `min` S n) with (S (k `min` n)).
        change (S k - S n) with (k - n).
        rewrite (drop_take_S _ _ _ _ Hx), fmap_cons.
        rewrite splice_cons_insert by lia.
        reflexivity.
Qed.

(** X19.  Copy assignment into the old block has no rollback.  When the
    duplication of element [k] of [rhs] fails, the call throws with the
    first [k] elements of the assigned-to block already replaced by those of
    [rhs] and the size not yet updated: for [k] below the old size the
    vector is a mixture of new and old elements, and for [k] above the old
    size the slots from the old size up to [k] hold live elements that the
    size does not cover. *)
Theorem copy_assign_in_place_is_not_atomic (w : World) (this rhs : ref) (xs ys : list T)
    (c cr k : nat) :
  holds w this xs c -> holds w rhs ys cr -> this <> rhs -> apart w this rhs ->
  length ys <= c -> fuse w = Some k -> k < length ys ->
  exists w' a,
    copy_assign this rhs w = Throw w' /\
    buffer_of w this = Some a /\
    objs w' = objs w /\
    heap w' !! a = Some ((Live <$> take k ys ++ drop k xs)
                         ++ replicate (c - (k `max` length xs)) Raw) /\
    size_of w' this = Some (length xs) /\
    (k < length xs -> holds w' this (take k ys ++ drop k xs) c) /\
    (length xs < k ->
     exists y, ys !! length xs = Some y /\
               slot_at w' (mkPtr (Some a) (length xs)) = Some (Live y)).
Proof.
  intros (vt & Ht & Hc & Hrt) (vr & Hr & Hcr & Hrr) Hne Hap Hcap Hf Hk.
  destruct w as [h ob f lg]. simpl in *. subst c cr f.
  pose proof Hrt as (Hszt & Hlet & Hbuft). pose proof Hrr as (Hszr & Hler & Hbufr).
  destruct (buffer_ (data_ vt)) as [a|] eqn:Hba; [|lia].
  destruct Hbuft as [Hct Ha].
  destruct (buffer_ (data_ vr)) as [b|] eqn:Hbb; [|lia].
  destruct Hbufr as [Hcrpos Hb].
  assert (Hab : a <> b).
  { intros <-. apply (Hap a); unfold buffer_of; simpl;
      [now rewrite Ht, Hba | now rewrite Hr, Hbb]. }
  assert (Hrun : exists lg',
            copy_assign this rhs (mkWorld h ob (Some k) lg)
            = Throw (mkWorld (<[a := (Live <$> take k ys ++ drop k xs)
                                     ++ replicate (capacity_ (data_ vt)
                                                   - (k `max` length xs)) Raw]> h)
                             ob (Some 0) lg')).
  { unfold copy_assign.
    destruct (Nat.eqb_spec this rhs); [contradiction|]. cbn [negb].
    step_by ltac:(apply get_vec_eq; eassumption).
    step_by ltac:(apply get_vec_eq; eassumption).
    rewrite Hszr, Hszt.
    destruct (Nat.ltb_spec (capacity_ (data_ vt)) (length ys)); [lia|].
    destruct (Nat.leb_spec (length ys) (length xs)) as [Hle|Hgt].
    - (* the assigning loop over all of [rhs] fails *)
      destruct (assign_from_run a b Hab (data_ vt) rhs vr ys _ ob Hba Hbb Hszr Hler Hr
                  (length ys) k 0 h lg _ Ha Hb) as [lg' Heq]; [lia | lia | |].
      { apply live_seg_prefix. lia. }
      destruct (Nat.ltb_spec k (length ys)); [|lia].
      exists lg'. apply bind_Throw. rewrite Heq. do 3 f_equal.
      + rewrite drop_0, Nat.min_l, Nat.max_r by lia.
        rewrite <- (take_drop k xs) at 1.
        rewrite !fmap_app, <- !app_assoc.
        apply splice_at_app0. rewrite !length_fmap, !length_take. lia.
      + f_equal. lia.
    - destruct (lt_dec k (length xs)) as [Hk1|Hk1].
      + (* the assigning loop over the old elements fails *)
        destruct (assign_from_run a b Hab (data_ vt) rhs vr ys _ ob Hba Hbb Hszr Hler Hr
                    (length xs) k 0 h lg _ Ha Hb) as [lg' Heq]; [lia | lia | |].
        { apply live_seg_prefix. lia. }
        destruct (Nat.ltb_spec k (length xs)); [|lia].
        exists lg'. apply bind_Throw. rewrite Heq. do 3 f_equal.
        * rewrite drop_0, Nat.min_l, Nat.max_r by lia.
          rewrite <- (take_drop k xs) at 1.
          rewrite !fmap_app, <- !app_assoc.
          apply splice_at_app0. rewrite !length_fmap, !length_take. lia.
        * f_equal. lia.
      + (* the constructing loop fails *)
        destruct (assign_from_run a b Hab (data_ vt) rhs vr ys _ ob Hba Hbb Hszr Hler Hr
                    (length xs) k 0 h lg _ Ha Hb) as [lg1 Heq1]; [lia | lia | |].
        { apply live_seg_prefix. lia. }
        destruct (Nat.ltb_spec k (length xs)); [lia|].
        rewrite (bind_Ret _ _ _ _ _ Heq1).
        rewrite drop_0, Nat.min_r by lia.
        rewrite (splice_at_app0 (Live <$> take (length xs) ys) (Live <$> xs))
          by (rewrite !length_fmap, length_take; lia).
        set (sl1 := (Live <$> take (length xs) ys)
                    ++ replicate (capacity_ (data_ vt) - length xs) Raw).
        assert (Hlen1 : length sl1 = capacity_ (data_ vt)).
        { unfold sl1. rewrite length_app, length_fmap, length_take, length_replicate. lia. }
        destruct (construct_from_run a b Hab (data_ vt) rhs vr ys
                    (replicate (capacity_ (data_ vr) - length ys) Raw)
                    ob Hba Hbb Hszr Hler Hr
                    (length ys - length xs) (k - length xs) (length xs)
                    (<[a := sl1]> h) lg1 sl1) as [lg2 Heq2].
        { apply lookup_insert_eq. }
        { rewrite lookup_insert_ne by congruence. exact Hb. }
        { lia. } { lia. } { lia. }
        destruct (Nat.ltb_spec (k - length xs) (length ys - length xs)); [|lia].
        exists lg2. apply bind_Throw. rewrite Heq2, insert_insert_eq. do 3 f_equal.
        * rewrite Nat.min_l, Nat.max_l by lia.
          rewrite (drop_ge xs) by lia. rewrite app_nil_r.
          unfold sl1.
          replace (capacity_ (data_ vt) - length xs)
            with ((k - length xs) + (capacity_ (data_ vt) - k)) by lia.
          rewrite replicate_add.
          rewrite splice_at_app;
            [ | rewrite length_fmap, length_take; lia
              | rewrite length_fmap, length_take, length_drop, length_replicate; lia ].
          rewrite app_assoc, <- fmap_app. do 2 f_equal.
          rewrite <- (take_drop (length xs) (take k ys)) at 1.
          rewrite take_take, Nat.min_l by lia.
          f_equal. now rewrite take_drop_commute, Nat.add_comm, Nat.sub_add by lia.
        * f_equal. lia. }
  destruct Hrun as [lg' Heq].
  eexists _, a. split; [exact Heq|].
  split; [now rewrite (buffer_of_eq _ _ _ _ _ _ Ht)|].
  split; [reflexivity|].
  split; [simpl; apply lookup_insert_eq|].
  split; [rewrite (size_of_eq _ _ _ _ _ _ Ht); now f_equal|].
  split.
  - intros Hk1. exists vt. split; [assumption|]. split; [reflexivity|].
    assert (Hl : length (take k ys ++ drop k xs) = length xs).
    { rewrite length_app, length_take, length_drop. lia. }
    split; [lia|]. split; [lia|]. simpl. rewrite Hba. split; [lia|].
    rewrite lookup_insert_eq, Hl. do 3 f_equal. lia.
  - intros Hk2. destruct (lookup_lt_is_Some_2 ys (length xs)) as [y Hy]; [lia|].
    exists y. split; [assumption|].
    unfold slot_at. simpl. rewrite lookup_insert_eq.
    rewrite lookup_app_l by (rewrite length_fmap, length_app, length_take; lia).
    rewrite list_lookup_fmap, lookup_app_l by (rewrite length_take; lia).
    rewrite lookup_take_lt by lia. now rewrite Hy.
Qed.

(** ** Operations that duplicate nothing *)

Lemma steady_ret {A} (a : A) : steady (ret a).
Proof. intros w. reflexivity. Qed.

Lemma steady_undef {A} : steady (@undef A).
Proof. intros w. exact I. Qed.

Lemma steady_bind {A B} (m : M A) (k : A -> M B) :
  steady m -> (forall a, steady (k a)) -> steady (bind m k).
Proof.
  intros Hm Hk w. unfold bind. specialize (Hm w).
  destruct (m w) as [a w1|w1| |]; try assumption.
  specialize (Hk a w1). destruct (k a w1); try assumption. congruence.
Qed.

Lemma steady_unwind {A} (m : M A) c : steady m -> steady (unwind m c).
Proof.
  intros Hm w. unfold unwind. specialize (Hm w).
  destruct (m w) as [a w1|w1| |]; try assumption. contradiction.
Qed.

Lemma steady_noexcept {A} (m : M A) : steady m -> steady (noexcept m).
Proof.
  intros Hm w. unfold noexcept. specialize (Hm w).
  destruct (m w) as [a w1|w1| |]; assumption.
Qed.

Ltac steady_prim :=
  intros w;
  cbv [poke read slot_at Allocate Deallocate get_vec put_vec new_obj del_obj
       local_obj set_heap set_objs set_fuse add_log];
  repeat case_match; simplify_eq; simpl; auto.

Lemma steady_poke p s e : steady (poke p s e).
Proof. steady_prim. Qed.

Lemma steady_read p : steady (read p).
Proof. steady_prim. Qed.

Lemma steady_Allocate n : steady (Allocate n).
Proof. steady_prim. Qed.

Lemma steady_Deallocate b : steady (Deallocate b).
Proof. steady_prim. Qed.

Lemma steady_get_vec this : steady (get_vec this).
Proof. steady_prim. Qed.

Lemma steady_put_vec this v : steady (put_vec this v).
Proof. steady_prim. Qed.

Lemma steady_new_obj this v : steady (new_obj this v).
Proof. steady_prim. Qed.

Lemma steady_del_obj this : steady (del_obj this).
Proof. steady_prim. Qed.

Create HintDb steady.
#[local] Hint Resolve steady_poke steady_read steady_Allocate steady_Deallocate
  steady_get_vec steady_put_vec steady_new_obj steady_del_obj : steady.

Ltac steady_tac :=
  repeat first
    [ solve [auto with steady]
    | apply steady_ret
    | apply steady_undef
    | apply steady_bind
    | apply steady_unwind
    | apply steady_noexcept
    | progress intros
    | match goal with |- steady (if ?b then _ else _) => destruct b end
    | match goal with |- steady (match ?x with _ => _ end) => destruct x end ].

Lemma steady_destroy_n n : forall p, steady (destroy_n p n).
Proof. induction n as [|n IH]; intros p; simpl; unfold destroy_at; steady_tac. Qed.

Lemma steady_uninitialized_n ctor (Hctor : forall p, steady (ctor p)) n :
  forall first d_first done, steady (uninitialized_n ctor first n d_first done).
Proof.
  induction n as [|n IH]; intros first d_first done; simpl; unfold construct_at; steady_tac.
Qed.

Lemma steady_distance p q : steady (distance p q).
Proof. unfold distance. steady_tac. Qed.

Lemma steady_RawMemory_plus r o : steady (RawMemory_plus r o).
Proof. unfold RawMemory_plus. steady_tac. Qed.

Lemma steady_RawMemory_at r o : steady (RawMemory_at r o).
Proof. unfold RawMemory_at. steady_tac. Qed.

Lemma steady_RawMemory_new n : steady (RawMemory_new n).
Proof. unfold RawMemory_new. steady_tac. Qed.

Lemma steady_get_data this : steady (get_data this).
Proof. unfold get_data. steady_tac. Qed.

Lemma steady_get_size this : steady (get_size this).
Proof. unfold get_size. steady_tac. Qed.

Lemma steady_set_data this d : steady (set_data this d).
Proof. unfold set_data. steady_tac. Qed.

Lemma steady_set_size this n : steady (set_size this n).
Proof. unfold set_size. steady_tac. Qed.

#[local] Hint Resolve steady_destroy_n steady_distance steady_RawMemory_plus
  steady_RawMemory_at steady_RawMemory_new steady_get_data steady_get_size
  steady_set_data steady_set_size : steady.

Lemma steady_set_buffer this b : steady (set_buffer this b).
Proof. unfold set_buffer. steady_tac. Qed.

Lemma steady_set_capacity this c : steady (set_capacity this c).
Proof. unfold set_capacity. steady_tac. Qed.

Lemma steady_begin this : steady (begin_ this).
Proof. unfold begin_. steady_tac. Qed.

Lemma steady_end this : steady (end_ this).
Proof. unfold end_. steady_tac. Qed.

Lemma steady_Vector_at this i : steady (Vector_at this i).
Proof. unfold Vector_at. steady_tac. Qed.

Lemma steady_destroy_from d n : forall i, steady (destroy_from d i n).
Proof. induction n as [|n IH]; intros i; simpl; unfold destroy_at; steady_tac. Qed.

Lemma steady_uninitialized_value_construct_n p n :
  steady (uninitialized_value_construct_n p n).
Proof. apply steady_uninitialized_n. intros. apply steady_ret. Qed.

#[local] Hint Resolve steady_set_buffer steady_set_capacity steady_begin steady_end
  steady_Vector_at steady_destroy_from steady_uninitialized_value_construct_n : steady.

(** The operations that never relocate an element. *)

Lemma steady_Vector_default this : steady (Vector_default this).
Proof. unfold Vector_default. steady_tac. Qed.

Lemma steady_Vector_sized this n : steady (Vector_sized this n).
Proof. unfold Vector_sized. steady_tac. Qed.

Lemma steady_Vector_move_ctor this other : steady (Vector_move_ctor this other).
Proof. unfold Vector_move_ctor. steady_tac. Qed.

Lemma steady_Vector_dtor this : steady (Vector_dtor this).
Proof. unfold Vector_dtor, RawMemory_dtor. steady_tac. Qed.

Lemma steady_PopBack this : steady (PopBack this).
Proof. unfold PopBack, destroy_at. steady_tac. Qed.

Lemma steady_Swap this other : steady (Swap this other).
Proof. unfold Swap, RawMemory_Swap. steady_tac. Qed.

Lemma steady_move_assign this rhs : steady (move_assign this rhs).
Proof. unfold move_assign, RawMemory_move_assign. steady_tac. Qed.

(** The operations that relocate elements, for an element type with a
    nothrow move. *)

Lemma steady_T_move_ctor (Hm : nothrow_move = true) p : steady (T_move_ctor p).
Proof. unfold T_move_ctor. rewrite Hm. steady_tac. Qed.

Lemma steady_T_move_assign (Hm : nothrow_move = true) p q : steady (T_move_assign p q).
Proof. unfold T_move_assign, assign_at. rewrite Hm. steady_tac. Qed.

Lemma steady_T_assign_temp (Hm : nothrow_move = true) p x : steady (T_assign_temp p x).
Proof. unfold T_assign_temp, assign_at. rewrite Hm. steady_tac. Qed.

Lemma steady_T_construct (Hm : nothrow_move = true) args :
  (forall x, args <> CopyOf x) -> steady (T_construct args).
Proof.
  intros Hne. unfold T_construct. destruct args as [x|x|x].
  - now destruct (Hne x).
  - rewrite Hm. apply steady_ret.
  - apply steady_ret.
Qed.

Lemma steady_uninitialized_move_n (Hm : nothrow_move = true) p n q :
  steady (uninitialized_move_n p n q).
Proof. apply steady_uninitialized_n. intros. now apply steady_T_move_ctor. Qed.

Lemma steady_move_fwd (Hm : nothrow_move = true) n :
  forall first d_first, steady (move_fwd first n d_first).
Proof.
  induction n as [|n IH]; intros first d_first; simpl; [apply steady_ret|].
  apply steady_bind; [now apply steady_T_move_assign | intros; apply IH].
Qed.

Lemma steady_move_backward (Hm : nothrow_move = true) p q r : steady (move_backward p q r).
Proof.
  unfold move_backward. apply steady_bind; [apply steady_distance|]. intros n.
  revert q r. induction n as [|n IH]; intros q r; simpl; [apply steady_ret|].
  unfold ptr_dec.
  repeat first [ apply steady_bind | progress intros | apply steady_ret | apply steady_undef
               | apply IH | now apply steady_T_move_assign
               | match goal with |- steady (match ?x with _ => _ end) => destruct x end ].
Qed.

Lemma steady_Reserve (Hm : nothrow_move = true) this n : steady (Reserve this n).
Proof.
  unfold Reserve, RawMemory_Swap_local, RawMemory_dtor. rewrite Hm.
  pose proof (steady_uninitialized_move_n Hm). steady_tac.
Qed.

Lemma steady_Resize (Hm : nothrow_move = true) this n : steady (Resize this n).
Proof. unfold Resize. pose proof (steady_Reserve Hm). steady_tac. Qed.

Lemma steady_Erase (Hm : nothrow_move = true) this pos : steady (Erase this pos).
Proof.
  unfold Erase, cbegin, std_move, ptr_dec, destroy_at.
  pose proof (steady_move_fwd Hm). steady_tac.
Qed.

Lemma steady_Emplace (Hm : nothrow_move = true) this pos args :
  (forall x, args <> CopyOf x) -> steady (Emplace this pos args).
Proof.
  intros Hne.
  pose proof (steady_T_construct Hm args Hne).
  pose proof (steady_uninitialized_move_n Hm).
  pose proof (steady_move_backward Hm).
  pose proof (steady_T_move_ctor Hm).
  pose proof (steady_T_assign_temp Hm).
  unfold Emplace, cbegin, cend, RawMemory_Swap_local, RawMemory_dtor,
    EmplaceWMove, construct_at.
  rewrite Hm. steady_tac.
Qed.

Lemma steady_EmplaceBack (Hm : nothrow_move = true) this args :
  (forall x, args <> CopyOf x) -> steady (EmplaceBack this args).
Proof.
  intros Hne. pose proof (steady_Emplace Hm this).
  unfold EmplaceBack, cend. steady_tac.
Qed.

(** In the model, where only a duplication can throw, an operation that is
    not classified as duplicating is steady. *)
Lemma run_op_steady (op : Op) : duplicates op = false -> steady (run_op op).
Proof.
  intros Hd.
  destruct op; simpl in Hd; try discriminate; simpl run_op;
    try (apply negb_false_iff in Hd);
    unfold Size, Capacity, Insert_move, PushBack_move.
  - apply steady_Vector_default.
  - apply steady_Vector_sized.
  - apply steady_Vector_move_ctor.
  - apply steady_Vector_dtor.
  - steady_tac.
  - steady_tac.
  - steady_tac.
  - steady_tac.
  - steady_tac.
  - now apply steady_Reserve.
  - now apply steady_Resize.
  - destruct args as [x|x|x]; [discriminate| |]; apply negb_false_iff in Hd;
      (apply steady_bind; [apply steady_Emplace; [assumption | discriminate]
                          | intros; apply steady_ret]).
  - apply steady_bind; [apply steady_Emplace; [assumption | discriminate]
                       | intros; apply steady_ret].
  - destruct args as [x|x|x]; [discriminate| |]; apply negb_false_iff in Hd;
      (apply steady_bind; [apply steady_EmplaceBack; [assumption | discriminate]
                          | intros; apply steady_ret]).
  - apply steady_bind; [apply steady_EmplaceBack; [assumption | discriminate]
                       | intros; apply steady_ret].
  - apply steady_PopBack.
  - apply steady_bind; [now apply steady_Erase | intros; apply steady_ret].
  - apply steady_move_assign.
  - apply steady_Swap.
Qed.

(** X20.  An operation that is not classified as duplicating duplicates no
    element: whatever the countdown is when it is called, the countdown is
    the same when it returns.  For an element type with a nothrow move these
    are all operations except the copy constructor, copy assignment and the
    insertions of a [const T&]; for a copy-only element type they are the
    operations that relocate no element. *)
Theorem operations_that_duplicate_nothing (op : Op) (w w' : World) :
  duplicates op = false -> run_op op w = Ret tt w' -> fuse w' = fuse w.
Proof.
  intros Hd Hrun. pose proof (run_op_steady op Hd w) as Hs.
  now rewrite Hrun in Hs.
Qed.

(** ** [Resize] beyond the capacity and the result of [EmplaceBack] *)

(** X21.  [Resize] to more than the capacity (a size whose byte count fits
    [size_t]) relocates through [Reserve] and inherits its rollback: for a
    copy-only element type, when the duplication of an old element fails, [Resize] throws before any element
    is value-initialised and the heap and the vector are exactly as
    before. *)
Theorem Resize_beyond_capacity_rolls_back (w : World) (this : ref) (xs : list T)
    (c m k : nat) :
  nothrow_move = false ->
  holds w this xs c -> c < m -> representable m -> fuse w = Some k -> k < length xs ->
  exists w',
    Resize this m w = Throw w' /\
    heap w' = heap w /\ objs w' = objs w /\
    holds w' this xs c /\
    size_of w' this = Some (length xs).
Proof.
  intros Hm (v & Hob & Hc & Hrep) Hcm _ Hf Hk.
  destruct w as [h ob f lg]. simpl in *. subst c f.
  pose proof Hrep as (Hsz & Hle & _).
  destruct (Reserve_fail Hm this m v xs k h ob lg Hob Hrep Hcm Hk) as [lg' Heq].
  eexists. split.
  { unfold Resize.
    step_by ltac:(apply get_vec_eq; eassumption).
    destruct (Nat.eqb_spec (size_ v) m); [lia|].
    destruct (Nat.ltb_spec m (size_ v)); [lia|].
    apply bind_Throw. exact Heq. }
  assert (HT : holds (mkWorld h ob (Some 0) lg') this xs (capacity_ (data_ v)))
    by (exists v; auto).
  split; [reflexivity|]. split; [reflexivity|]. split; [exact HT|].
  exact (holds_size _ _ _ _ HT).
Qed.

(** X22.  [EmplaceBack] returns a reference to the new last element: the
    pointer it returns is [begin() + old size] of the vector after the call,
    and the element there is the one that was constructed. *)
Theorem EmplaceBack_returns_the_new_element (w : World) (this : ref) (xs : list T)
    (c : nat) (args : Args) :
  holds w this xs c -> fuse w = None ->
  exists w' r,
    EmplaceBack this args w = Ret r w' /\
    r = iter_at w' this (length xs) /\
    read r w' = Ret (arg_value args) w' /\
    elems_of w' this = Some (xs ++ [arg_value args]).
Proof.
  intros Hh Hf.
  destruct (Emplace_spec w this xs c (length xs) args Hh (le_n _) Hf)
    as (w' & r0 & Heq & Hr0 & Hf' & Hh' & Hup).
  rewrite take_ge, drop_ge in Hh' by lia.
  destruct w as [h ob f lg]. destruct w' as [h' ob' f' lg'].
  pose proof Hh as (v & Hob & Hc & Hrep). pose proof Hh' as (v' & Hob' & Hc' & Hrep').
  simpl in *.
  rewrite (holds_iter_at _ _ _ _ _ _ _ Hob) in Heq.
  destruct Hrep as (Hsz & Hle & _). pose proof Hrep' as (Hsz' & Hle' & Hbuf').
  rewrite length_app in Hsz', Hle', Hbuf'. simpl in Hsz', Hle', Hbuf'.
  exists (mkWorld h' ob' f' lg'), (mkPtr (buffer_ (data_ v')) (length xs)).
  split.
  { unfold EmplaceBack, cend.
    step_by ltac:(apply end_eq; [eassumption | lia]).
    rewrite Hsz.
    step_by ltac:(exact Heq).
    step_by ltac:(apply get_vec_eq; eassumption).
    rewrite RawMemory_at_eq by lia. do 2 f_equal. lia. }
  split; [now rewrite (holds_iter_at _ _ _ _ _ _ _ Hob')|].
  split; [|exact (holds_elems _ _ _ _ Hh')].
  destruct (buffer_ (data_ v')) as [a'|]; [|lia].
  destruct Hbuf' as [_ Ha'].
  eapply read_eq; [eassumption|].
  rewrite lookup_app_l by (rewrite length_fmap, length_app; simpl; lia).
  rewrite list_lookup_fmap, lookup_app_r by lia.
  now rewrite Nat.sub_diag.
Qed.


(** ** Vectors that an operation is not applied to *)









(** ** Reallocation by [Reserve] *)

(** X24.  A growing [Reserve] (to a capacity whose byte count fits
    [size_t]) moves the vector to a block that was not
    allocated before and frees the old one, so pointers into the old block
    dangle; every other block is as before.  It performs one duplication
    per element for a copy-only element type and none for an element type
    with a nothrow move. *)
Theorem Reserve_moves_to_a_new_block (w : World) (this : ref) (xs : list T) (c n : nat) :
  holds w this xs c -> c < n -> representable n ->
  enough (cost (length xs)) (fuse w) ->
  exists w' a',
    Reserve this n w = Ret tt w' /\
    buffer_of w' this = Some a' /\
    heap w !! a' = None /\
    (forall a, buffer_of w this = Some a -> heap w' !! a = None) /\
    (forall a, buffer_of w this <> Some a -> a <> a' -> heap w' !! a = heap w !! a) /\
    fuse w' = spend (cost (length xs)) (fuse w).
Proof.
  intros (v & Hob & Hc & Hrep) Hn _ Hf.
  destruct w as [h ob f lg]. simpl in *. subst c.
  destruct (Reserve_grow this n v xs h ob f lg Hob Hrep Hn Hf) as [lg' Heq].
  eexists _, (fresh (dom h)). split; [exact Heq|].
  rewrite (buffer_of_eq _ _ _ _ _ _ Hob).
  split; [now rewrite (buffer_of_eq _ _ _ _ _
                         (mkVector (mkRaw (Some (fresh (dom h))) n) (length xs)))
            by apply lookup_insert_eq|].
  split; [apply fresh_None|]. simpl.
  split; [|split; [|reflexivity]].
  - intros a Ha. rewrite Ha. simpl.
    rewrite lookup_insert_ne by (apply not_eq_sym; exact (rep_fresh h v xs a Hrep Ha)).
    apply lookup_delete_eq.
  - intros a Ha Hne. rewrite lookup_insert_ne by congruence.
    destruct (buffer_ (data_ v)) as [a0|]; simpl; [|reflexivity].
    apply lookup_delete_ne. congruence.
Qed.

(** ** Insertion into the old block when a duplication fails *)

(** The backward shift for a copy-only element type under a countdown [k]:
    it stops at the first failing duplication, after [min k (length zs)]
    assignments. *)
Lemma assign_bwd_run a : forall zs u k i pre post h ob lg,
  length pre = i ->
  h !! a = Some (pre ++ (Live <$> zs) ++ Live u :: post) ->
  exists lg',
    assign_bwd T_copy_assign (mkPtr (Some a) (i + length zs)) (length zs)
      (mkPtr (Some a) (S (i + length zs))) (mkWorld h ob (Some k) lg)
    = (if k <? length zs then Throw else Ret tt)
        (mkWorld (<[a := pre ++ (Live <$> take (S (length zs) - (k `min` length zs)) (zs ++ [u])
                                          ++ drop (length zs - (k `min` length zs)) zs)
                             ++ post]> h)
                 ob (Some (k - length zs)) lg').
Proof.
  induction zs as [|z zs IH] using rev_ind; intros u k i pre post h ob lg Hi Ha.
  - exists lg. simpl. rewrite Nat.min_0_r, !Nat.sub_0_r. simpl. simpl in Ha.
    now rewrite insert_id.
  - rewrite length_app. change (length [z]) with 1.
    replace (i + (length zs + 1)) with (S (i + length zs)) by lia.
    replace (length zs + 1) with (S (length zs)) by lia.
    assert (Hsl : pre ++ (Live <$> zs ++ [z]) ++ Live u :: post
                  = (pre ++ (Live <$> zs)) ++ Live z :: Live u :: post).
    { rewrite fmap_app, <- !app_assoc. reflexivity. }
    assert (Hz : ((pre ++ (Live <$> zs)) ++ Live z :: Live u :: post) !! (i + length zs)
                 = Some (Live z)).
    { apply lookup_middle. rewrite length_app, length_fmap. lia. }
    assert (Hu : ((pre ++ (Live <$> zs)) ++ Live z :: Live u :: post) !! S (i + length zs)
                 = Some (Live u)).
    { replace ((pre ++ (Live <$> zs)) ++ Live z :: Live u :: post)
        with (((pre ++ (Live <$> zs)) ++ [Live z]) ++ Live u :: post)
        by (now rewrite <- !app_assoc).
      apply lookup_middle. rewrite !length_app, length_fmap. simpl. lia. }
    simpl assign_bwd.
    step_by ltac:(reflexivity).
    step_by ltac:(reflexivity).
    cbn [base off].
    destruct k as [|k].
    + exists lg.
      match goal with
      | |- _ = (if ?b then _ else _) _ =>
          replace b with true by (symmetry; apply Nat.ltb_lt; lia)
      end.
      rewrite Nat.min_0_l, !Nat.sub_0_r. simpl "-".
      rewrite take_ge by (rewrite !length_app; simpl; lia).
      rewrite drop_ge by (rewrite length_app; simpl; lia).
      rewrite app_nil_r, fmap_app, <- !app_assoc. simpl.
      rewrite insert_id by (rewrite Ha, fmap_app, <- !app_assoc; reflexivity).
      apply bind_Throw. rewrite Hsl in Ha.
      eapply T_copy_assign_fail; eassumption.
    + rewrite Hsl in Ha.
      rewrite (bind_Ret _ _ _ _ _
                 (T_copy_assign_gen a a (S (i + length zs)) (i + length zs) z u h ob
                    (Some (S k)) lg _ _ Ha Ha Hu Hz ltac:(simpl; lia))).
      simpl spend. rewrite Nat.sub_0_r.
      destruct (IH z k i pre (Live z :: post)
                  (<[a := <[S (i + length zs) := Live z]>
                            ((pre ++ (Live <$> zs)) ++ Live z :: Live u :: post)]> h)
                  ob (lg ++ [ev_assign a (S (i + length zs))]) Hi) as [lg' Heq].
      { rewrite lookup_insert_eq. f_equal.
        replace ((pre ++ (Live <$> zs)) ++ Live z :: Live u :: post)
          with (((pre ++ (Live <$> zs)) ++ [Live z]) ++ Live u :: post)
          by (now rewrite <- !app_assoc).
        rewrite insert_middle by (rewrite !length_app, length_fmap; simpl; lia).
        now rewrite <- !app_assoc. }
      exists lg'. cbn [base off]. rewrite Heq, insert_insert_eq.
      change (S k <? S (length zs)) with (k <? length zs).
      change (S k `min` S (length zs)) with (S (k `min` length zs)).
      change (S k - S (length zs)) with (k - length zs).
      change (S (S (length zs)) - S (k `min` length zs))
        with (S (length zs) - (k `min` length zs)).
      change (S (length zs) - S (k `min` length zs))
        with (length zs - (k `min` length zs)).
      rewrite (take_app_le (zs ++ [z])) by (rewrite length_app; simpl; lia).
      rewrite (drop_app_le zs) by lia.
      do 3 f_equal.
      rewrite !fmap_app, <- !app_assoc. reflexivity.
Qed.

(** X25.  Insertion before the end into a block with room has no rollback.
    For a copy-only element type, once the new element was built and the
    last element was duplicated into the slot behind the end, a failing
    duplication during the backward shift or in the final assignment of the
    new element makes [Emplace] throw with the size unchanged and [size + 1]
    live elements in the block: the old elements with one of them twice,
    [m] being the number of completed shifts. *)
Theorem Emplace_in_place_is_not_atomic (w : World) (this : ref) (pfx zs : list T) (xl : T)
    (c k : nat) (args : Args) :
  nothrow_move = false ->
  holds w this (pfx ++ zs ++ [xl]) c -> length (pfx ++ zs ++ [xl]) < c ->
  fuse w = Some k -> args_cost args + 1 <= k -> k < args_cost args + 2 + length zs ->
  exists w' a,
    Emplace this (iter_at w this (length pfx)) args w = Throw w' /\
    buffer_of w this = Some a /\
    objs w' = objs w /\
    heap w' !! a
    = Some ((Live <$> pfx ++ (take (S (length zs) - (k - args_cost args - 1)) (zs ++ [xl])
                              ++ drop (length zs - (k - args_cost args - 1)) zs) ++ [xl])
            ++ replicate (c - S (length (pfx ++ zs ++ [xl]))) Raw) /\
    size_of w' this = Some (length (pfx ++ zs ++ [xl])) /\
    slot_at w' (mkPtr (Some a) (length (pfx ++ zs ++ [xl]))) = Some (Live xl).
Proof.
  intros Hm (v & Hob & Hc & Hrep) Hlt Hf Hk1 Hk2.
  destruct w as [h ob f lg]. simpl in *. subst c f.
  pose proof Hrep as (Hsz & Hle & Hbuf).
  destruct (buffer_ (data_ v)) as [a|] eqn:Hb; [|lia].
  destruct Hbuf as [Hc Ha].
  rewrite !length_app in *. simpl length in *.
  set (i := length pfx) in *. set (mz := length zs) in *.
  set (c := capacity_ (data_ v)) in *.
  set (ac := args_cost args) in *.
  set (R := replicate (c - S (i + (mz + 1))) Raw).
  assert (Hblock : (Live <$> pfx ++ zs ++ [xl]) ++ replicate (c - (i + (mz + 1))) Raw
                   = ((Live <$> pfx) ++ (Live <$> zs)) ++ Live xl :: Raw :: R).
  { replace (c - (i + (mz + 1))) with (S (c - S (i + (mz + 1)))) by lia.
    rewrite !fmap_app, <- !app_assoc. reflexivity. }
  rewrite Hblock in Ha.
  set (m := k - ac - 1) in *.
  assert (Hmz : m <= mz) by (unfold m; lia).
  set (F := take (S mz - m) (zs ++ [xl]) ++ drop (mz - m) zs).
  assert (Hrun : exists lg',
            Emplace this (mkPtr (Some a) i) args (mkWorld h ob (Some k) lg)
            = Throw (mkWorld (<[a := (Live <$> pfx) ++ (Live <$> F) ++ Live xl :: R]> h)
                             ob (Some 0) lg')).
  { unfold Emplace.
    step_by ltac:(apply cbegin_eq; eassumption).
    rewrite Hb.
    step_by ltac:(apply distance_eq; lia).
    rewrite Nat.sub_0_r.
    step_by ltac:(apply get_vec_eq; eassumption).
    destruct (Nat.eqb_spec (size_ v) (capacity_ (data_ v))); [fold c in e; lia|].
    rewrite Hm. unfold EmplaceWCopy.
    assert (Hbody : exists lg',
              (v0 <- get_vec this ;;
               if (0 <? size_ v0) && negb (i =? size_ v0) then
                 tmp_val <- T_construct args ;;
                 d <- RawMemory_plus (data_ v0) (size_ v0) ;;
                 l <- RawMemory_at (data_ v0) (size_ v0 - 1) ;;
                 x <- T_move_ctor l ;;
                 construct_at d x ;;;
                 first <- RawMemory_plus (data_ v0) i ;;
                 last <- RawMemory_plus (data_ v0) (size_ v0 - 1) ;;
                 d_last <- RawMemory_plus (data_ v0) (size_ v0) ;;
                 copy_backward first last d_last ;;;
                 t <- RawMemory_at (data_ v0) i ;;
                 T_assign_temp t tmp_val
               else
                 p <- RawMemory_plus (data_ v0) i ;;
                 x <- T_construct args ;;
                 construct_at p x) (mkWorld h ob (Some k) lg)
              = Throw (mkWorld (<[a := (Live <$> pfx) ++ (Live <$> F) ++ Live xl :: R]> h)
                               ob (Some 0) lg')).
    { step_by ltac:(apply get_vec_eq; eassumption).
      rewrite Hsz.
      destruct (Nat.ltb_spec 0 (i + (mz + 1))); [|lia].
      destruct (Nat.eqb_spec i (i + (mz + 1))); [lia|]. cbn [andb negb].
      step_by ltac:(apply T_construct_gen; fold ac; simpl; lia).
      fold ac. simpl spend.
      step_by ltac:(apply RawMemory_plus_eq; fold c; lia).
      step_by ltac:(apply RawMemory_at_eq; fold c; lia).
      rewrite Hb. replace (i + (mz + 1) - 1) with (i + mz) by lia.
      unfold T_move_ctor. rewrite Hm.
      step_by ltac:(eapply (T_copy_ctor_eq a (i + mz) xl);
                    [ eassumption
                    | apply lookup_middle; rewrite length_app, !length_fmap; reflexivity
                    | simpl; lia ]).
      simpl spend. fold m.
      step_by ltac:(eapply (construct_at_eq a (i + (mz + 1)) xl);
                    [ eassumption
                    | rewrite !length_app, !length_fmap; simpl; lia ]).
      assert (Hblock2 : <[i + (mz + 1) := Live xl]>
                          (((Live <$> pfx) ++ (Live <$> zs)) ++ Live xl :: Raw :: R)
                        = (Live <$> pfx) ++ (Live <$> zs) ++ Live xl :: Live xl :: R).
      { replace (((Live <$> pfx) ++ (Live <$> zs)) ++ Live xl :: Raw :: R)
          with ((((Live <$> pfx) ++ (Live <$> zs)) ++ [Live xl]) ++ Raw :: R)
          by (now rewrite <- !app_assoc).
        rewrite insert_middle by (rewrite !length_app, !length_fmap; simpl; lia).
        now rewrite <- !app_assoc. }
      rewrite Hblock2.
      step_by ltac:(apply RawMemory_plus_eq; fold c; lia).
      step_by ltac:(apply RawMemory_plus_eq; fold c; lia).
      step_by ltac:(apply RawMemory_plus_eq; fold c; lia).
      rewrite Hb. replace (i + (mz + 1) - 1) with (i + mz) by lia.
      replace (i + (mz + 1)) with (S (i + mz)) by lia.
      destruct (assign_bwd_run a zs xl m i (Live <$> pfx) (Live xl :: R)
                  (<[a := (Live <$> pfx) ++ (Live <$> zs) ++ Live xl :: Live xl :: R]> h)
                  ob (lg ++ [EvConstruct (mkPtr (Some a) (S (i + mz)))]))
        as [lg1 Heq1].
      { apply length_fmap. }
      { apply lookup_insert_eq. }
      fold mz in Heq1. rewrite Nat.min_l, insert_insert_eq in Heq1 by assumption.
      fold F in Heq1.
      destruct (Nat.ltb_spec m mz) as [Hloop|Hlast].
      - exists lg1. apply bind_Throw. unfold copy_backward.
        step_by ltac:(apply distance_eq; lia).
        replace (i + mz - i) with mz by lia. rewrite Heq1.
        replace (m - mz) with 0 by lia. reflexivity.
      - erewrite bind_Ret; cycle 1.
        { unfold copy_backward.
          step_by ltac:(apply distance_eq; lia).
          replace (i + mz - i) with mz by lia. exact Heq1. }
        cbv beta.
        step_by ltac:(apply RawMemory_at_eq; fold c; lia).
        exists lg1. apply bind_Throw. rewrite Hm.
        replace (m - mz) with 0 by lia. reflexivity. }
    destruct Hbody as [lg' Hbody].
    exists lg'. apply bind_Throw. exact Hbody. }
  destruct Hrun as [lg' Heq].
  rewrite (holds_iter_at _ _ _ _ _ _ _ Hob), Hb.
  eexists _, a. split; [exact Heq|].
  split; [now rewrite (buffer_of_eq _ _ _ _ _ _ Hob)|].
  split; [reflexivity|].
  assert (HF : length F = S mz).
  { unfold F. rewrite length_app, length_take, length_drop, length_app. simpl. lia. }
  split.
  { simpl. rewrite lookup_insert_eq. f_equal.
    rewrite !fmap_app, <- !app_assoc. reflexivity. }
  split; [rewrite (size_of_eq _ _ _ _ _ _ Hob); f_equal; lia|].
  unfold slot_at. simpl. rewrite lookup_insert_eq.
  replace ((Live <$> pfx) ++ (Live <$> F) ++ Live xl :: R)
    with (((Live <$> pfx) ++ (Live <$> F)) ++ Live xl :: R)
    by (now rewrite <- !app_assoc).
  apply lookup_middle. rewrite length_app, !length_fmap, HF. lia.
Qed.

(** ** The invariant at every exit *)

(** Where an exception that leaves a sequence or a cleanup came from. *)
Lemma bind_Throw_inv {A B} (m : M A) (k : A -> M B) w w' :
  bind m k w = Throw w' ->
  m w = Throw w' \/ exists a w1, m w = Ret a w1 /\ k a w1 = Throw w'.
Proof.
  unfold bind. destruct (m w) as [a w1|w1| |]; intros H; try discriminate.
  - right. eauto.
  - left. congruence.
Qed.

Lemma unwind_Throw_inv {A} (m : M A) c w w' :
  unwind m c w = Throw w' -> exists w2, m w = Throw w2 /\ c w2 = Ret tt w'.
Proof.
  unfold unwind. destruct (m w) as [a w1|w1| |]; try discriminate.
  destruct (c w1) as [[] w2|w2| |] eqn:E; try discriminate.
  intros [= <-]. eauto.
Qed.

Lemma steady_no_Throw {A} (m : M A) w w' : steady m -> m w <> Throw w'.
Proof. intros Hs H. specialize (Hs w). now rewrite H in Hs. Qed.

Lemma noexcept_no_Throw {A} (m : M A) w w' : noexcept m w <> Throw w'.
Proof. unfold noexcept. destruct (m w); discriminate. Qed.

Lemma T_construct_Throw_inv args w w' : T_construct args w = Throw w' -> w' = w.
Proof.
  unfold T_construct, dup, ret.
  destruct args, nothrow_move, (fuse w) as [[|k]|]; intros [=]; auto.
Qed.

(** The invariant looks at the vector objects and at the pattern of live
    and raw slots only. *)
Lemma forallb_is_live (l : list Slot) : forallb is_live l = forallb id (is_live <$> l).
Proof. induction l as [|s l IH]; simpl; [reflexivity | now rewrite IH]. Qed.

Lemma forallb_is_raw (l : list Slot) : forallb is_raw l = forallb negb (is_live <$> l).
Proof. induction l as [|s l IH]; simpl; [reflexivity | now rewrite IH]. Qed.

Lemma vec_inv_shape h h' v : shape h' = shape h -> vec_inv h' v = vec_inv h v.
Proof.
  intros Hs. unfold vec_inv. f_equal.
  destruct (buffer_ (data_ v)) as [a|]; [|reflexivity]. f_equal.
  assert (Ha : shape h' !! a = shape h !! a) by now rewrite Hs.
  unfold shape in Ha. rewrite !lookup_fmap in Ha.
  destruct (h' !! a) as [sl'|], (h !! a) as [sl|]; simpl in Ha; try discriminate;
    [|reflexivity].
  injection Ha as Ha.
  assert (Hlen : length sl' = length sl).
  { apply (f_equal length) in Ha. now rewrite !length_fmap in Ha. }
  now rewrite !forallb_is_live, !forallb_is_raw, !fmap_take, !fmap_drop, Ha, Hlen.
Qed.

Lemma world_ok_same_shape w w' : same_shape w w' -> world_ok w -> world_ok w'.
Proof.
  intros [Ho Hs] [Hinv Hap]. split.
  - intros p v Hv. rewrite (vec_inv_shape _ _ _ Hs). apply (Hinv p). now rewrite <- Ho.
  - intros p q Hne a. unfold buffer_of. rewrite !Ho. now apply Hap.
Qed.

Lemma world_ok_same w w' : heap w' = heap w -> objs w' = objs w -> world_ok w -> world_ok w'.
Proof. intros Hh Ho. apply world_ok_same_shape. split; [assumption | now rewrite Hh]. Qed.

(** *** Computations that keep the shape *)

Lemma same_shape_refl w : same_shape w w.
Proof. split; reflexivity. Qed.

Lemma same_shape_trans w1 w2 w3 : same_shape w1 w2 -> same_shape w2 w3 -> same_shape w1 w3.
Proof. intros [? ?] [? ?]. split; congruence. Qed.

Lemma keeps_shape_ret {A} (a : A) : keeps_shape (ret a).
Proof. intros w. apply same_shape_refl. Qed.

Lemma keeps_shape_undef {A} : keeps_shape (@undef A).
Proof. intros w. exact I. Qed.

Lemma keeps_shape_bind {A B} (m : M A) (k : A -> M B) :
  keeps_shape m -> (forall a, keeps_shape (k a)) -> keeps_shape (bind m k).
Proof.
  intros Hm Hk w. unfold bind. specialize (Hm w).
  destruct (m w) as [a w1|w1| |]; try assumption.
  specialize (Hk a w1). destruct (k a w1); try assumption;
    eapply same_shape_trans; eassumption.
Qed.

Lemma keeps_shape_read p : keeps_shape (read p).
Proof.
  intros w. unfold read. destruct (slot_at w p) as [[|x]|]; try exact I.
  apply same_shape_refl.
Qed.

Lemma keeps_shape_dup x : keeps_shape (dup x).
Proof.
  intros w. unfold dup. destruct (fuse w) as [[|k]|]; split; reflexivity.
Qed.

Lemma keeps_shape_get_vec this : keeps_shape (get_vec this).
Proof.
  intros w. unfold get_vec. destruct (objs w !! this); [apply same_shape_refl | exact I].
Qed.

(** Assignment stores into a live slot. *)
Lemma keeps_shape_assign_at p x : keeps_shape (assign_at p x).
Proof.
  intros w. unfold assign_at, bind, read, slot_at, poke.
  destruct (base p) as [a|]; [|exact I].
  destruct (heap w !! a) as [sl|] eqn:Ha; [|exact I].
  destruct (sl !! off p) as [[|y]|] eqn:Hy; try exact I.
  rewrite Ha. destruct (off p <? length sl); [|exact I].
  split; [reflexivity|]. simpl. unfold shape.
  rewrite fmap_insert, list_fmap_insert. simpl.
  rewrite (list_insert_id (is_live <$> sl) (off p) true)
    by (rewrite list_lookup_fmap, Hy; reflexivity).
  apply insert_id. now rewrite lookup_fmap, Ha.
Qed.

Lemma keeps_shape_T_copy_assign p q : keeps_shape (T_copy_assign p q).
Proof.
  unfold T_copy_assign.
  apply keeps_shape_bind; [apply keeps_shape_read | intros x].
  apply keeps_shape_bind; [apply keeps_shape_dup | intros y].
  apply keeps_shape_assign_at.
Qed.

Lemma keeps_shape_assign_from d rhs n : forall i, keeps_shape (assign_from d rhs i n).
Proof.
  induction n as [|n IH]; intros i; simpl; [apply keeps_shape_ret|].
  unfold Vector_at, RawMemory_at.
  apply keeps_shape_bind.
  { destruct (i <? capacity_ d); [apply keeps_shape_ret | apply keeps_shape_undef]. }
  intros p. apply keeps_shape_bind.
  { apply keeps_shape_bind; [apply keeps_shape_get_vec | intros v].
    destruct (i <? size_ v); [|apply keeps_shape_undef].
    destruct (i <? capacity_ (data_ v)); [apply keeps_shape_ret | apply keeps_shape_undef]. }
  intros q. apply keeps_shape_bind; [apply keeps_shape_T_copy_assign | intros; apply IH].
Qed.

(** *** Computations that write to one block only *)

Lemma same_but_refl a' w : same_but a' w w.
Proof. split; [reflexivity|]. split; auto. Qed.

Lemma same_but_trans a' w1 w2 w3 :
  same_but a' w1 w2 -> same_but a' w2 w3 -> same_but a' w1 w3.
Proof.
  intros (Ho1 & Hh1 & Hs1) (Ho2 & Hh2 & Hs2). split; [congruence|]. split.
  - intros a Ha. rewrite (Hh2 a Ha). now apply Hh1.
  - auto.
Qed.

Lemma confined_ret {A} a' (a : A) : confined a' (ret a).
Proof. intros w. apply same_but_refl. Qed.

Lemma confined_undef {A} a' : confined a' (@undef A).
Proof. intros w. exact I. Qed.

Lemma confined_bind {A B} a' (m : M A) (k : A -> M B) :
  confined a' m -> (forall a, confined a' (k a)) -> confined a' (bind m k).
Proof.
  intros Hm Hk w. unfold bind. specialize (Hm w).
  destruct (m w) as [a w1|w1| |]; try assumption.
  specialize (Hk a w1). destruct (k a w1); try assumption;
    eapply same_but_trans; eassumption.
Qed.

Lemma confined_unwind {A} a' (m : M A) c :
  confined a' m -> confined a' c -> confined a' (unwind m c).
Proof.
  intros Hm Hc w. unfold unwind. specialize (Hm w).
  destruct (m w) as [a w1|w1| |]; try assumption.
  specialize (Hc w1). destruct (c w1); try exact I.
  eapply same_but_trans; eassumption.
Qed.

Lemma confined_read a' p : confined a' (read p).
Proof.
  intros w. unfold read. destruct (slot_at w p) as [[|x]|]; try exact I.
  apply same_but_refl.
Qed.

Lemma confined_dup a' x : confined a' (dup x).
Proof.
  intros w. unfold dup.
  destruct (fuse w) as [[|k]|]; (split; [reflexivity|]; split; auto).
Qed.

Lemma confined_get_vec a' this : confined a' (get_vec this).
Proof.
  intros w. unfold get_vec. destruct (objs w !! this); [apply same_but_refl | exact I].
Qed.

Lemma confined_poke a' p s e : base p = Some a' -> confined a' (poke p s e).
Proof.
  intros Hp w. unfold poke. rewrite Hp.
  destruct (heap w !! a') as [sl|] eqn:Ha; [|exact I].
  destruct (off p <? length sl); [|exact I].
  split; [reflexivity|]. simpl. split.
  - intros a Hne. now rewrite lookup_insert_ne by congruence.
  - intros _. rewrite lookup_insert_eq. eauto.
Qed.

Lemma confined_T_construct a' args : confined a' (T_construct args).
Proof.
  unfold T_construct.
  destruct args; try destruct nothrow_move; (apply confined_dup || apply confined_ret).
Qed.

Lemma confined_T_copy_ctor a' p : confined a' (T_copy_ctor p).
Proof.
  unfold T_copy_ctor.
  apply confined_bind; [apply confined_read | intros; apply confined_dup].
Qed.

Lemma confined_destroy_n a' n : forall p, base p = Some a' -> confined a' (destroy_n p n).
Proof.
  induction n as [|n IH]; intros p Hp; simpl; [apply confined_ret|].
  unfold destroy_at.
  apply confined_bind; [|intros; now apply IH].
  apply confined_bind; [apply confined_read | intros; now apply confined_poke].
Qed.

Lemma confined_uninitialized_copy a' n : forall first d_first done,
  base d_first = Some a' ->
  confined a' (uninitialized_n T_copy_ctor first n d_first done).
Proof.
  induction n as [|n IH]; intros first d_first done Hd; simpl; [apply confined_ret|].
  apply confined_bind.
  { apply confined_unwind; [apply confined_T_copy_ctor | now apply confined_destroy_n]. }
  intros x. apply confined_bind; [now apply confined_poke | intros; now apply IH].
Qed.

Lemma confined_RawMemory_plus a' r o : confined a' (RawMemory_plus r o).
Proof.
  unfold RawMemory_plus.
  destruct (o <=? capacity_ r); [apply confined_ret | apply confined_undef].
Qed.

Lemma confined_end a' this : confined a' (end_ this).
Proof.
  unfold end_. apply confined_bind; [apply confined_get_vec | intros v].
  apply confined_RawMemory_plus.
Qed.

Lemma confined_plus_bind {B} a' r o (k : Ptr -> M B) :
  confined a' (k (mkPtr (buffer_ r) o)) -> confined a' (p <- RawMemory_plus r o ;; k p).
Proof.
  intros Hk w. unfold bind, RawMemory_plus, ret, undef.
  destruct (o <=? capacity_ r); [exact (Hk w) | exact I].
Qed.

(** The population of the new block by duplication writes to the new block
    only. *)
Lemma confined_grow_body a' this v ns num_pos pos args :
  confined a' (grow_body uninitialized_copy_n this v (mkRaw (Some a') ns) num_pos pos args).
Proof.
  unfold grow_body, uninitialized_copy_n, construct_at, cend, GetAddress.
  apply confined_plus_bind. simpl buffer_.
  apply confined_bind; [apply confined_T_construct | intros x].
  apply confined_bind; [now apply confined_poke | intros _].
  apply confined_bind; [now apply confined_uninitialized_copy | intros _].
  apply confined_bind; [apply confined_end | intros e].
  destruct (negb (bool_decide (pos = e))); [|apply confined_ret].
  apply confined_bind; [apply confined_RawMemory_plus | intros s].
  apply confined_plus_bind. now apply confined_uninitialized_copy.
Qed.

(** *** The exits by an exception of the single operations *)

Lemma RawMemory_plus_inv r o w p w' : RawMemory_plus r o w = Ret p w' -> w' = w.
Proof.
  unfold RawMemory_plus, ret, undef. destruct (o <=? capacity_ r); intros [=]; auto.
Qed.

(** Construction of the new element in its slot: only the construction can
    throw, and it does so before the slot is written. *)
Lemma construct_in_place_Throw r o args w w' :
  (p <- RawMemory_plus r o ;; x <- T_construct args ;; construct_at p x) w = Throw w' ->
  w' = w.
Proof.
  intros H. apply bind_Throw_inv in H as [H | (p & w1 & Hp & H)].
  { exfalso. revert H. apply steady_no_Throw, steady_RawMemory_plus. }
  apply RawMemory_plus_inv in Hp as ->.
  apply bind_Throw_inv in H as [H | (x & w2 & _ & H)].
  - now apply T_construct_Throw_inv in H.
  - exfalso. revert H. apply steady_no_Throw. unfold construct_at. apply steady_poke.
Qed.

(** [Emplace] on the growth path, or at the end of a block with room: an
    exception leaves the heap and the vector objects as they were. *)
Lemma Emplace_Throw_atomic this v xs i args h ob f lg w' :
  ob !! this = Some v -> rep h v xs -> i <= length xs ->
  size_ v = capacity_ (data_ v) \/ i = size_ v ->
  Emplace this (mkPtr (buffer_ (data_ v)) i) args (mkWorld h ob f lg) = Throw w' ->
  heap w' = h /\ objs w' = ob.
Proof.
  intros Hob Hrep Hi Hpath. pose proof Hrep as (Hsz & Hle & Hbuf).
  pose proof (fresh_None h) as Hfresh.
  unfold Emplace.
  step_by ltac:(apply cbegin_eq; eassumption).
  step_by ltac:(apply distance_eq; lia).
  rewrite Nat.sub_0_r.
  step_by ltac:(apply get_vec_eq; eassumption).
  intros H. apply bind_Throw_inv in H as [H | (u & w1 & _ & H)].
  2:{ exfalso. revert H. apply steady_no_Throw. steady_tac. }
  destruct (Nat.eqb_spec (size_ v) (capacity_ (data_ v))) as [Hfull|Hroom].
  - cbv zeta in H.
    set (ns := if 0 <? size_ v then size_ v * 2 else 1) in H.
    assert (Hns : ns <> 0) by (unfold ns; destruct (Nat.ltb_spec 0 (size_ v)); lia).
    set (a' := fresh (dom h)) in *.
    revert H.
    step_by ltac:(apply RawMemory_new_eq; exact Hns).
    fold a'.
    intros H. apply bind_Throw_inv in H as [H | (u & w1 & _ & H)].
    2:{ exfalso. revert H. apply steady_no_Throw.
        unfold RawMemory_Swap_local, RawMemory_dtor. steady_tac. }
    apply unwind_Throw_inv in H as (w2 & Hb & Hc).
    unfold RawMemory_dtor in Hc. simpl buffer_ in Hc.
    destruct nothrow_move eqn:Hm.
    + apply bind_Throw_inv in Hb as [Hb | (p & w1 & Hp & Hb)].
      { exfalso. revert Hb. apply steady_no_Throw, steady_RawMemory_plus. }
      apply RawMemory_plus_inv in Hp as ->.
      apply bind_Throw_inv in Hb as [Hb | (x & w1 & _ & Hb)].
      2:{ exfalso. revert Hb. apply steady_no_Throw.
          pose proof (steady_uninitialized_move_n Hm).
          unfold construct_at, cend. steady_tac. }
      apply T_construct_Throw_inv in Hb as ->.
      rewrite (Deallocate_eq _ (replicate ns Raw)) in Hc by apply lookup_insert_eq.
      injection Hc as <-. simpl. split; [|reflexivity].
      now apply delete_insert_id.
    + change (grow_body uninitialized_copy_n this v (mkRaw (Some a') ns) i
                (mkPtr (buffer_ (data_ v)) i) args
                (mkWorld (<[a' := replicate ns Raw]> h) ob f (lg ++ [EvAlloc a' ns]))
              = Throw w2) in Hb.
      pose proof (confined_grow_body a' this v ns i (mkPtr (buffer_ (data_ v)) i) args
                    (mkWorld (<[a' := replicate ns Raw]> h) ob f (lg ++ [EvAlloc a' ns])))
        as Hconf.
      rewrite Hb in Hconf. destruct Hconf as (Ho & Hh & Hs). simpl in Ho, Hh, Hs.
      unfold Deallocate in Hc.
      destruct (heap w2 !! a') as [sl|] eqn:Ha'; [|discriminate].
      injection Hc as <-. simpl. split; [|exact Ho].
      apply map_eq. intros a. destruct (decide (a = a')) as [->|Hne].
      * now rewrite lookup_delete_eq, Hfresh.
      * rewrite lookup_delete_ne by congruence.
        rewrite (Hh a Hne). now apply lookup_insert_ne.
  - destruct Hpath as [Hfull | ->]; [contradiction|].
    assert (Hbr : (0 <? size_ v) && negb (size_ v =? size_ v) = false)
      by (rewrite Nat.eqb_refl; apply andb_false_r).
    destruct nothrow_move; [unfold EmplaceWMove in H | unfold EmplaceWCopy in H];
      revert H;
      (step_by ltac:(apply get_vec_eq; eassumption));
      rewrite Hbr; intros H; apply construct_in_place_Throw in H; now subst w'.
Qed.

Lemma EmplaceBack_Throw_atomic this v xs args h ob f lg w' :
  ob !! this = Some v -> rep h v xs ->
  EmplaceBack this args (mkWorld h ob f lg) = Throw w' ->
  heap w' = h /\ objs w' = ob.
Proof.
  intros Hob Hrep. pose proof Hrep as (Hsz & Hle & _).
  unfold EmplaceBack, cend.
  step_by ltac:(apply end_eq; [eassumption | lia]).
  intros H. apply bind_Throw_inv in H as [H | (u & w1 & _ & H)].
  - apply (Emplace_Throw_atomic this v xs (size_ v) args h ob f lg w' Hob Hrep);
      [lia | now right | exact H].
  - exfalso. revert H. apply steady_no_Throw. steady_tac.
Qed.

Lemma Reserve_Throw_atomic this n v xs h ob f lg w' :
  ob !! this = Some v -> rep h v xs ->
  Reserve this n (mkWorld h ob f lg) = Throw w' ->
  heap w' = h /\ objs w' = ob.
Proof.
  intros Hob Hrep H.
  destruct (Nat.le_gt_cases n (capacity_ (data_ v))) as [Hle|Hgt].
  { rewrite (Reserve_noop this n v h ob f lg Hob Hle) in H. discriminate. }
  destruct (affordable (cost (length xs)) f) eqn:Haff.
  - apply affordable_enough in Haff.
    destruct (Reserve_grow this n v xs h ob f lg Hob Hrep Hgt Haff) as [lg' Heq].
    rewrite Heq in H. discriminate.
  - apply affordable_false in Haff as (k & -> & Hk). unfold cost in Hk.
    destruct nothrow_move eqn:Hm; [lia|].
    destruct (Reserve_fail Hm this n v xs k h ob lg Hob Hrep Hgt Hk) as [lg' Heq].
    rewrite Heq in H. injection H as <-. split; reflexivity.
Qed.

Lemma Resize_Throw_atomic this m v xs h ob f lg w' :
  ob !! this = Some v -> rep h v xs ->
  Resize this m (mkWorld h ob f lg) = Throw w' ->
  heap w' = h /\ objs w' = ob.
Proof.
  intros Hob Hrep. unfold Resize.
  step_by ltac:(apply get_vec_eq; eassumption).
  destruct (size_ v =? m); [discriminate|].
  destruct (m <? size_ v).
  { intros H. exfalso. revert H. apply steady_no_Throw. steady_tac. }
  intros H. apply bind_Throw_inv in H as [H | (u & w1 & _ & H)].
  - exact (Reserve_Throw_atomic this m v xs h ob f lg w' Hob Hrep H).
  - exfalso. revert H. apply steady_no_Throw. steady_tac.
Qed.

Lemma Vector_copy_ctor_Throw_atomic this other vo ys h ob f lg w' :
  ob !! this = None -> ob !! other = Some vo -> rep h vo ys ->
  Vector_copy_ctor this other (mkWorld h ob f lg) = Throw w' ->
  heap w' = h /\ objs w' = ob.
Proof.
  intros Hnone Ho Hrep H.
  destruct (affordable (length ys) f) eqn:Haff.
  - apply affordable_enough in Haff.
    destruct (Vector_copy_ctor_eq this other vo ys h ob f lg Hnone Ho Hrep Haff) as [lg' Heq].
    rewrite Heq in H. discriminate.
  - apply affordable_false in Haff as (k & -> & Hk).
    destruct (Vector_copy_ctor_fail this other vo ys k h ob lg Hnone Ho Hrep Hk) as [lg' Heq].
    rewrite Heq in H. injection H as <-. split; reflexivity.
Qed.

(** Copy assignment that builds a copy and swaps it in, or that assigns to
    the elements it has and destroys the others: an exception leaves the
    vector objects as they were, and every slot live or raw as it was. *)
Lemma copy_assign_Throw_shape this rhs vt vr xs ys h ob f lg w' :
  ob !! this = Some vt -> ob !! rhs = Some vr -> rep h vt xs -> rep h vr ys ->
  this = rhs \/ capacity_ (data_ vt) < size_ vr \/ size_ vr <= size_ vt ->
  copy_assign this rhs (mkWorld h ob f lg) = Throw w' ->
  same_shape (mkWorld h ob f lg) w'.
Proof.
  intros Ht Hr Hrt Hrr Hpath H. pose proof Hrr as (Hszr & _).
  destruct (decide (this = rhs)) as [->|Hne].
  { unfold copy_assign in H. rewrite Nat.eqb_refl in H. discriminate. }
  destruct (Nat.lt_ge_cases (capacity_ (data_ vt)) (size_ vr)) as [Hgrow|Hfit].
  - rewrite Hszr in Hgrow.
    destruct (affordable (length ys) f) eqn:Haff.
    + apply affordable_enough in Haff.
      destruct (copy_assign_grow this rhs vt vr xs ys h ob f lg Hne Ht Hr Hrt Hrr Hgrow Haff)
        as [lg' Heq].
      rewrite Heq in H. discriminate.
    + apply affordable_false in Haff as (k & -> & Hk).
      destruct (copy_assign_grow_fail this rhs vt vr ys k h ob lg Hne Ht Hr Hrr Hgrow Hk)
        as [lg' Heq].
      rewrite Heq in H. injection H as <-. split; reflexivity.
  - destruct Hpath as [Hself|[Hgrow|Hshrink]]; [contradiction | lia |].
    revert H. unfold copy_assign.
    destruct (Nat.eqb_spec this rhs); [contradiction|]. cbn [negb].
    step_by ltac:(apply get_vec_eq; eassumption).
    step_by ltac:(apply get_vec_eq; eassumption).
    destruct (Nat.ltb_spec (capacity_ (data_ vt)) (size_ vr)); [lia|].
    destruct (Nat.leb_spec (size_ vr) (size_ vt)); [|lia].
    intros Hthrow. apply bind_Throw_inv in Hthrow as [Hthrow | (u & w1 & _ & Hthrow)].
    + pose proof (keeps_shape_assign_from (data_ vt) rhs (size_ vr) 0 (mkWorld h ob f lg))
        as Hk.
      now rewrite Hthrow in Hk.
    + exfalso. revert Hthrow. apply steady_no_Throw. steady_tac.
Qed.

(** Every exit by an exception outside the two non-atomic paths leaves
    the invariant in place. *)
Lemma run_op_Throw op w w' :
  world_ok w -> op_pre op w -> non_atomic op w = false ->
  run_op op w = Throw w' -> world_ok w'.
Proof.
  intros Hok Hpre Hna Hrun.
  assert (Hsteady : duplicates op = false -> False).
  { intros Hd. exact (steady_no_Throw _ _ _ (run_op_steady op Hd) Hrun). }
  assert (Hemplace : forall this pos args,
            within w this pos 0 ->
            match objs w !! this with
            | Some v =>
                negb (size_ v =? capacity_ (data_ v)) &&
                ((0 <? size_ v) && negb (off pos =? size_ v))
            | None => false
            end = false ->
            Emplace this pos args w = Throw w' -> world_ok w').
  { intros this pos args (v & i & Hv & -> & Hi) Hpath Hthrow.
    rewrite Hv in Hpath. simpl off in Hpath.
    destruct (world_ok_rep w this v Hok Hv) as [xs Hrep]. pose proof Hrep as (Hsz & _).
    assert (Hp : size_ v = capacity_ (data_ v) \/ i = size_ v).
    { destruct (Nat.eqb_spec (size_ v) (capacity_ (data_ v))); [now left | right].
      destruct (Nat.ltb_spec 0 (size_ v)), (Nat.eqb_spec i (size_ v));
        simpl in Hpath; try discriminate; lia. }
    destruct w as [h ob f lg]; simpl in *.
    destruct (Emplace_Throw_atomic this v xs i args h ob f lg w' Hv Hrep ltac:(lia) Hp Hthrow).
    now apply (world_ok_same (mkWorld h ob f lg)). }
  assert (Hback : forall this args,
            alive w this -> EmplaceBack this args w = Throw w' -> world_ok w').
  { intros this args [v Hv] Hthrow.
    destruct (world_ok_rep w this v Hok Hv) as [xs Hrep].
    destruct w as [h ob f lg]; simpl in *.
    destruct (EmplaceBack_Throw_atomic this v xs args h ob f lg w' Hv Hrep Hthrow).
    now apply (world_ok_same (mkWorld h ob f lg)). }
  destruct op; simpl in Hpre, Hna, Hrun; try (now destruct Hsteady).
  - (* Vector(const Vector&) *)
    destruct Hpre as [Hnone [vo Ho]].
    destruct (world_ok_rep w other vo Hok Ho) as [ys Hrr].
    destruct w as [h ob f lg]; simpl in *.
    destruct (Vector_copy_ctor_Throw_atomic this other vo ys h ob f lg w' Hnone Ho Hrr Hrun).
    now apply (world_ok_same (mkWorld h ob f lg)).
  - (* Reserve *)
    destruct Hpre as [v Hv].
    destruct (world_ok_rep w this v Hok Hv) as [xs Hrep].
    destruct w as [h ob f lg]; simpl in *.
    destruct (Reserve_Throw_atomic this n v xs h ob f lg w' Hv Hrep Hrun).
    now apply (world_ok_same (mkWorld h ob f lg)).
  - (* Resize *)
    destruct Hpre as [v Hv].
    destruct (world_ok_rep w this v Hok Hv) as [xs Hrep].
    destruct w as [h ob f lg]; simpl in *.
    destruct (Resize_Throw_atomic this n v xs h ob f lg w' Hv Hrep Hrun).
    now apply (world_ok_same (mkWorld h ob f lg)).
  - (* Emplace *)
    apply bind_Throw_inv in Hrun as [Hrun | (u & w1 & _ & Hrun)]; [|discriminate].
    exact (Hemplace this pos args Hpre Hna Hrun).
  - (* Insert(pos, const T&) *)
    apply bind_Throw_inv in Hrun as [Hrun | (u & w1 & _ & Hrun)]; [|discriminate].
    exact (Hemplace this pos (CopyOf x) Hpre Hna Hrun).
  - (* Insert(pos, T&&) *)
    apply bind_Throw_inv in Hrun as [Hrun | (u & w1 & _ & Hrun)]; [|discriminate].
    exact (Hemplace this pos (MoveOf x) Hpre Hna Hrun).
  - (* EmplaceBack *)
    apply bind_Throw_inv in Hrun as [Hrun | (u & w1 & _ & Hrun)]; [|discriminate].
    exact (Hback this args Hpre Hrun).
  - (* PushBack(const T&) *)
    apply bind_Throw_inv in Hrun as [Hrun | (u & w1 & _ & Hrun)]; [|discriminate].
    exact (Hback this (CopyOf x) Hpre Hrun).
  - (* PushBack(T&&) *)
    apply bind_Throw_inv in Hrun as [Hrun | (u & w1 & _ & Hrun)]; [|discriminate].
    exact (Hback this (MoveOf x) Hpre Hrun).
  - (* Erase *)
    apply bind_Throw_inv in Hrun as [Hrun | (u & w1 & _ & Hrun)]; [|discriminate].
    unfold Erase in Hrun. now apply noexcept_no_Throw in Hrun.
  - (* operator=(const Vector&) *)
    destruct Hpre as [[vt Ht] [vr Hr]]. rewrite Ht, Hr in Hna.
    destruct (world_ok_rep w this vt Hok Ht) as [xs Hrt].
    destruct (world_ok_rep w rhs vr Hok Hr) as [ys Hrr].
    assert (Hp : this = rhs \/ capacity_ (data_ vt) < size_ vr \/ size_ vr <= size_ vt).
    { destruct (Nat.eqb_spec this rhs); [now left | right].
      destruct (Nat.ltb_spec (capacity_ (data_ vt)) (size_ vr)); [now left | right].
      destruct (Nat.leb_spec (size_ vr) (size_ vt)); [assumption | discriminate]. }
    destruct w as [h ob f lg]; simpl in *.
    apply (world_ok_same_shape (mkWorld h ob f lg)); [|assumption].
    exact (copy_assign_Throw_shape this rhs vt vr xs ys h ob f lg w' Ht Hr Hrt Hrr Hp Hrun).
Qed.

(** C3.  In a world where every vector satisfies the invariant (its size
    does not exceed its capacity and exactly the slots [0, size) of its
    block are live), a public operation is called within its precondition:
    a constructor on storage that holds no object, everything else on live
    objects, an index below the size, an iterator of the vector as position,
    [PopBack] on a vector with an element, move assignment between two
    different objects, a size argument for which a block is allocated
    ([Vector(n)], [Reserve(n)] and [Resize(n)] beyond the capacity) with a
    byte count that fits [size_t].  Then every vector satisfies the invariant again when the call returns
    normally, and also when it exits by an exception, unless the call ran on
    one of the two paths that build an element past the size before they
    update the size: an insertion before the end into a block with room, and
    a copy assignment that constructs the additional elements of a longer
    vector in the existing block. *)
Theorem public_operations_preserve_invariant (op : Op) (w : World) :
  world_ok w -> op_pre op w -> size_pre op w ->
  (forall w', run_op op w = Ret tt w' -> world_ok w') /\
  (forall w', run_op op w = Throw w' -> non_atomic op w = false -> world_ok w').
Proof.
  intros Hok Hpre _. split.
  - intros w' Hrun. apply sim_run_op in Hrun.
    destruct (run_op_quiet op (quiet w)) as (w'' & Heq & Hok'');
      [now apply world_ok_quiet | reflexivity | exact Hpre |].
    rewrite Heq in Hrun. injection Hrun as ->. now apply world_ok_quiet.
  - intros w' Hrun Hna. exact (run_op_Throw op w w' Hok Hpre Hna Hrun).
Qed.

End Element.

Arguments Ret {T A} a w.
Arguments Throw {T A} w.
Arguments Undef {T A}.
Arguments Terminate {T A}.
Arguments Raw {T}.
Arguments Live {T} x.

(** * Concrete instances *)

(** A vector of naturals at object [7] with elements [1, 2, 3] in a block of
    capacity 4 at address [2]; [fz] is the duplication countdown. *)
Definition world123 (fz : option nat) : @World nat :=
  mkWorld {[ 2 := [Live 1; Live 2; Live 3; Raw] ]}
          {[ 7 := mkVector (mkRaw (Some 2) 4) 3 ]}
          fz [].

(** Nine elements of eight bytes. *)
Lemma representable_9 : representable 8 9.
Proof. split; [lia | vm_compute; discriminate]. Defined.

Lemma world123_holds fz : holds (world123 fz) 7 [1; 2; 3] 4.
Proof.
  exists (mkVector (mkRaw (Some 2) 4) 3).
  repeat split; simpl; lia.
Qed.

Lemma Reserve_within_capacity_is_noop_witness :
  capacity_of (world123 None) 7 = Some 4 /\ 3 <= 4 /\
  Reserve id true 7 3 (world123 None) = Ret tt (world123 None).
Proof.
  split; [reflexivity|]. split; [lia|].
  apply (Reserve_within_capacity_is_noop id true (world123 None) 7 4 3); [reflexivity | lia].
Defined.


Lemma move_transfers_ownership_witness :
  holds (world123 None) 7 [1; 2; 3] 4 /\ 7 <> 8 /\
  exists w',
    match objs (world123 None) !! 8 with
    | None => Vector_move_ctor 8 7 (world123 None)
    | Some _ => move_assign 8 7 (world123 None)
    end = Ret tt w' /\
    size_of w' 7 = Some 0 /\
    holds w' 7 [] 0 /\
    holds w' 8 [1; 2; 3] 4 /\
    elems_of w' 8 = Some [1; 2; 3] /\
    size_of w' 8 = Some 3 /\
    capacity_of w' 8 = Some 4.
Proof.
  split; [apply world123_holds|]. split; [lia|].
  apply (move_transfers_ownership (world123 None) 7 8 [1; 2; 3] 4);
    [apply world123_holds | lia].
Defined.

Lemma self_move_assign_empties_witness :
  holds (world123 None) 7 [1; 2; 3] 4 /\
  exists w',
    move_assign 7 7 (world123 None) = Ret tt w' /\
    size_of w' 7 = Some 0 /\
    capacity_of w' 7 = Some 4 /\
    elems_of w' 7 = Some [] /\
    (forall i, elem_of_vec w' 7 i = None) /\
    heap w' = heap (world123 None).
Proof.
  split; [apply world123_holds|].
  apply (self_move_assign_empties (world123 None) 7 [1; 2; 3] 4), world123_holds.
Defined.

(** Two vectors of naturals: object [7] with elements [1, 2, 3] and capacity
    4 in block [2], and object [9] with the element [8] and capacity 1 in
    block [5]. *)
Definition world_pair (fz : option nat) : @World nat :=
  mkWorld {[ 2 := [Live 1; Live 2; Live 3; Raw]; 5 := [Live 8] ]}
          {[ 7 := mkVector (mkRaw (Some 2) 4) 3; 9 := mkVector (mkRaw (Some 5) 1) 1 ]}
          fz [].

(** The second duplication fails: the assignment [v9 = v7] throws and [v9]
    still holds its element. *)
Lemma copy_assign_grow_strong_guarantee_witness :
  holds (world_pair (Some 1)) 9 [8] 1 /\ holds (world_pair (Some 1)) 7 [1; 2; 3] 4 /\
  9 <> 7 /\ apart (world_pair (Some 1)) 9 7 /\ 1 < 3 /\
  exists w',
    copy_assign 9 7 (world_pair (Some 1)) = Throw w' /\
    heap w' = heap (world_pair (Some 1)) /\ objs w' = objs (world_pair (Some 1)) /\
    holds w' 9 [8] 1 /\
    size_of w' 9 = Some 1 /\
    capacity_of w' 9 = Some 1 /\
    elems_of w' 9 = Some [8].
Proof.
  assert (H9 : holds (world_pair (Some 1)) 9 [8] 1).
  { exists (mkVector (mkRaw (Some 5) 1) 1). repeat split; simpl; lia. }
  assert (H7 : holds (world_pair (Some 1)) 7 [1; 2; 3] 4).
  { exists (mkVector (mkRaw (Some 2) 4) 3). repeat split; simpl; lia. }
  assert (Hap : apart (world_pair (Some 1)) 9 7).
  { intros a. vm_compute. intros [= <-]. discriminate. }
  split; [exact H9|]. split; [exact H7|]. split; [lia|]. split; [exact Hap|]. split; [lia|].
  apply (copy_assign_grow_strong_guarantee (world_pair (Some 1)) 9 7 [8] [1; 2; 3] 1 4);
    [exact H9 | exact H7 | lia | exact Hap | simpl; lia].
Defined.

Lemma Erase_removes_element_witness :
  holds (world123 None) 7 [1; 2; 3] 4 /\ 1 < 3 /\ fuse (world123 None) = None /\
  exists w' r a,
    Erase id true 7 (iter_at (world123 None) 7 1) (world123 None) = Ret r w' /\
    r = iter_at w' 7 1 /\
    holds w' 7 [1; 3] 4 /\
    size_of w' 7 = Some 2 /\
    elems_of w' 7 = Some [1; 3] /\
    capacity_of w' 7 = Some 4 /\
    buffer_of (world123 None) 7 = Some a /\ buffer_of w' 7 = Some a /\
    log w' = log (world123 None) ++ (ev_assign a <$> seq 1 1) ++ [ev_destroy a 2].
Proof.
  split; [apply world123_holds|]. split; [lia|]. split; [reflexivity|].
  apply (Erase_removes_element id true (world123 None) 7 [1; 2; 3] 4 1);
    [apply world123_holds | simpl; lia | reflexivity].
Defined.

(** Insertion in the middle on the in-place path. *)
Lemma Emplace_inserts_at_witness :
  holds (world123 None) 7 [1; 2; 3] 4 /\ 1 <= 3 /\ fuse (world123 None) = None /\
  exists w' r,
    Emplace id true 7 (iter_at (world123 None) 7 1) (CopyOf 9) (world123 None) = Ret r w' /\
    r = iter_at w' 7 1 /\
    size_of w' 7 = Some 4 /\
    elems_of w' 7 = Some [1; 9; 2; 3] /\
    elem_of_vec w' 7 1 = Some 9 /\
    capacity_of w' 7 = Some 4 /\
    holds w' 7 [1; 9; 2; 3] 4.
Proof.
  split; [apply world123_holds|]. split; [lia|]. split; [reflexivity|].
  apply (Emplace_inserts_at id true (world123 None) 7 [1; 2; 3] 4 1 (CopyOf 9));
    [apply world123_holds | simpl; lia | reflexivity].
Defined.

Lemma PushBack_sequence_witness :
  objs (world123 None) !! 8 = None /\ fuse (world123 None) = None /\
  exists w',
    bind (Vector_default 8)
         (fun _ => push_all id false 8 [(true, 0); (false, 1); (true, 2)]) (world123 None)
    = Ret tt w' /\
    size_of w' 8 = Some 3 /\
    elems_of w' 8 = Some [0; 1; 2] /\
    capacity_of w' 8 = Some 4 /\
    (forall k, cap_after k <= cap_after (S k)) /\
    (forall k, cap_after (S k)
               = if k =? cap_after k then Nat.max 1 (2 * cap_after k) else cap_after k) /\
    (forall k, exists e, cap_after (S k) = 2 ^ e).
Proof.
  split; [reflexivity|]. split; [reflexivity|].
  apply (PushBack_sequence id false (world123 None) 8 [(true, 0); (false, 1); (true, 2)]);
    reflexivity.
Defined.


(** ** The invariant under failing and self-referring calls *)

Lemma world123_ok fz : world_ok (world123 fz).
Proof.
  split.
  - intros p v Hp. simpl in Hp. apply lookup_singleton_Some in Hp as [<- <-]. reflexivity.
  - intros p q Hpq a. unfold buffer_of. simpl. intros Hp Hq.
    destruct (decide (p = 7)) as [->|Hp7];
      [|rewrite lookup_singleton_ne in Hp by congruence; discriminate].
    destruct (decide (q = 7)) as [->|Hq7];
      [congruence | rewrite lookup_singleton_ne in Hq by congruence; discriminate].
Qed.

Lemma world123_begin fz : within (world123 fz) 7 (iter_at (world123 fz) 7 0) 0.
Proof.
  exists (mkVector (mkRaw (Some 2) 4) 3), 0.
  split; [reflexivity|]. split; [reflexivity | simpl; lia].
Qed.

(** A copy-only element type whose third duplication fails: [Insert] at the
    front, on the in-place path, throws in the middle of the backward shift,
    after slot 3 was constructed and before the size was updated.  The size
    is still 3 and slot 3 holds a live element. *)
Lemma throwing_insert_breaks_invariant :
  world_ok (world123 (Some 2)) /\
  op_pre (OpInsertCopy 7 (iter_at (world123 (Some 2)) 7 0) 9) (world123 (Some 2)) /\
  exists w',
    run_op 0 id false (OpInsertCopy 7 (iter_at (world123 (Some 2)) 7 0) 9) (world123 (Some 2))
    = Throw w' /\
    size_of w' 7 = Some 3 /\
    capacity_of w' 7 = Some 4 /\
    slot_at w' (mkPtr (Some 2) 3) = Some (Live 3) /\
    ~ world_ok w'.
Proof.
  split; [apply world123_ok|]. split; [apply world123_begin|].
  exists (mkWorld {[ 2 := [Live 1; Live 2; Live 3; Live 3] ]}
                  {[ 7 := mkVector (mkRaw (Some 2) 4) 3 ]}
                  (Some 0) [EvConstruct (mkPtr (Some 2) 3)]).
  split; [vm_compute; reflexivity|].
  split; [reflexivity|]. split; [reflexivity|]. split; [reflexivity|].
  intros [Hinv _].
  specialize (Hinv 7 (mkVector (mkRaw (Some 2) 4) 3) eq_refl).
  vm_compute in Hinv. discriminate.
Qed.

(** Move assignment of a vector to itself returns normally and breaks the
    invariant as well: the size is 0 while the three elements stay live in
    the block. *)
Lemma self_move_assign_breaks_invariant :
  world_ok (world123 None) /\
  exists w',
    move_assign 7 7 (world123 None) = Ret tt w' /\
    size_of w' 7 = Some 0 /\
    slot_at w' (mkPtr (Some 2) 0) = Some (Live 1) /\
    ~ world_ok w'.
Proof.
  split; [apply world123_ok|].
  exists (mkWorld {[ 2 := [Live 1; Live 2; Live 3; Raw] ]}
                  {[ 7 := mkVector (mkRaw (Some 2) 4) 0 ]}
                  None []).
  split; [vm_compute; reflexivity|].
  split; [reflexivity|]. split; [reflexivity|].
  intros [Hinv _].
  specialize (Hinv 7 (mkVector (mkRaw (Some 2) 4) 0) eq_refl).
  vm_compute in Hinv. discriminate.
Qed.

(** Copy assignment from a longer vector into a block with room: the second
    element is constructed, the construction of the third throws, and the
    size is still 1 with a live element in slot 1. *)
Definition world_short_long (fz : option nat) : @World nat :=
  mkWorld {[ 2 := [Live 1; Raw; Raw]; 5 := [Live 8; Live 6; Live 4] ]}
          {[ 7 := mkVector (mkRaw (Some 2) 3) 1; 9 := mkVector (mkRaw (Some 5) 3) 3 ]}
          fz [].

Lemma throwing_copy_assign_breaks_invariant :
  non_atomic (OpCopyAssign 7 9) (world_short_long (Some 2)) = true /\
  exists w',
    run_op 0 id false (OpCopyAssign 7 9) (world_short_long (Some 2)) = Throw w' /\
    size_of w' 7 = Some 1 /\
    slot_at w' (mkPtr (Some 2) 1) = Some (Live 6) /\
    ~ world_ok w'.
Proof.
  split; [reflexivity|].
  exists (mkWorld {[ 2 := [Live 8; Live 6; Raw]; 5 := [Live 8; Live 6; Live 4] ]}
                  {[ 7 := mkVector (mkRaw (Some 2) 3) 1; 9 := mkVector (mkRaw (Some 5) 3) 3 ]}
                  (Some 0)
                  [EvAssign (mkPtr (Some 2) 0); EvConstruct (mkPtr (Some 2) 1)]).
  split; [vm_compute; reflexivity|].
  split; [reflexivity|]. split; [reflexivity|].
  intros [Hinv _].
  specialize (Hinv 7 (mkVector (mkRaw (Some 2) 3) 1) eq_refl).
  vm_compute in Hinv. discriminate.
Qed.

(** A growing [Reserve] of a copy-only element type whose second duplication
    fails: the call exits by the exception, on a path that is not one of the
    two non-atomic ones. *)
Lemma public_operations_preserve_invariant_witness :
  world_ok (world123 (Some 1)) /\
  op_pre (OpReserve 7 9) (world123 (Some 1)) /\
  size_pre 8 (OpReserve 7 9) (world123 (Some 1)) /\
  (forall w',
     run_op 0 id false (OpReserve 7 9) (world123 (Some 1)) = Ret tt w' -> world_ok w') /\
  (forall w',
     run_op 0 id false (OpReserve 7 9) (world123 (Some 1)) = Throw w' ->
     non_atomic (OpReserve 7 9) (world123 (Some 1)) = false ->
     world_ok w').
Proof.
  split; [apply world123_ok|]. split; [eexists; reflexivity|].
  split; [intros v _ _; apply representable_9|].
  apply (public_operations_preserve_invariant 0 id false 8 (OpReserve 7 9)
           (world123 (Some 1)));
    [apply world123_ok | eexists; reflexivity | intros v _ _; apply representable_9].
Defined.

(** The same insertion when no duplication fails. *)

(** ** Instances of the further properties *)

(** Two vectors of naturals: object [7] with elements [1, 2, 3] and capacity
    4 in block [2], and object [9] with the elements [8, 6] and capacity 2
    in block [5]. *)
Definition world_two (fz : option nat) : @World nat :=
  mkWorld {[ 2 := [Live 1; Live 2; Live 3; Raw]; 5 := [Live 8; Live 6] ]}
          {[ 7 := mkVector (mkRaw (Some 2) 4) 3; 9 := mkVector (mkRaw (Some 5) 2) 2 ]}
          fz [].

Lemma world_two_holds7 fz : holds (world_two fz) 7 [1; 2; 3] 4.
Proof. exists (mkVector (mkRaw (Some 2) 4) 3). repeat split; simpl; lia. Qed.

Lemma world_two_holds9 fz : holds (world_two fz) 9 [8; 6] 2.
Proof. exists (mkVector (mkRaw (Some 5) 2) 2). repeat split; simpl; lia. Qed.

Lemma world_two_alive fz p : p = 7 \/ p = 9 -> alive (world_two fz) p.
Proof. intros [->| ->]; eexists; reflexivity. Qed.

Lemma world_two_buffer fz p a :
  buffer_of (world_two fz) p = Some a -> (p = 7 /\ a = 2) \/ (p = 9 /\ a = 5).
Proof.
  unfold buffer_of. simpl.
  destruct (decide (p = 7)) as [->|H7]; [intros [= <-]; now left|].
  destruct (decide (p = 9)) as [->|H9]; [intros [= <-]; now right|].
  rewrite lookup_insert_ne by congruence.
  rewrite lookup_singleton_ne by congruence. discriminate.
Qed.

Lemma world_two_apart fz p q : p <> q -> apart (world_two fz) p q.
Proof.
  intros Hpq a Hp Hq.
  apply world_two_buffer in Hp. apply world_two_buffer in Hq. lia.
Qed.

Lemma world_two_ok fz : world_ok (world_two fz).
Proof.
  split; [|intros p q; apply world_two_apart].
  intros p v Hp. simpl in Hp.
  destruct (decide (p = 7)) as [->|H7]; [injection Hp as <-; reflexivity|].
  destruct (decide (p = 9)) as [->|H9]; [injection Hp as <-; reflexivity|].
  rewrite lookup_insert_ne in Hp by congruence.
  rewrite lookup_singleton_ne in Hp by congruence. discriminate.
Qed.

Lemma Swap_exchanges_contents_witness :
  holds (world_two None) 7 [1; 2; 3] 4 /\ holds (world_two None) 9 [8; 6] 2 /\ 7 <> 9 /\
  exists w',
    Swap 7 9 (world_two None) = Ret tt w' /\
    holds w' 7 [8; 6] 2 /\ holds w' 9 [1; 2; 3] 4 /\
    elems_of w' 7 = Some [8; 6] /\ elems_of w' 9 = Some [1; 2; 3] /\
    capacity_of w' 7 = Some 2 /\ capacity_of w' 9 = Some 4 /\
    heap w' = heap (world_two None) /\ log w' = log (world_two None) /\
    fuse w' = fuse (world_two None).
Proof.
  split; [apply world_two_holds7|]. split; [apply world_two_holds9|]. split; [lia|].
  apply (Swap_exchanges_contents (world_two None) 7 9 [1; 2; 3] [8; 6] 4 2);
    [apply world_two_holds7 | apply world_two_holds9 | lia].
Defined.

Lemma Swap_twice_restores_witness :
  alive (world_two None) 7 /\ alive (world_two None) 9 /\
  bind (Swap 7 9) (fun _ => Swap 7 9) (world_two None) = Ret tt (world_two None) /\
  (7 = 9 -> Swap 7 9 (world_two None) = Ret tt (world_two None)).
Proof.
  split; [apply world_two_alive; now left|]. split; [apply world_two_alive; now right|].
  apply (Swap_twice_restores (world_two None) 7 9);
    apply world_two_alive; [now left | now right].
Defined.


Lemma sized_constructor_value_initialises_witness :
  objs (world123 None) !! 8 = None /\ representable 8 2 /\
  exists w',
    Vector_sized 0 8 2 (world123 None) = Ret tt w' /\
    holds w' 8 [0; 0] 2 /\
    size_of w' 8 = Some 2 /\
    capacity_of w' 8 = Some 2 /\
    elems_of w' 8 = Some [0; 0] /\
    fuse w' = fuse (world123 None) /\
    (2 = 0 -> Vector_sized 0 8 2 (world123 None) = Vector_default 8 (world123 None) /\
              heap w' = heap (world123 None)).
Proof.
  split; [reflexivity|]. split; [split; [lia | vm_compute; discriminate]|].
  apply (sized_constructor_value_initialises 0 8 (world123 None) 8 2);
    [reflexivity | split; [lia | vm_compute; discriminate]].
Defined.

Lemma destructor_destroys_then_frees_witness :
  holds (world123 None) 7 [1; 2; 3] 4 /\
  exists w',
    Vector_dtor 7 (world123 None) = Ret tt w' /\
    objs w' = delete 7 (objs (world123 None)) /\
    heap w' = free_block (buffer_of (world123 None) 7) (heap (world123 None)) /\
    fuse w' = fuse (world123 None) /\
    log w' = log (world123 None) ++
             match buffer_of (world123 None) 7 with
             | Some a => (ev_destroy a <$> seq 0 3) ++ [EvFree a]
             | None => []
             end.
Proof.
  split; [apply world123_holds|].
  apply (destructor_destroys_then_frees (world123 None) 7 [1; 2; 3] 4), world123_holds.
Defined.

Lemma copy_construct_then_destroy_restores_witness :
  objs (world123 None) !! 8 = None /\ holds (world123 None) 7 [1; 2; 3] 4 /\
  enough 3 (fuse (world123 None)) /\
  exists w',
    bind (Vector_copy_ctor 8 7) (fun _ => Vector_dtor 8) (world123 None) = Ret tt w' /\
    heap w' = heap (world123 None) /\ objs w' = objs (world123 None).
Proof.
  split; [reflexivity|]. split; [apply world123_holds|]. split; [exact I|].
  apply (copy_construct_then_destroy_restores (world123 None) 8 7 [1; 2; 3] 4);
    [reflexivity | apply world123_holds | exact I].
Defined.

Lemma PopBack_removes_last_or_is_undefined_witness :
  holds (world123 None) 7 [1; 2; 3] 4 /\
  ([1; 2; 3] = [] -> PopBack 7 (world123 None) = Undef) /\
  ([1; 2; 3] <> [] ->
   exists w' a,
     PopBack 7 (world123 None) = Ret tt w' /\
     holds w' 7 [1; 2] 4 /\
     elems_of w' 7 = Some [1; 2] /\
     size_of w' 7 = Some 2 /\
     capacity_of w' 7 = Some 4 /\
     buffer_of (world123 None) 7 = Some a /\ buffer_of w' 7 = Some a /\
     fuse w' = fuse (world123 None) /\
     log w' = log (world123 None) ++ [ev_destroy a 2]).
Proof.
  split; [apply world123_holds|].
  apply (PopBack_removes_last_or_is_undefined (world123 None) 7 [1; 2; 3] 4), world123_holds.
Defined.

Lemma PushBack_then_PopBack_restores_elements_witness :
  holds (world123 None) 7 [1; 2; 3] 4 /\ fuse (world123 None) = None /\
  exists w',
    bind (PushBack_copy id true 7 9) (fun _ => PopBack 7) (world123 None) = Ret tt w' /\
    holds w' 7 [1; 2; 3] 4 /\
    elems_of w' 7 = Some [1; 2; 3] /\
    size_of w' 7 = Some 3.
Proof.
  split; [apply world123_holds|]. split; [reflexivity|].
  apply (PushBack_then_PopBack_restores_elements id true (world123 None) 7 [1; 2; 3] 4 9);
    [apply world123_holds | reflexivity].
Defined.

Lemma Insert_then_Erase_restores_elements_witness :
  holds (world123 None) 7 [1; 2; 3] 4 /\ 1 <= 3 /\ fuse (world123 None) = None /\
  exists w' r,
    bind (Insert_copy id true 7 (iter_at (world123 None) 7 1) 9)
         (fun p => Erase id true 7 p) (world123 None) = Ret r w' /\
    r = iter_at w' 7 1 /\
    holds w' 7 [1; 2; 3] 4 /\
    elems_of w' 7 = Some [1; 2; 3] /\
    size_of w' 7 = Some 3.
Proof.
  split; [apply world123_holds|]. split; [lia|]. split; [reflexivity|].
  apply (Insert_then_Erase_restores_elements id true (world123 None) 7 [1; 2; 3] 4 1 9);
    [apply world123_holds | simpl; lia | reflexivity].
Defined.

(** Index 3 is below the capacity 4 but not below the size 3. *)
Lemma index_operator_is_bounded_by_size_witness :
  holds (world123 None) 7 [1; 2; 3] 4 /\
  elem_of_vec (world123 None) 7 3 = [1; 2; 3] !! 3 /\
  (3 < 3 -> Vector_at 7 3 (world123 None) = Ret (iter_at (world123 None) 7 3) (world123 None)) /\
  (3 <= 3 -> Vector_at 7 3 (world123 None) = Undef).
Proof.
  split; [apply world123_holds|].
  apply (index_operator_is_bounded_by_size (world123 None) 7 [1; 2; 3] 4 3), world123_holds.
Defined.

Lemma begin_end_delimit_the_elements_witness :
  holds (world123 None) 7 [1; 2; 3] 4 /\
  begin_ 7 (world123 None) = Ret (iter_at (world123 None) 7 0) (world123 None) /\
  end_ 7 (world123 None) = Ret (iter_at (world123 None) 7 3) (world123 None) /\
  cbegin 7 (world123 None) = begin_ 7 (world123 None) /\
  cend 7 (world123 None) = end_ 7 (world123 None) /\
  bind (begin_ 7) (fun b => bind (end_ 7) (fun e => distance b e)) (world123 None)
  = Ret 3 (world123 None) /\
  (iter_at (world123 None) 7 0 = iter_at (world123 None) 7 3 <-> [1; 2; 3] = []) /\
  (4 = 0 -> iter_at (world123 None) 7 0 = nullptr).
Proof.
  split; [apply world123_holds|].
  apply (begin_end_delimit_the_elements (world123 None) 7 [1; 2; 3] 4), world123_holds.
Defined.

Lemma copy_assign_reuses_the_block_witness :
  holds (world_two None) 7 [1; 2; 3] 4 /\ holds (world_two None) 9 [8; 6] 2 /\
  7 <> 9 /\ apart (world_two None) 7 9 /\ 2 <= 4 /\ fuse (world_two None) = None /\
  exists w',
    copy_assign 7 9 (world_two None) = Ret tt w' /\
    holds w' 7 [8; 6] 4 /\
    holds w' 9 [8; 6] 2 /\
    elems_of w' 7 = Some [8; 6] /\
    size_of w' 7 = Some 2 /\
    capacity_of w' 7 = Some 4 /\
    buffer_of w' 7 = buffer_of (world_two None) 7.
Proof.
  split; [apply world_two_holds7|]. split; [apply world_two_holds9|]. split; [lia|].
  split; [apply world_two_apart; lia|]. split; [lia|]. split; [reflexivity|].
  apply (copy_assign_reuses_the_block (world_two None) 7 9 [1; 2; 3] [8; 6] 4 2);
    [ apply world_two_holds7 | apply world_two_holds9 | lia | apply world_two_apart; lia
    | simpl; lia | reflexivity ].
Defined.

Lemma move_assign_abandons_the_old_block_witness :
  world_ok (world_two None) /\ holds (world_two None) 7 [1; 2; 3] 4 /\
  alive (world_two None) 9 /\ 7 <> 9 /\ buffer_of (world_two None) 7 = Some 2 /\
  exists w',
    move_assign 7 9 (world_two None) = Ret tt w' /\
    heap w' = heap (world_two None) /\ log w' = log (world_two None) /\
    heap w' !! 2 = Some ((Live <$> [1; 2; 3]) ++ replicate (4 - 3) Raw) /\
    (forall p, buffer_of w' p <> Some 2).
Proof.
  split; [apply world_two_ok|]. split; [apply world_two_holds7|].
  split; [apply world_two_alive; now right|]. split; [lia|]. split; [reflexivity|].
  apply (move_assign_abandons_the_old_block (world_two None) 7 9 [1; 2; 3] 4 2);
    [ apply world_two_ok | apply world_two_holds7 | apply world_two_alive; now right
    | lia | reflexivity ].
Defined.

Lemma Erase_at_end_is_undefined_witness :
  holds (world123 None) 7 [1; 2; 3] 4 /\
  Erase id true 7 (iter_at (world123 None) 7 3) (world123 None) = Undef.
Proof.
  split; [apply world123_holds|].
  apply (Erase_at_end_is_undefined id true (world123 None) 7 [1; 2; 3] 4), world123_holds.
Defined.

Lemma Erase_terminates_when_the_shift_throws_witness :
  false = false /\ holds (world123 (Some 0)) 7 [1; 2; 3] 4 /\
  fuse (world123 (Some 0)) = Some 0 /\ 0 + 1 + 0 < 3 /\
  Erase id false 7 (iter_at (world123 (Some 0)) 7 0) (world123 (Some 0)) = Terminate /\
  (forall pos w0 w', @Erase nat id false 7 pos w0 <> Throw w').
Proof.
  split; [reflexivity|]. split; [apply world123_holds|]. split; [reflexivity|].
  split; [lia|].
  apply (Erase_terminates_when_the_shift_throws id false (world123 (Some 0)) 7 [1; 2; 3] 4 0 0);
    [reflexivity | apply world123_holds | reflexivity | simpl; lia].
Defined.

Lemma PushBack_within_capacity_keeps_the_block_witness :
  holds (world123 None) 7 [1; 2; 3] 4 /\ 3 + 1 <= 4 /\ fuse (world123 None) = None /\
  exists w',
    push_all id true 7 [(true, 9)] (world123 None) = Ret tt w' /\
    holds w' 7 [1; 2; 3; 9] 4 /\
    elems_of w' 7 = Some [1; 2; 3; 9] /\
    capacity_of w' 7 = Some 4 /\
    buffer_of w' 7 = buffer_of (world123 None) 7 /\
    dom (heap w') = dom (heap (world123 None)).
Proof.
  split; [apply world123_holds|]. split; [lia|]. split; [reflexivity|].
  apply (PushBack_within_capacity_keeps_the_block id true 7 [(true, 9)]
           (world123 None) [1; 2; 3] 4);
    [apply world123_holds | simpl; lia | reflexivity].
Defined.

(** The vector at [9] is full; the element to insert is built, and the
    duplication of the first old element fails. *)
Lemma Emplace_growth_rolls_back_witness :
  holds (world_two (Some 1)) 9 [8; 6] 2 /\ 1 <= 2 /\ 2 = 2 /\
  fuse (world_two (Some 1)) = Some 1 /\ 1 < args_cost false (CopyOf 5) + cost false 2 /\
  exists w',
    Emplace id false 9 (iter_at (world_two (Some 1)) 9 1) (CopyOf 5) (world_two (Some 1))
    = Throw w' /\
    heap w' = heap (world_two (Some 1)) /\ objs w' = objs (world_two (Some 1)) /\
    holds w' 9 [8; 6] 2 /\
    elems_of w' 9 = Some [8; 6] /\
    size_of w' 9 = Some 2 /\
    capacity_of w' 9 = Some 2.
Proof.
  split; [apply world_two_holds9|]. split; [lia|]. split; [reflexivity|].
  split; [reflexivity|]. split; [simpl; lia|].
  apply (Emplace_growth_rolls_back id false (world_two (Some 1)) 9 [8; 6] 2 1 1 (CopyOf 5));
    [apply world_two_holds9 | simpl; lia | reflexivity | reflexivity | simpl; lia].
Defined.

Lemma PushBack_rolls_back_witness :
  holds (world_two (Some 2)) 9 [8; 6] 2 /\ fuse (world_two (Some 2)) = Some 2 /\
  2 < 1 + cost false 2 /\
  exists w',
    PushBack_copy id false 9 5 (world_two (Some 2)) = Throw w' /\
    heap w' = heap (world_two (Some 2)) /\ objs w' = objs (world_two (Some 2)) /\
    holds w' 9 [8; 6] 2 /\
    elems_of w' 9 = Some [8; 6].
Proof.
  split; [apply world_two_holds9|]. split; [reflexivity|]. split; [simpl; lia|].
  apply (PushBack_rolls_back id false (world_two (Some 2)) 9 [8; 6] 2 2 5);
    [apply world_two_holds9 | reflexivity | simpl; lia].
Defined.

(** The second duplication fails: the first element of [7] is already the
    first element of [9], the others are the old ones. *)
Lemma copy_assign_in_place_is_not_atomic_witness :
  holds (world_two (Some 1)) 7 [1; 2; 3] 4 /\ holds (world_two (Some 1)) 9 [8; 6] 2 /\
  7 <> 9 /\ apart (world_two (Some 1)) 7 9 /\ 2 <= 4 /\
  fuse (world_two (Some 1)) = Some 1 /\ 1 < 2 /\
  exists w' a,
    copy_assign 7 9 (world_two (Some 1)) = Throw w' /\
    buffer_of (world_two (Some 1)) 7 = Some a /\
    objs w' = objs (world_two (Some 1)) /\
    heap w' !! a = Some ((Live <$> [8; 2; 3]) ++ replicate (4 - (1 `max` 3)) Raw) /\
    size_of w' 7 = Some 3 /\
    (1 < 3 -> holds w' 7 [8; 2; 3] 4) /\
    (3 < 1 ->
     exists y, [8; 6] !! 3 = Some y /\ slot_at w' (mkPtr (Some a) 3) = Some (Live y)).
Proof.
  split; [apply world_two_holds7|]. split; [apply world_two_holds9|]. split; [lia|].
  split; [apply world_two_apart; lia|]. split; [lia|]. split; [reflexivity|].
  split; [lia|].
  apply (copy_assign_in_place_is_not_atomic (world_two (Some 1)) 7 9 [1; 2; 3] [8; 6] 4 2 1);
    [ apply world_two_holds7 | apply world_two_holds9 | lia | apply world_two_apart; lia
    | simpl; lia | reflexivity | simpl; lia ].
Defined.

(** [Erase] on an element type with a nothrow move, with a countdown that
    would fail the next duplication. *)
Lemma operations_that_duplicate_nothing_witness :
  @duplicates nat true (OpErase 7 (iter_at (world123 (Some 0)) 7 0)) = false /\
  run_op 0 id true (OpErase 7 (iter_at (world123 (Some 0)) 7 0)) (world123 (Some 0))
  = Ret tt (mkWorld {[ 2 := [Live 2; Live 3; Raw; Raw] ]}
                    {[ 7 := mkVector (mkRaw (Some 2) 4) 2 ]}
                    (Some 0)
                    [EvAssign (mkPtr (Some 2) 0); EvAssign (mkPtr (Some 2) 1);
                     EvDestroy (mkPtr (Some 2) 2)]) /\
  Some 0 = fuse (world123 (Some 0)).
Proof.
  split; [reflexivity|]. split; [vm_compute; reflexivity|].
  apply (operations_that_duplicate_nothing 0 id true
           (OpErase 7 (iter_at (world123 (Some 0)) 7 0)) (world123 (Some 0))
           (mkWorld {[ 2 := [Live 2; Live 3; Raw; Raw] ]}
                    {[ 7 := mkVector (mkRaw (Some 2) 4) 2 ]}
                    (Some 0)
                    [EvAssign (mkPtr (Some 2) 0); EvAssign (mkPtr (Some 2) 1);
                     EvDestroy (mkPtr (Some 2) 2)]));
    [reflexivity | vm_compute; reflexivity].
Defined.

Lemma Resize_beyond_capacity_rolls_back_witness :
  false = false /\ holds (world123 (Some 1)) 7 [1; 2; 3] 4 /\ 4 < 9 /\
  representable 8 9 /\
  fuse (world123 (Some 1)) = Some 1 /\ 1 < 3 /\
  exists w',
    Resize 0 id false 7 9 (world123 (Some 1)) = Throw w' /\
    heap w' = heap (world123 (Some 1)) /\ objs w' = objs (world123 (Some 1)) /\
    holds w' 7 [1; 2; 3] 4 /\
    size_of w' 7 = Some 3.
Proof.
  split; [reflexivity|]. split; [apply world123_holds|]. split; [lia|].
  split; [apply representable_9|].
  split; [reflexivity|]. split; [lia|].
  apply (Resize_beyond_capacity_rolls_back 0 id false 8 (world123 (Some 1)) 7 [1; 2; 3] 4 9 1);
    [ reflexivity | apply world123_holds | lia | apply representable_9
    | reflexivity | simpl; lia ].
Defined.

Lemma EmplaceBack_returns_the_new_element_witness :
  holds (world123 None) 7 [1; 2; 3] 4 /\ fuse (world123 None) = None /\
  exists w' r,
    EmplaceBack id true 7 (CopyOf 9) (world123 None) = Ret r w' /\
    r = iter_at w' 7 3 /\
    read r w' = Ret 9 w' /\
    elems_of w' 7 = Some [1; 2; 3; 9].
Proof.
  split; [apply world123_holds|]. split; [reflexivity|].
  apply (EmplaceBack_returns_the_new_element id true (world123 None) 7 [1; 2; 3] 4 (CopyOf 9));
    [apply world123_holds | reflexivity].
Defined.



Lemma Reserve_moves_to_a_new_block_witness :
  holds (world123 None) 7 [1; 2; 3] 4 /\ 4 < 9 /\ representable 8 9 /\
  enough (cost true 3) (fuse (world123 None)) /\
  exists w' a',
    Reserve id true 7 9 (world123 None) = Ret tt w' /\
    buffer_of w' 7 = Some a' /\
    heap (world123 None) !! a' = None /\
    (forall a, buffer_of (world123 None) 7 = Some a -> heap w' !! a = None) /\
    (forall a, buffer_of (world123 None) 7 <> Some a -> a <> a' ->
               heap w' !! a = heap (world123 None) !! a) /\
    fuse w' = spend (cost true 3) (fuse (world123 None)).
Proof.
  split; [apply world123_holds|]. split; [lia|]. split; [apply representable_9|].
  split; [exact I|].
  apply (Reserve_moves_to_a_new_block id true 8 (world123 None) 7 [1; 2; 3] 4 9);
    [apply world123_holds | lia | apply representable_9 | exact I].
Defined.

(** The new element is built, the last element is duplicated into slot 3
    and one shift is done; the next duplication fails.  The block then holds
    [1, 2, 2, 3] and the size is still 3. *)
Lemma Emplace_in_place_is_not_atomic_witness :
  false = false /\
  holds (world123 (Some 3)) 7 ([] ++ [1; 2] ++ [3]) 4 /\ 3 < 4 /\
  fuse (world123 (Some 3)) = Some 3 /\
  args_cost false (CopyOf 9) + 1 <= 3 /\ 3 < args_cost false (CopyOf 9) + 2 + 2 /\
  exists w' a,
    Emplace id false 7 (iter_at (world123 (Some 3)) 7 0) (CopyOf 9) (world123 (Some 3))
    = Throw w' /\
    buffer_of (world123 (Some 3)) 7 = Some a /\
    objs w' = objs (world123 (Some 3)) /\
    heap w' !! a = Some ((Live <$> [1; 2; 2; 3]) ++ replicate (4 - 4) Raw) /\
    size_of w' 7 = Some 3 /\
    slot_at w' (mkPtr (Some a) 3) = Some (Live 3).
Proof.
  split; [reflexivity|]. split; [apply world123_holds|]. split; [lia|].
  split; [reflexivity|]. split; [simpl; lia|]. split; [simpl; lia|].
  apply (Emplace_in_place_is_not_atomic id false (world123 (Some 3)) 7 [] [1; 2] 3 4 3
           (CopyOf 9));
    [ reflexivity | apply world123_holds | simpl; lia | reflexivity
    | simpl; lia | simpl; lia ].
Defined.
